(** * hashstore.bakery: content-address keys, racks and portal resolution

    A shallow embedding of [hashstore/bakery/__init__.py] and of
    [hashstore/bakery/lite/dal.py], with the properties the specification
    states about them.

    Conventions of the embedding:
    - Python [bytes] are [list byte]; a Python [str] is the list of its
      code points ([pystr]), and a [string] where the text is ASCII or is
      read one character per code point below 256;
    - Python [int] is [N] where the code only produces naturals and [Z]
      where a negative value occurs ([shard_num = -1] in [is_it_shard]);
    - a call that may raise returns a [result]; [try]/[except] is [try_catch];
    - a [dict] with [str] keys is a [gmap pystr _]. *)

From Stdlib Require Import NArith ZArith List String Ascii Lia.
From Stdlib.Strings Require Import Byte.
From Equations Require Import Equations.
From stdpp Require Import base option list sorting gmap strings.
Import ListNotations.

Local Open Scope N_scope.

(** ** Exceptions

    [Unmodelled] is no exception of Python: it is what the embedding gives
    on an input that leaves the part of Python it covers (a JSON number, a
    dict key that is no [str]), where it says nothing about the code. *)

Inductive error : Type :=
  | AssertionError
  | KeyError
  | IndexError
  | ValueError
  | BinasciiError
  | ZeroDivisionError
  | TypeError
  | NoResultFound
  | Unmodelled.

Inductive result (A : Type) : Type :=
  | Ok (a : A)
  | Raise (e : error).

Arguments Ok {A} a.
Arguments Raise {A} e.

Global Instance result_ret : MRet result := fun A a => Ok a.

Global Instance result_bind : MBind result := fun A B k r =>
  match r with
  | Ok a => k a
  | Raise e => Raise e
  end.

Global Instance result_fmap : FMap result := fun A B f r =>
  match r with
  | Ok a => Ok (f a)
  | Raise e => Raise e
  end.

(** [try: body except: handler] with a bare [except] clause. *)
Definition try_catch {A : Type} (body : result A) (handler : A) : A :=
  match body with
  | Ok a => a
  | Raise _ => handler
  end.

Fixpoint mapM {A B : Type} (f : A -> result B) (l : list A) : result (list B) :=
  match l with
  | [] => Ok []
  | x :: xs => y ← f x; ys ← mapM f xs; Ok (y :: ys)
  end.

(** ** Bytes *)

Global Instance byte_eq_dec : EqDecision byte := Byte.byte_eq_dec.

Definition byte_of_N (n : N) : byte :=
  match Byte.of_N (n mod 256) with
  | Some b => b
  | None => x00
  end.

(** ** Positional numerals

    [to_digits base n] is the big-endian digit list of [n], produced by the
    loop [while n: n, d = divmod(n, base); out = [d] + out].  The loop is
    run on a fuel of [N.size n] iterations, which [to_digits_eq] shows to
    be enough for every [base >= 2]. *)

Fixpoint to_digits_loop (fuel : nat) (base n : N) (out : list N) : list N :=
  match fuel with
  | O => out
  | S fuel' =>
      if n =? 0 then out
      else to_digits_loop fuel' base (n / base) (n mod base :: out)
  end.

Definition to_digits (base n : N) : list N :=
  to_digits_loop (N.to_nat (N.size n)) base n [].

(** [for d in ds: acc = acc * base + d] *)
Definition of_digits (base : N) (ds : list N) : N :=
  fold_left (fun acc d => acc * base + d) ds 0.

(** [lstrip]: the length of the longest prefix made of [z], and the rest. *)
Fixpoint lstrip {A : Type} `{EqDecision A} (z : A) (l : list A) : nat * list A :=
  match l with
  | [] => (O, [])
  | x :: xs =>
      if decide (x = z) then let '(k, r) := lstrip z xs in (S k, r)
      else (O, l)
  end.

(** ** Base-N codec ([hashstore.utils.base_x]) *)

Module BaseX.

(** Modelled from the spec: the module [hashstore/utils/base_x.py] is not
    among the sources.  Section 4.1 describes a positional codec over an
    alphabet of length N: [encode_int]/[decode_int] are the plain
    numerals, and [encode]/[decode] treat the bytes as a big-endian
    number, with one leading zero character of the alphabet for each
    leading zero byte. *)
Record codec : Type := Codec { alphabet : list ascii }.

Definition size (c : codec) : N := N.of_nat (length (alphabet c)).

(** [alphabet[d]] *)
Definition char_of (c : codec) (d : N) : ascii :=
  nth (N.to_nat d) (alphabet c) "000"%char.

Definition zero_char (c : codec) : ascii := char_of c 0.

Fixpoint position (a : ascii) (l : list ascii) : option N :=
  match l with
  | [] => None
  | x :: xs => if decide (x = a) then Some 0 else N.succ <$> position a xs
  end.

(** [index[char]], a [KeyError] for a character outside the alphabet. *)
Definition index (c : codec) (a : ascii) : result N :=
  match position a (alphabet c) with
  | Some d => Ok d
  | None => Raise KeyError
  end.

(** Modelled from the spec: [encode_int] of section 4.1; the numeral of
    0 is the single zero character (a shard name has minimum length 1). *)
Definition encode_int (c : codec) (i : N) : string :=
  if i =? 0 then String (zero_char c) EmptyString
  else string_of_list_ascii (map (char_of c) (to_digits (size c) i)).

Definition decode_chars (c : codec) (v : list ascii) : result N :=
  ds ← mapM (index c) v; Ok (of_digits (size c) ds).

(** Modelled from the spec: [decode_int] of section 4.1. *)
Definition decode_int (c : codec) (v : string) : result N :=
  decode_chars c (list_ascii_of_string v).

(** Modelled from the spec: [encode] of section 4.1. *)
Definition encode (c : codec) (v : list byte) : string :=
  let '(zeros, rest) := lstrip x00 v in
  let acc := of_digits 256 (map Byte.to_N rest) in
  string_of_list_ascii
    (repeat (zero_char c) zeros ++ map (char_of c) (to_digits (size c) acc)).

(** Modelled from the spec: [decode] of section 4.1. *)
Definition decode (c : codec) (v : string) : result (list byte) :=
  let '(zeros, rest) := lstrip (zero_char c) (list_ascii_of_string v) in
  acc ← decode_chars c rest;
  Ok (repeat x00 zeros ++ map byte_of_N (to_digits 256 acc)).

(** The alphabets.  Section 4.1 names them [0-9A-Za-z] and [0-9a-z]; the
    doctests of [Cake] in the source ([str(short_k)] and the others) fix
    the order of the 62 characters as digits, lower case, upper case,
    which is the order used here (see [doctest_short_k]). *)
Definition alphabet62 : list ascii :=
  list_ascii_of_string
    "0123456789abcdefghijklmnopqrstuvwxyzABCDEFGHIJKLMNOPQRSTUVWXYZ".

Definition alphabet36 : list ascii :=
  list_ascii_of_string "0123456789abcdefghijklmnopqrstuvwxyz".

(** An alphabet the codec is well defined on. *)
Definition good (c : codec) : Prop := NoDup (alphabet c) /\ 2 <= size c.

End BaseX.

Definition B62 : BaseX.codec := BaseX.Codec BaseX.alphabet62.
Definition B36 : BaseX.codec := BaseX.Codec BaseX.alphabet36.

(** ** [hashlib.sha256]

    SHA-256 (FIPS 180-4) on byte lists; 32-bit words are naturals below
    [2^32]. *)

Module hashlib.

Definition w32 (x : N) : N := x mod 4294967296.
Definition add32 (x y : N) : N := w32 (x + y).
Definition rotr (n x : N) : N :=
  N.lor (N.shiftr x n) (w32 (N.shiftl x (32 - n))).
Definition not32 (x : N) : N := N.lxor x 4294967295.

Definition ch (x y z : N) : N := N.lxor (N.land x y) (N.land (not32 x) z).
Definition maj (x y z : N) : N :=
  N.lxor (N.lxor (N.land x y) (N.land x z)) (N.land y z).
Definition bsig0 (x : N) : N := N.lxor (N.lxor (rotr 2 x) (rotr 13 x)) (rotr 22 x).
Definition bsig1 (x : N) : N := N.lxor (N.lxor (rotr 6 x) (rotr 11 x)) (rotr 25 x).
Definition ssig0 (x : N) : N := N.lxor (N.lxor (rotr 7 x) (rotr 18 x)) (N.shiftr x 3).
Definition ssig1 (x : N) : N := N.lxor (N.lxor (rotr 17 x) (rotr 19 x)) (N.shiftr x 10).

(** The constants are defined as FIPS 180-4 does: the first 32 bits of
    the fractional parts of the cube roots (for [K]) and of the square
    roots (for [H0]) of the first primes. *)
Definition is_prime (p : N) : bool :=
  (2 <=? p)
  && forallb (fun d => negb (p mod d =? 0) || (p <=? d))
       (map N.of_nat (seq 2 17)).

Definition primes : list N :=
  filter (fun p => is_prime p = true) (map N.of_nat (seq 2 310)).

(** The integer cube root, one bit at a time from bit [k-1] down. *)
Fixpoint cbrt_bits (k : nat) (n r : N) : N :=
  match k with
  | O => r
  | S k' =>
      let r' := r + 2 ^ N.of_nat k' in
      if r' * r' * r' <=? n then cbrt_bits k' n r' else cbrt_bits k' n r
  end.

Definition K : list N :=
  Eval vm_compute in
    map (fun p => w32 (cbrt_bits 36 (p * 2 ^ 96) 0)) primes.

Definition state : Type := N * N * N * N * N * N * N * N.

Definition H0 : state :=
  Eval vm_compute in
    match map (fun p => w32 (N.sqrt (p * 2 ^ 64))) (firstn 8 primes) with
    | [a; b; c; d; e; f; g; h] => (a, b, c, d, e, f, g, h)
    | _ => (0, 0, 0, 0, 0, 0, 0, 0)
    end.

(** Big-endian bytes of a number, on [n] bytes. *)
Fixpoint be_bytes (n : nat) (x : N) : list byte :=
  match n with
  | O => []
  | S n' => byte_of_N (N.shiftr x (8 * N.of_nat n')) :: be_bytes n' x
  end.

Definition pad (msg : list byte) : list byte :=
  let len := N.of_nat (length msg) in
  let zeros := N.to_nat ((64 - (len + 9) mod 64) mod 64) in
  msg ++ [x80] ++ repeat x00 zeros ++ be_bytes 8 (8 * len).

(** The big-endian 32-bit words of a block. *)
Fixpoint words (n : nat) (block : list byte) : list N :=
  match n with
  | O => []
  | S n' => of_digits 256 (map Byte.to_N (firstn 4 block)) :: words n' (skipn 4 block)
  end.

(** The message schedule is kept newest word first. *)
Definition schedule_step (w : list N) : list N :=
  add32 (add32 (ssig1 (nth 1 w 0)) (nth 6 w 0))
        (add32 (ssig0 (nth 14 w 0)) (nth 15 w 0)) :: w.

Definition schedule (block : list byte) : list N :=
  rev (Nat.iter 48 schedule_step (rev (words 16 block))).

Definition round (s : state) (kw : N * N) : state :=
  let '(a, b, c, d, e, f, g, h) := s in
  let t1 := add32 (add32 (add32 h (bsig1 e)) (ch e f g)) (add32 (fst kw) (snd kw)) in
  let t2 := add32 (bsig0 a) (maj a b c) in
  (add32 t1 t2, a, b, c, add32 d t1, e, f, g).

Definition compress (s : state) (block : list byte) : state :=
  let '(a, b, c, d, e, f, g, h) := s in
  let '(a', b', c', d', e', f', g', h') :=
    fold_left round (combine K (schedule block)) s in
  (add32 a a', add32 b b', add32 c c', add32 d d',
   add32 e e', add32 f f', add32 g g', add32 h h').

Fixpoint blocks (n : nat) (s : state) (msg : list byte) : state :=
  match n with
  | O => s
  | S n' => blocks n' (compress s (firstn 64 msg)) (skipn 64 msg)
  end.

Definition sha256 (msg : list byte) : list byte :=
  let padded := pad msg in
  let '(a, b, c, d, e, f, g, h) := blocks (length padded / 64) H0 padded in
  be_bytes 4 a ++ be_bytes 4 b ++ be_bytes 4 c ++ be_bytes 4 d ++
  be_bytes 4 e ++ be_bytes 4 f ++ be_bytes 4 g ++ be_bytes 4 h.

End hashlib.

(** ** [Hasher] *)

(** The state of a [Hasher] is the bytes it was fed. *)
Definition Hasher : Type := list byte.

Definition Hasher_update (h : Hasher) (b : list byte) : Hasher := h ++ b.

Definition Hasher_init (data : option (list byte)) : Hasher :=
  match data with
  | Some d => Hasher_update [] d
  | None => []
  end.

Definition Hasher_digest (h : Hasher) : list byte := hashlib.sha256 h.

(** ** [CakeRole] and [CakeType] *)

Inductive CakeRole : Type := SYNAPSE | NEURON.

Definition CakeRole_code (r : CakeRole) : N :=
  match r with SYNAPSE => 0 | NEURON => 1 end.

Inductive modifier : Type := _IS_PORTAL | _IS_VTREE | _IS_RESOLVED.

Inductive CakeType : Type :=
  | INLINE | SHA256 | PORTAL | VTREE | DMOUNT | EVENT | DAG_STATE | JSON_WRAP.

Global Instance CakeRole_eq_dec : EqDecision CakeRole.
Proof. solve_decision. Defined.

Global Instance modifier_eq_dec : EqDecision modifier.
Proof. solve_decision. Defined.

Global Instance CakeType_eq_dec : EqDecision CakeType.
Proof. solve_decision. Defined.

Definition CakeType_code (t : CakeType) : N :=
  match t with
  | INLINE => 0 | SHA256 => 1 | PORTAL => 2 | VTREE => 3
  | DMOUNT => 4 | EVENT => 5 | DAG_STATE => 6 | JSON_WRAP => 7
  end.

Definition implied_role (t : CakeType) : option CakeRole :=
  match t with
  | EVENT => Some SYNAPSE
  | DAG_STATE => Some NEURON
  | JSON_WRAP => Some SYNAPSE
  | _ => None
  end.

(** The [*modifiers] of each member of the enumeration. *)
Definition modifiers (t : CakeType) : list modifier :=
  match t with
  | INLINE => []
  | SHA256 => [_IS_RESOLVED]
  | PORTAL => [_IS_PORTAL]
  | VTREE => [_IS_VTREE]
  | DMOUNT => [_IS_PORTAL]
  | EVENT => [_IS_RESOLVED]
  | DAG_STATE => [_IS_VTREE]
  | JSON_WRAP => [_IS_RESOLVED]
  end.

Definition is_vtree (t : CakeType) : bool :=
  bool_decide (_IS_VTREE ∈ modifiers t).
Definition is_portal (t : CakeType) : bool :=
  is_vtree t || bool_decide (_IS_PORTAL ∈ modifiers t).
Definition is_resolved (t : CakeType) : bool :=
  bool_decide (_IS_RESOLVED ∈ modifiers t).

(** Modelled from the spec: [CodeEnum.find_by_code] of [hashstore.utils] is
    not among the sources; it returns the member with the given code, and
    fails on a code that no member has (section 7, wrong header byte). *)
Definition CakeRole_find_by_code (code : N) : result CakeRole :=
  match code with
  | 0 => Ok SYNAPSE
  | 1 => Ok NEURON
  | _ => Raise KeyError
  end.

(** Modelled from the spec: see [CakeRole_find_by_code]. *)
Definition CakeType_find_by_code (code : N) : result CakeType :=
  match code with
  | 0 => Ok INLINE | 1 => Ok SHA256 | 2 => Ok PORTAL | 3 => Ok VTREE
  | 4 => Ok DMOUNT | 5 => Ok EVENT | 6 => Ok DAG_STATE | 7 => Ok JSON_WRAP
  | _ => Raise KeyError
  end.

Definition inline_max_bytes : nat := 32.

Definition _header (type : CakeType) (role : CakeRole) : N :=
  N.lor (N.shiftl (CakeType_code type) 1) (CakeRole_code role).

Definition pack_in_bytes (type : CakeType) (role : CakeRole)
    (data_bytes : list byte) : list byte :=
  byte_of_N (_header type role) :: data_bytes.

(** ** [process_stream]

    A stream is the list of the pieces in which its bytes arrive.
    [fd.read(n)] returns at most [n] bytes of the piece that is ready,
    fewer when that piece is shorter, and nothing only at the end of the
    stream (or when [n] is 0).  [BytesIO(b)] is the stream of the single
    piece [b]: as a buffered file does, it returns the [n] bytes asked
    for as long as there are as many.  The callback [on_chunk] acts on a
    state of the caller's. *)

Definition stream : Type := list (list byte).

Definition BytesIO (b : list byte) : stream := [b].

Fixpoint read (n : nat) (fd : stream) : list byte * stream :=
  match fd with
  | [] => ([], [])
  | [] :: fd' => read n fd'
  | piece :: fd' => (firstn n piece, skipn n piece :: fd')
  end.

Definition inspect {A : Type} (a : A) : {b : A | a = b} := exist _ a eq_refl.

Definition nop_on_chunk (chunk : list byte) (u : unit) : unit := u.

Equations? process_stream_loop {S : Type} (fd : stream)
    (on_chunk : list byte -> S -> S) (chunk_size : N)
    (inline_data : list byte) (hasher : Hasher) (len : nat) (st : S)
    : list byte * Hasher * nat * S by wf (length (concat fd)) lt :=
  process_stream_loop fd on_chunk chunk_size inline_data hasher len st
    with inspect (read (N.to_nat chunk_size) fd) := {
    | exist _ ([], _) _ => (inline_data, hasher, len, st)
    | exist _ (b :: bs, fd') Hchunk =>
        let chunk := b :: bs in
        let len' := (len + length chunk)%nat in
        process_stream_loop fd' on_chunk chunk_size
          (if bool_decide (len' <= inline_max_bytes)%nat
           then inline_data ++ chunk else inline_data)
          (Hasher_update hasher chunk) len' (on_chunk chunk st)
    }.
Proof.
  assert (concat fd = (b :: bs) ++ concat fd') as ->.
  { clear process_stream_loop. revert Hchunk. generalize (N.to_nat chunk_size).
    intros n. induction fd as [|piece fd IH]; [discriminate|].
    destruct piece as [|x piece]; [exact IH|].
    intros [= H1 <-]. cbn [concat]. rewrite <- H1, app_assoc.
    now rewrite firstn_skipn. }
  rewrite length_app. simpl. lia.
Qed.

Definition process_stream {S : Type} (fd : stream)
    (on_chunk : list byte -> S -> S) (chunk_size : N) (st : S)
    : (list byte * option (list byte)) * S :=
  let '(inline_data, hasher, len, st') :=
    process_stream_loop fd on_chunk chunk_size [] (Hasher_init None) 0%nat st in
  ((Hasher_digest hasher,
    if bool_decide (inline_max_bytes < len)%nat then None else Some inline_data),
   st').

(** ** [Cake] *)

Record Cake : Type := mkCake {
  _data : list byte;
  type : CakeType;
  role : CakeRole;
}.

Global Instance Cake_eq_dec : EqDecision Cake.
Proof. solve_decision. Defined.

(** [__eq__]: data, type and role are compared. *)
Definition Cake_eq (c1 c2 : Cake) : bool :=
  bool_decide (_data c1 = _data c2) && bool_decide (type c1 = type c2)
  && bool_decide (role c1 = role c2).

Definition has_data (c : Cake) : bool := bool_decide (type c = INLINE).

(** The two ways [Cake.__init__] is called: [Cake(s)], and
    [Cake(None, data=, type=, role=)] with [type] given. *)
Inductive Cake_args : Type :=
  | FromStr (s : string)
  | FromParts (data : option (list byte)) (type : CakeType) (role : option CakeRole).

Definition Cake_init (args : Cake_args) : result Cake :=
  self ←
    match args with
    | FromParts data type role =>
        match data, role with
        | Some data, Some role => Ok (mkCake data type role)
        | _, _ => Raise AssertionError
        end
    | FromStr s =>
        decoded ← BaseX.decode B62 s;
        match decoded with
        | [] => Raise IndexError
        | header :: rest =>
            type ← CakeType_find_by_code (N.shiftr (Byte.to_N header) 1);
            role ← CakeRole_find_by_code (N.land (Byte.to_N header) 1);
            Ok (mkCake rest type role)
        end
    end;
  if negb (has_data self) && negb (bool_decide (length (_data self) = 32%nat))
  then Raise AssertionError
  else Ok self.

Definition Cake_data (c : Cake) : option (list byte) :=
  if has_data c then Some (_data c) else None.

Definition Cake_digest (c : Cake) : list byte :=
  if has_data c then Hasher_digest (Hasher_init (Some (_data c))) else _data c.

Definition is_immutable (c : Cake) : bool :=
  has_data c || is_resolved (type c).

Definition assert_portal (c : Cake) : result unit :=
  if negb (is_portal (type c)) then Raise AssertionError else Ok tt.

Definition Cake_hash_bytes (c : Cake) : result (list byte) :=
  if negb (is_resolved (type c)) then Raise AssertionError else Ok (_data c).

(** [__str__] *)
Definition Cake_str (c : Cake) : string :=
  let in_bytes := pack_in_bytes (type c) (role c) (_data c) in
  BaseX.encode B62 in_bytes.

Definition from_digest_and_inline_data (digest : list byte)
    (buffer : option (list byte)) (role : CakeRole) : result Cake :=
  match buffer with
  | Some buffer =>
      if bool_decide (length buffer <= inline_max_bytes)%nat
      then Cake_init (FromParts (Some buffer) INLINE (Some role))
      else Cake_init (FromParts (Some digest) SHA256 (Some role))
  | None => Cake_init (FromParts (Some digest) SHA256 (Some role))
  end.

Definition default_chunk_size : N := 65355.

Definition from_stream (fd : stream) (role : CakeRole) : result Cake :=
  let '(digest, inline_data) :=
    fst (process_stream fd nop_on_chunk default_chunk_size tt) in
  from_digest_and_inline_data digest inline_data role.

Definition from_bytes (s : list byte) (role : CakeRole) : result Cake :=
  from_stream (BytesIO s) role.

(** [urandom32] stands for the value of [os.urandom(32)]. *)
Definition new_portal (urandom32 : list byte) (role_arg : option CakeRole)
    (type_arg : option CakeType) : result Cake :=
  let new_role := default SYNAPSE role_arg in
  let new_type := default PORTAL type_arg in
  cake ← Cake_init (FromParts (Some urandom32) new_type (Some new_role));
  _ ← assert_portal cake;
  Ok cake.

Definition transform_portal (self : Cake) (role_arg : option CakeRole)
    (type_arg : option CakeType) : result Cake :=
  _ ← assert_portal self;
  let new_type := default (type self) type_arg in
  let new_role := default (role self) role_arg in
  if bool_decide (new_type = type self) && bool_decide (new_role = role self)
  then Ok self
  else Cake_init (FromParts (Some (_data self)) new_type (Some new_role)).

(** The invariant [Cake.__init__] enforces: a Cake that does not inline
    its data carries exactly 32 bytes. *)
Definition Cake_wf (c : Cake) : Prop :=
  has_data c = false -> length (_data c) = 32%nat.

(** ** Shards *)

Definition MAX_NUM_OF_SHARDS : N := 8192.

Definition shard_name_int (num : N) : string := BaseX.encode_int B36 num.

Definition decode_shard (name : string) : result N := BaseX.decode_int B36 name.

(** [str.lower()] on the characters of a [string]. *)
Definition lower_ascii (a : ascii) : ascii :=
  let n := N_of_ascii a in
  if (65 <=? n) && (n <=? 90) then ascii_of_N (n + 32) else a.

Fixpoint lower (s : string) : string :=
  match s with
  | EmptyString => EmptyString
  | String a s' => String (lower_ascii a) (lower s')
  end.

Definition is_it_shard (shard_name : string) (max_num : Z) : result bool :=
  let shard_num : Z := (-1)%Z in
  if bool_decide (shard_name = EmptyString)
     || bool_decide (3 < String.length shard_name)%nat
  then Ok false
  else
    let shard_num :=
      try_catch (n ← decode_shard (lower shard_name); Ok (Z.of_N n)) shard_num in
    Ok (bool_decide (0 <= shard_num)%Z && bool_decide (shard_num < max_num)%Z).

(** [b1, b2 = hash_bytes[:2]] needs two bytes to unpack. *)
Definition shard_num (hash_bytes : list byte) (base : N) : result N :=
  match firstn 2 hash_bytes with
  | [b1; b2] =>
      if base =? 0 then Raise ZeroDivisionError
      else Ok ((Byte.to_N b1 * 256 + Byte.to_N b2) mod base)
  | _ => Raise ValueError
  end.

Definition Cake_shard_num (c : Cake) (base : N) : result N :=
  let l := length (_data c) in
  if bool_decide (2 <= l)%nat then shard_num (_data c) base
  else match _data c with
       | [b] => Ok (Byte.to_N b)
       | _ => Ok 0
       end.

Definition Cake_shard_name (c : Cake) (base : N) : result string :=
  n ← Cake_shard_num c base; Ok (shard_name_int n).

(** ** [ContentAddress] *)

Record ContentAddress : Type := mkContentAddress {
  hash_bytes : list byte;
  _id : string;
  shard_name : string;
}.

(** [ContentAddress.__init__] takes a [Hasher], a [Cake] or a [str]. *)
Inductive ContentAddress_args : Type :=
  | OfHasher (h : Hasher)
  | OfCake (h : Cake)
  | OfStr (h : string).

Definition ContentAddress_init (h : ContentAddress_args) : result ContentAddress :=
  '(hash_bytes, _id) ←
    match h with
    | OfHasher h =>
        let hash_bytes := Hasher_digest h in
        Ok (hash_bytes, BaseX.encode B36 hash_bytes)
    | OfCake h =>
        hash_bytes ← Cake_hash_bytes h;
        Ok (hash_bytes, BaseX.encode B36 hash_bytes)
    | OfStr h =>
        let _id := lower h in
        hash_bytes ← BaseX.decode B36 _id;
        Ok (hash_bytes, _id)
    end;
  n ← shard_num hash_bytes MAX_NUM_OF_SHARDS;
  Ok (mkContentAddress hash_bytes _id (shard_name_int n)).

Definition ContentAddress_match (self : ContentAddress) (cake : Cake) : result bool :=
  hb ← Cake_hash_bytes cake; Ok (bool_decide (hb = hash_bytes self)).

(** ** [hashlib.sha1] and [base64]

    The two library functions [SaltedSha] is built on: SHA-1 (FIPS 180-4)
    and the base-64 codec of RFC 4648 as CPython's [binascii] computes it
    (the decoder is the lenient one of [validate=False]). *)

Module sha1.

Definition rotl (n x : N) : N :=
  N.lor (hashlib.w32 (N.shiftl x n)) (N.shiftr x (32 - n)).

Definition parity (x y z : N) : N := N.lxor (N.lxor x y) z.

Definition state : Type := N * N * N * N * N.

Definition H0 : state :=
  (0x67452301, 0xefcdab89, 0x98badcfe, 0x10325476, 0xc3d2e1f0).

Definition schedule_step (w : list N) : list N :=
  rotl 1 (N.lxor (N.lxor (nth 2 w 0) (nth 7 w 0))
                 (N.lxor (nth 13 w 0) (nth 15 w 0))) :: w.

Definition schedule (block : list byte) : list N :=
  rev (Nat.iter 64 schedule_step (rev (hashlib.words 16 block))).

Definition f_k (t : nat) (b c d : N) : N * N :=
  if (t <? 20)%nat then (hashlib.ch b c d, 0x5a827999)
  else if (t <? 40)%nat then (parity b c d, 0x6ed9eba1)
  else if (t <? 60)%nat then (hashlib.maj b c d, 0x8f1bbcdc)
  else (parity b c d, 0xca62c1d6).

Definition round (s : state) (tw : nat * N) : state :=
  let '(a, b, c, d, e) := s in
  let '(f, k) := f_k (fst tw) b c d in
  let temp :=
    hashlib.add32 (hashlib.add32 (hashlib.add32 (rotl 5 a) f) (hashlib.add32 e k))
                  (snd tw) in
  (temp, a, rotl 30 b, c, d).

Definition compress (s : state) (block : list byte) : state :=
  let '(a, b, c, d, e) := s in
  let '(a', b', c', d', e') :=
    fold_left round (combine (seq 0 80) (schedule block)) s in
  (hashlib.add32 a a', hashlib.add32 b b', hashlib.add32 c c',
   hashlib.add32 d d', hashlib.add32 e e').

Fixpoint blocks (n : nat) (s : state) (msg : list byte) : state :=
  match n with
  | O => s
  | S n' => blocks n' (compress s (firstn 64 msg)) (skipn 64 msg)
  end.

Definition sha1 (msg : list byte) : list byte :=
  let padded := hashlib.pad msg in
  let '(a, b, c, d, e) := blocks (length padded / 64) H0 padded in
  hashlib.be_bytes 4 a ++ hashlib.be_bytes 4 b ++ hashlib.be_bytes 4 c ++
  hashlib.be_bytes 4 d ++ hashlib.be_bytes 4 e.

End sha1.

Module base64.

Definition pad_char : ascii := "="%char.

(** [table_a2b_base64], without the entry of the pad character. *)
Definition value (a : ascii) : option N :=
  let n := N_of_ascii a in
  if (65 <=? n) && (n <=? 90) then Some (n - 65)
  else if (97 <=? n) && (n <=? 122) then Some (n - 71)
  else if (48 <=? n) && (n <=? 57) then Some (n + 4)
  else if n =? 43 then Some 62
  else if n =? 47 then Some 63
  else None.

(** [binascii_find_valid]: the [num+1]-th character of [s] that is a
    base-64 character or the pad. *)
Fixpoint find_valid (s : list ascii) (num : nat) : option ascii :=
  match s with
  | [] => None
  | c :: s' =>
      if (N_of_ascii c <=? 127)
         && (bool_decide (is_Some (value c)) || bool_decide (c = pad_char))
      then match num with
           | O => Some c
           | S num' => find_valid s' num'
           end
      else find_valid s' num
  end.

(** The loop of [binascii.a2b_base64]; the result is [leftbits] and the
    bytes decoded. *)
Fixpoint a2b_loop (s : list ascii) (quad_pos leftchar leftbits : N)
    (out : list byte) : N * list byte :=
  match s with
  | [] => (leftbits, out)
  | this_ch :: rest =>
      let n := N_of_ascii this_ch in
      if (127 <? n) || (n =? 13) || (n =? 10) || (n =? 32)
      then a2b_loop rest quad_pos leftchar leftbits out
      else if bool_decide (this_ch = pad_char) then
        if (quad_pos <? 2)
           || ((quad_pos =? 2) && negb (bool_decide (find_valid s 1 = Some pad_char)))
        then a2b_loop rest quad_pos leftchar leftbits out
        else (0, out)
      else
        match value this_ch with
        | None => a2b_loop rest quad_pos leftchar leftbits out
        | Some v =>
            let quad_pos := N.land (quad_pos + 1) 3 in
            let leftchar := N.lor (N.shiftl leftchar 6) v in
            let leftbits := leftbits + 6 in
            if 8 <=? leftbits then
              let leftbits := leftbits - 8 in
              a2b_loop rest quad_pos
                (N.land leftchar (N.shiftl 1 leftbits - 1)) leftbits
                (out ++ [byte_of_N (N.land (N.shiftr leftchar leftbits) 255)])
            else a2b_loop rest quad_pos leftchar leftbits out
        end
  end.

Definition a2b_base64 (s : list ascii) : result (list byte) :=
  let '(leftbits, out) := a2b_loop s 0 0 0 [] in
  if leftbits =? 0 then Ok out else Raise BinasciiError.

(** [b64decode(s)] of a [str]: the string is encoded as ASCII first. *)
Definition b64decode (s : string) : result (list byte) :=
  let chars := list_ascii_of_string s in
  if forallb (fun a => N_of_ascii a <=? 127) chars
  then a2b_base64 chars
  else Raise ValueError.

Definition alphabet : list ascii :=
  list_ascii_of_string
    "ABCDEFGHIJKLMNOPQRSTUVWXYZabcdefghijklmnopqrstuvwxyz0123456789+/".

Definition char_of (d : N) : ascii := nth (N.to_nat d) alphabet pad_char.

(** [b64encode], three bytes at a time. *)
Fixpoint b2a_loop (n : nat) (data : list byte) : list ascii :=
  match n, data with
  | S n', b1 :: b2 :: b3 :: rest =>
      let x := of_digits 256 (map Byte.to_N [b1; b2; b3]) in
      char_of (N.shiftr x 18) :: char_of (N.land (N.shiftr x 12) 63)
      :: char_of (N.land (N.shiftr x 6) 63) :: char_of (N.land x 63)
      :: b2a_loop n' rest
  | _, [b1; b2] =>
      let x := of_digits 256 (map Byte.to_N [b1; b2; x00]) in
      [char_of (N.shiftr x 18); char_of (N.land (N.shiftr x 12) 63);
       char_of (N.land (N.shiftr x 6) 63); pad_char]
  | _, [b1] =>
      let x := of_digits 256 (map Byte.to_N [b1; x00; x00]) in
      [char_of (N.shiftr x 18); char_of (N.land (N.shiftr x 12) 63);
       pad_char; pad_char]
  | _, _ => []
  end.

Definition b64encode (data : list byte) : string :=
  string_of_list_ascii (b2a_loop (length data) data).

End base64.

(** ** Slices of a [str] *)

(** [s[:n]] *)
Fixpoint str_take (n : nat) (s : string) : string :=
  match n, s with
  | S n', String a s' => String a (str_take n' s')
  | _, _ => EmptyString
  end.

(** [s[n:]] *)
Fixpoint str_drop (n : nat) (s : string) : string :=
  match n, s with
  | S n', String _ s' => str_drop n' s'
  | _, _ => s
  end.

(** [utils.ensure_bytes] of a [str] whose characters are single bytes. *)
Definition bytes_of_str (s : string) : list byte :=
  map byte_of_ascii (list_ascii_of_string s).

(** ** [SaltedSha] *)

Definition _SSHA_MARK : string := "{SSHA}".

Record SaltedSha : Type := mkSaltedSha {
  digest : list byte;
  salt : list byte;
}.

(** [SaltedSha(s)] and [SaltedSha(None, _digest=, _salt=)]. *)
Inductive SaltedSha_args : Type :=
  | SshaStr (s : string)
  | SshaParts (_digest _salt : list byte).

Definition SaltedSha_init (args : SaltedSha_args) : result SaltedSha :=
  match args with
  | SshaParts _digest _salt => Ok (mkSaltedSha _digest _salt)
  | SshaStr s =>
      let len_of_mark := String.length _SSHA_MARK in
      if bool_decide (_SSHA_MARK = str_take len_of_mark s) then
        challenge_bytes ← base64.b64decode (str_drop len_of_mark s);
        Ok (mkSaltedSha (firstn 20 challenge_bytes) (skipn 20 challenge_bytes))
      else Raise AssertionError
  end.

(** [urandom4] stands for the value of [os.urandom(4)]. *)
Definition from_secret (urandom4 : list byte) (secret : string) : result SaltedSha :=
  let secret := bytes_of_str secret in
  let h := secret ++ urandom4 in
  SaltedSha_init (SshaParts (sha1.sha1 h) urandom4).

Definition check_secret (self : SaltedSha) (secret : string) : bool :=
  let secret := bytes_of_str secret in
  let h := secret ++ salt self in
  bool_decide (digest self = sha1.sha1 h).

Definition SaltedSha_str (self : SaltedSha) : string :=
  let encode := base64.b64encode (digest self ++ salt self) in
  String.append _SSHA_MARK encode.

(** ** [resolve_cake_stack] ([hashstore/bakery/lite/dal.py])

    The portal table is outside the core: [lookup cake st] stands for
    [session_factory(cake).query(Portal).filter(Portal.id == cake).one().latest]
    run on a state [st] of the storage, which it may change and in which
    it may fail. *)

Section resolve.
Context {St : Type}.
Variable lookup : Cake -> St -> result Cake * St.

Equations? resolve_cake_stack_loop (cake : Cake) (cake_stack : list Cake) (st : St)
    : result (list Cake) * St by wf (11 - length cake_stack)%nat lt :=
  resolve_cake_stack_loop cake cake_stack st with is_immutable cake := {
    | true => (Ok (cake_stack ++ [cake]), st)
    | false
        with inspect (bool_decide (cake ∈ cake_stack)
                      || bool_decide (10 < length (cake_stack ++ [cake]))%nat) := {
        | exist _ true _ => (Raise AssertionError, st)
        | exist _ false Hguard with lookup cake st := {
            | (Ok next, st') => resolve_cake_stack_loop next (cake_stack ++ [cake]) st'
            | (Raise e, st') => (Raise e, st')
          }
      }
  }.
Proof.
  apply orb_false_elim in Hguard as [_ Hlen].
  apply bool_decide_eq_false in Hlen.
  rewrite length_app in *. simpl in *. lia.
Qed.

Definition resolve_cake_stack (cake : Cake) (st : St) : result (list Cake) * St :=
  resolve_cake_stack_loop cake [] st.

(** The cakes reached from [cake] in at most [hops] lookups, up to the
    first immutable one or the first lookup that fails. *)
Fixpoint chase (hops : nat) (cake : Cake) (st : St) : list Cake :=
  cake ::
    (if is_immutable cake then []
     else match hops with
          | O => []
          | S hops' =>
              match lookup cake st with
              | (Ok next, st') => chase hops' next st'
              | (Raise _, _) => []
              end
          end).

End resolve.

Definition mutable (c : Cake) : Prop := is_immutable c = false.

(** A lookup that also counts how often it is called. *)
Definition counted {St : Type} (lookup : Cake -> St -> result Cake * St)
    (cake : Cake) (st : St * nat) : result Cake * (St * nat) :=
  let '(r, st') := lookup cake (fst st) in (r, (st', S (snd st))).

(** A portal table given as a list of pairs, for examples: the lookup
    fails (as [.one()] does) on a cake that has no row. *)
Definition table_lookup (table : list (Cake * Cake)) (cake : Cake) (st : unit)
    : result Cake * unit :=
  match list_find (fun row => row.1 = cake) table with
  | Some (_, row) => (Ok row.2, st)
  | None => (Raise NoResultFound, st)
  end.

Definition portal_a : Cake := mkCake (repeat x01 32) PORTAL SYNAPSE.
Definition portal_b : Cake := mkCake (repeat x02 32) VTREE NEURON.
Definition target_c : Cake := mkCake (repeat x03 32) SHA256 SYNAPSE.

(** ** Python [str]

    A [str] is the list of its code points, the numbers up to [0x10FFFF],
    the surrogates [0xD800]-[0xDFFF] included.  [string] is kept for the
    texts that are ASCII or are read one character per code point below
    256: the base-N strings, the text of a rack, the argument of
    [json.loads]. *)

Definition pystr : Type := list N.

(** The [str] of a text of code points below 256. *)
Definition py (s : string) : pystr := N_of_ascii <$> list_ascii_of_string s.

(** The text of a [str] whose code points are below 256. *)
Definition string_of_pystr (s : pystr) : option string :=
  if forallb (fun n => n <? 256) s
  then Some (string_of_list_ascii (ascii_of_N <$> s))
  else None.



(** [a <= b] on [str]: lexicographic by code point. *)
Fixpoint pystr_leb (a b : pystr) : bool :=
  match a, b with
  | [], _ => true
  | _ :: _, [] => false
  | x :: a', y :: b' =>
      if x <? y then true else if y <? x then false else pystr_leb a' b'
  end.

Definition pystr_le : relation pystr := fun a b => pystr_leb a b = true.

Global Instance pystr_le_dec : RelDecision pystr_le.
Proof. intros a b. unfold pystr_le. apply _. Defined.

(** ** [json]

    The part of Python's [json] module a rack uses: arrays, strings and
    [null].  [dumps] writes the ASCII-only text of the default encoder
    ([ensure_ascii], separators [", "]): a code point outside the
    printable ASCII is written as an escape, and one from [0x10000] on as
    the escapes of its two surrogates.  [loads] reads the same fragment in
    one pass over the characters, as the scanner of [_json.c] does: the
    escape of a high surrogate that is followed by the escape of a low one
    is read as the one code point they stand for.  Numbers, objects,
    booleans, [NaN] and the infinities are outside the fragment: where the
    scanner of Python would start to read one of them, [loads] gives
    [Unmodelled]. *)

Module json.

#[local] Set Warnings "-register-all".

Inductive value : Type :=
  | Null
  | Str (s : pystr)
  | Arr (l : list value).

Definition dquote : ascii := Eval cbv in ascii_of_N 34.
Definition backslash : ascii := Eval cbv in ascii_of_N 92.

Definition hex_digit (d : N) : ascii :=
  nth (N.to_nat d) (list_ascii_of_string "0123456789abcdef") "0"%char.

(** ['\\u{0:04x}'.format(n)] *)
Definition escape_u (n : N) : list ascii :=
  [backslash; "u"%char; hex_digit (n / 4096); hex_digit ((n / 256) mod 16);
   hex_digit ((n / 16) mod 16); hex_digit (n mod 16)].

Definition is_high (n : N) : bool := (55296 <=? n) && (n <=? 56319).
Definition is_low (n : N) : bool := (56320 <=? n) && (n <=? 57343).

(** [ESCAPE_ASCII], [ESCAPE_DCT] and [replace] of [json.encoder]. *)
Definition escape_char (n : N) : list ascii :=
  if n =? 34 then [backslash; dquote]
  else if n =? 92 then [backslash; backslash]
  else if n =? 10 then [backslash; "n"%char]
  else if n =? 13 then [backslash; "r"%char]
  else if n =? 9 then [backslash; "t"%char]
  else if n =? 12 then [backslash; "f"%char]
  else if n =? 8 then [backslash; "b"%char]
  else if (n <? 32) || (126 <? n) then
    if n <? 65536 then escape_u n
    else
      let n := n - 65536 in
      let s1 := N.lor 55296 (N.land (N.shiftr n 10) 1023) in
      let s2 := N.lor 56320 (N.land n 1023) in
      escape_u s1 ++ escape_u s2
  else [ascii_of_N n].

Definition dumps_str (s : pystr) : list ascii :=
  dquote :: flat_map escape_char s ++ [dquote].

(** The items of an array, separated by [", "]. *)
Definition join_items (f : value -> list ascii) : list value -> list ascii :=
  fix go (l : list value) : list ascii :=
    match l with
    | [] => []
    | [x] => f x
    | x :: xs => f x ++ ","%char :: " "%char :: go xs
    end.

Fixpoint dumps_chars (v : value) : list ascii :=
  match v with
  | Null => list_ascii_of_string "null"
  | Str s => dumps_str s
  | Arr l => "["%char :: join_items dumps_chars l ++ ["]"%char]
  end.

Definition dumps (v : value) : string := string_of_list_ascii (dumps_chars v).

(** The scanner: where it is inside a token.  In a string it holds the
    code points read so far, in reverse; [Hi acc h] is the string [acc]
    followed by the high surrogate [h] that an escape has just given and
    that the escape of a low surrogate may still complete. *)
Inductive mode : Type :=
  | Out
  | InStr (acc : list N)
  | Esc (acc : list N)
  | Uni (acc : list N) (k : nat) (n : N)
  | Hi (acc : list N) (h : N)
  | HiEsc (acc : list N) (h : N)
  | HiUni (acc : list N) (h : N) (k : nat) (n : N)
  | Lit (rest : list ascii).

(** ... and where it is between tokens: a value is wanted ([Start], at
    the top or after a comma), an array was just opened ([Open]), a value
    of an array was read ([After]), the whole value was read ([Done]). *)
Inductive pos : Type :=
  | Start
  | Open
  | After
  | Done (v : value).

(** The arrays that are open, innermost first, each with its items so far
    in reverse. *)
Definition stack : Type := list (list value).

Definition state : Type := mode * pos * stack.

Definition push (v : value) (st : stack) : pos * stack :=
  match st with
  | [] => (Done v, [])
  | frame :: st' => (After, (v :: frame) :: st')
  end.

Definition wants_value (p : pos) : bool :=
  match p with Start | Open => true | _ => false end.

Definition is_space (a : ascii) : bool :=
  let n := N_of_ascii a in (n =? 32) || (n =? 9) || (n =? 10) || (n =? 13).

Definition hex_value (a : ascii) : option N :=
  let n := N_of_ascii a in
  if (48 <=? n) && (n <=? 57) then Some (n - 48)
  else if (97 <=? n) && (n <=? 102) then Some (n - 87)
  else if (65 <=? n) && (n <=? 70) then Some (n - 55)
  else None.

(** The first character of a value outside the fragment: a number, [true],
    [false], an object, [NaN], [Infinity]. *)
Definition starts_other (a : ascii) : bool :=
  bool_decide (a ∈ list_ascii_of_string "-0123456789tf{NI").

(** The code point an escape [\c] stands for. *)
Definition unescape (a : ascii) : option N :=
  let n := N_of_ascii a in
  if n =? 34 then Some n
  else if n =? 92 then Some n
  else if n =? 47 then Some n
  else if n =? 98 then Some 8
  else if n =? 102 then Some 12
  else if n =? 110 then Some 10
  else if n =? 114 then Some 13
  else if n =? 116 then Some 9
  else None.

(** A character of a string, outside an escape. *)
Definition str_char (c : ascii) (acc : list N) (p : pos) (st : stack)
    : result state :=
  let n := N_of_ascii c in
  if n =? 34 then let '(p', st') := push (Str (rev acc)) st in Ok (Out, p', st')
  else if n =? 92 then Ok (Esc acc, p, st)
  else if n <? 32 then Raise ValueError
  else Ok (InStr (n :: acc), p, st).

(** The character after a backslash. *)
Definition esc_char (c : ascii) (acc : list N) (p : pos) (st : stack)
    : result state :=
  if N_of_ascii c =? 117 then Ok (Uni acc 4 0, p, st)
  else match unescape c with
       | Some a => Ok (InStr (a :: acc), p, st)
       | None => Raise ValueError
       end.

(** After the four digits of an escape. *)
Definition uni_end (acc : list N) (n : N) : mode :=
  if is_high n then Hi acc n else InStr (n :: acc).

(** [Py_UNICODE_JOIN_SURROGATES] *)
Definition join (h l : N) : N :=
  N.lor (N.shiftl (N.land h 1023) 10) (N.land l 1023) + 65536.

(** After the four digits of an escape that follows a high surrogate:
    a low surrogate completes it, anything else leaves it as it is. *)
Definition hi_uni_end (acc : list N) (h n : N) : mode :=
  if is_low n then InStr (join h n :: acc) else uni_end (h :: acc) n.

Definition step (c : ascii) (s : state) : result state :=
  let '(m, p, st) := s in
  match m with
  | Out =>
      let n := N_of_ascii c in
      if is_space c then Ok (Out, p, st)
      else if n =? 91 then
        if wants_value p then Ok (Out, Open, [] :: st) else Raise ValueError
      else if n =? 93 then
        match p, st with
        | Open, frame :: st' | After, frame :: st' =>
            let '(p', st'') := push (Arr (rev frame)) st' in Ok (Out, p', st'')
        | _, _ => Raise ValueError
        end
      else if n =? 44 then
        match p with
        | After => Ok (Out, Start, st)
        | _ => Raise ValueError
        end
      else if n =? 34 then
        if wants_value p then Ok (InStr [], p, st) else Raise ValueError
      else if n =? 110 then
        if wants_value p then Ok (Lit (list_ascii_of_string "ull"), p, st)
        else Raise ValueError
      else if wants_value p && starts_other c then Raise Unmodelled
      else Raise ValueError
  | Lit rest =>
      match rest with
      | [] => Raise ValueError
      | [l] =>
          if bool_decide (c = l)
          then let '(p', st') := push Null st in Ok (Out, p', st')
          else Raise ValueError
      | l :: rest' =>
          if bool_decide (c = l) then Ok (Lit rest', p, st)
          else Raise ValueError
      end
  | InStr acc => str_char c acc p st
  | Esc acc => esc_char c acc p st
  | Uni acc k n =>
      match hex_value c with
      | None => Raise ValueError
      | Some d =>
          let n := n * 16 + d in
          match k with
          | 0%nat | 1%nat => Ok (uni_end acc n, p, st)
          | S k' => Ok (Uni acc k' n, p, st)
          end
      end
  | Hi acc h =>
      if N_of_ascii c =? 92 then Ok (HiEsc acc h, p, st)
      else str_char c (h :: acc) p st
  | HiEsc acc h =>
      if N_of_ascii c =? 117 then Ok (HiUni acc h 4 0, p, st)
      else esc_char c (h :: acc) p st
  | HiUni acc h k n =>
      match hex_value c with
      | None => Raise ValueError
      | Some d =>
          let n := n * 16 + d in
          match k with
          | 0%nat | 1%nat => Ok (hi_uni_end acc h n, p, st)
          | S k' => Ok (HiUni acc h k' n, p, st)
          end
      end
  end.

Fixpoint steps (cs : list ascii) (s : state) : result state :=
  match cs with
  | [] => Ok s
  | c :: cs' => s' ← step c s; steps cs' s'
  end.

(** The text must end where the value does. *)
Definition loads (s : string) : result value :=
  s' ← steps (list_ascii_of_string s) (Out, Start, []);
  match s' with
  | (Out, Done v, _) => Ok v
  | _ => Raise ValueError
  end.


End json.

(** ** [PatchAction] and [CakeRack] *)

Inductive PatchAction : Type := update | delete.

Definition patch : Type := PatchAction * pystr * option Cake.

(** The rack is its [store] and the caches that [_clear_cached] resets.
    [_inverse], with [inverse()] and [get_name_by_cake], depends on the
    order of insertion into the dict and is left out. *)
Record CakeRack : Type := mkCakeRack {
  store : gmap pystr (option Cake);
  _cake : option Cake;
  _content : option string;
  _size : option nat;
  _in_bytes : option (list byte);
  _defined : option bool;
}.

Definition _clear_cached (self : CakeRack) : CakeRack :=
  mkCakeRack (store self) None None None None None.

(** [self.store[k]] *)
Definition CakeRack_getitem (self : CakeRack) (k : pystr) : result (option Cake) :=
  match store self !! k with
  | Some v => Ok v
  | None => Raise KeyError
  end.

Definition CakeRack_contains (self : CakeRack) (k : pystr) : bool :=
  bool_decide (is_Some (store self !! k)).

Definition CakeRack_len (self : CakeRack) : nat := size (store self).

(** [names = list(self.store.keys()); names.sort()] *)
Definition CakeRack_keys (self : CakeRack) : list pystr :=
  merge_sort pystr_le (map_to_list (store self)).*1.

Definition get_cakes (self : CakeRack) (names : option (list pystr))
    : result (list (option Cake)) :=
  let names := default (CakeRack_keys self) names in
  mapM (CakeRack_getitem self) names.

Definition to_json (self : CakeRack) : result (list pystr * list (option Cake)) :=
  let keys := CakeRack_keys self in
  cakes ← get_cakes self (Some keys);
  Ok (keys, cakes).

(** The JSON value of a cake of the rack: its string form, or [null]. *)
Definition cake_json (v : option Cake) : json.value :=
  match v with
  | Some c => json.Str (py (Cake_str c))
  | None => json.Null
  end.

(** Modelled from the spec: [Jsonable.__str__] of [hashstore.utils] is not
    among the sources.  By section 4.6, [str(rack)] is
    [json.dumps([sorted_keys, [rack[k] for k in sorted_keys]])] with the
    cakes rendered as their base-62 strings and [null] for the undefined
    entries. *)
Definition CakeRack_str (self : CakeRack) : result string :=
  '(keys, cakes) ← to_json self;
  Ok (json.dumps (json.Arr [json.Arr (json.Str <$> keys);
                            json.Arr (cake_json <$> cakes)])).

Definition content (self : CakeRack) : result (string * CakeRack) :=
  match _content self with
  | Some c => Ok (c, self)
  | None =>
      c ← CakeRack_str self;
      Ok (c, mkCakeRack (store self) (_cake self) (Some c) (_size self)
                        (_in_bytes self) (_defined self))
  end.

(** [utils.ensure_bytes] encodes the text, which is ASCII, in UTF-8. *)
Definition in_bytes (self : CakeRack) : result (list byte * CakeRack) :=
  match _in_bytes self with
  | Some b => Ok (b, self)
  | None =>
      '(c, self) ← content self;
      let b := bytes_of_str c in
      Ok (b, mkCakeRack (store self) (_cake self) (_content self) (_size self)
                        (Some b) (_defined self))
  end.

Definition CakeRack_cake (self : CakeRack) : result (Cake * CakeRack) :=
  match _cake self with
  | Some c => Ok (c, self)
  | None =>
      '(in_bytes, self) ← in_bytes self;
      c ← from_digest_and_inline_data
             (Hasher_digest (Hasher_init (Some in_bytes))) (Some in_bytes) NEURON;
      Ok (c, mkCakeRack (store self) (Some c) (_content self) (_size self)
                        (_in_bytes self) (_defined self))
  end.

Definition CakeRack_size (self : CakeRack) : result (nat * CakeRack) :=
  match _size self with
  | Some n => Ok (n, self)
  | None =>
      '(b, self) ← in_bytes self;
      let n := length b in
      Ok (n, mkCakeRack (store self) (_cake self) (_content self) (Some n)
                        (_in_bytes self) (_defined self))
  end.

Definition is_defined (self : CakeRack) : bool * CakeRack :=
  match _defined self with
  | Some d => (d, self)
  | None =>
      let d := forallb (fun kv => bool_decide (is_Some kv.2)) (map_to_list (store self)) in
      (d, mkCakeRack (store self) (_cake self) (_content self) (_size self)
                     (_in_bytes self) (Some d))
  end.

(** What [Cake.ensure_it_or_none] is given: nothing, a Cake, or a [str]. *)
Inductive cake_like : Type :=
  | NoCake
  | ACake (c : Cake)
  | CakeStr (s : pystr).

(** Modelled from the spec: [EnsureIt.ensure_it_or_none] of
    [hashstore.utils] is not among the sources.  By section 4.6 the cakes
    given to [parse] may be strings or already-parsed Cakes, and nulls are
    permitted.  A string goes to [Cake(s)]; a code point from 256 on is no
    base-62 digit, which is a [KeyError] of the codec as for any other
    character outside its alphabet. *)
Definition ensure_it_or_none (o : cake_like) : result (option Cake) :=
  match o with
  | NoCake => Ok None
  | ACake c => Ok (Some c)
  | CakeStr s =>
      match string_of_pystr s with
      | Some s => c ← Cake_init (FromStr s); Ok (Some c)
      | None => Raise KeyError
      end
  end.

Definition CakeRack_setitem (self : CakeRack) (k : pystr) (v : cake_like)
    : result CakeRack :=
  let self := _clear_cached self in
  v ← ensure_it_or_none v;
  Ok (mkCakeRack (<[k := v]> (store self)) (_cake self) (_content self)
                 (_size self) (_in_bytes self) (_defined self)).

Definition CakeRack_delitem (self : CakeRack) (k : pystr) : result CakeRack :=
  let self := _clear_cached self in
  match store self !! k with
  | None => Raise KeyError
  | Some _ =>
      Ok (mkCakeRack (base.delete k (store self)) (_cake self) (_content self)
                     (_size self) (_in_bytes self) (_defined self))
  end.

(** What [parse] is given: a [str], here a text of code points below 256,
    or a pair of lists.  The third case of the code, a stream that
    [json.load] reads and decodes, is left out. *)
Inductive parse_arg : Type :=
  | ParseStr (o : string)
  | ParsePair (names : list pystr) (cakes : list cake_like).

(** Iterating over a value that [json.loads] returned: a list gives its
    items and a [str] its characters. *)
Definition iter_value (v : json.value) : result (list json.value) :=
  match v with
  | json.Arr l => Ok l
  | json.Str s => Ok ((fun a => json.Str [a]) <$> s)
  | json.Null => Raise TypeError
  end.

(** [names, cakes = ...]: exactly two items are unpacked. *)
Definition unpack2 (v : json.value) : result (json.value * json.value) :=
  l ← iter_value v;
  match l with
  | [names; cakes] => Ok (names, cakes)
  | _ => Raise ValueError
  end.

(** A name becomes a key of the dict; the keys of a rack are strings (a
    list is unhashable, the key [None] is outside the model). *)
Definition name_of_value (v : json.value) : result pystr :=
  match v with
  | json.Str s => Ok s
  | json.Arr _ => Raise TypeError
  | json.Null => Raise Unmodelled
  end.

(** A cake that is a list would go to [Cake(list)], which is outside the
    model. *)
Definition cake_like_of_value (v : json.value) : result cake_like :=
  match v with
  | json.Null => Ok NoCake
  | json.Str s => Ok (CakeStr s)
  | json.Arr _ => Raise Unmodelled
  end.

(** [zip(names, map(Cake.ensure_it_or_none, cakes))], item by item: a
    cake beyond the last name is never looked at. *)
Fixpoint zip_ensure {A B : Type} (key : A -> result pystr)
    (ensure : B -> result (option Cake)) (names : list A) (cakes : list B)
    : result (list (pystr * option Cake)) :=
  match names, cakes with
  | n :: names', c :: cakes' =>
      v ← ensure c;
      k ← key n;
      rest ← zip_ensure key ensure names' cakes';
      Ok ((k, v) :: rest)
  | _, _ => Ok []
  end.

(** [dict.update] with the pairs in order. *)
Definition store_update (st : gmap pystr (option Cake))
    (items : list (pystr * option Cake)) : gmap pystr (option Cake) :=
  fold_left (fun m kv => <[kv.1 := kv.2]> m) items st.

Definition parse_loaded (self : CakeRack) (v : json.value) : result CakeRack :=
  '(names, cakes) ← unpack2 v;
  names ← iter_value names;
  cakes ← iter_value cakes;
  items ← zip_ensure name_of_value
             (fun c => cl ← cake_like_of_value c; ensure_it_or_none cl) names cakes;
  Ok (mkCakeRack (store_update (store self) items) (_cake self) (_content self)
                 (_size self) (_in_bytes self) (_defined self)).

Definition parse (self : CakeRack) (o : parse_arg) : result CakeRack :=
  let self := _clear_cached self in
  match o with
  | ParseStr o => v ← json.loads o; parse_loaded self v
  | ParsePair names cakes =>
      items ← zip_ensure Ok ensure_it_or_none names cakes;
      Ok (mkCakeRack (store_update (store self) items) (_cake self) (_content self)
                     (_size self) (_in_bytes self) (_defined self))
  end.

(** [CakeRack(o)] *)
Definition CakeRack_init (o : option parse_arg) : result CakeRack :=
  let self := _clear_cached (mkCakeRack ∅ None None None None None) in
  match o with
  | Some o => parse self o
  | None => Ok self
  end.

Definition is_neuron (self : CakeRack) (k : pystr) : result bool :=
  v ← CakeRack_getitem self k;
  Ok (match v with
      | None => true
      | Some v => bool_decide (role v = NEURON)
      end).

(** The patches [merge] yields for the name [k]. *)
Definition merge_at (self previous : CakeRack) (k : pystr) : result (list patch) :=
  if negb (CakeRack_contains self k) && CakeRack_contains previous k
  then Ok [(delete, k, None)]
  else
    v ← CakeRack_getitem self k;
    neuron ← is_neuron self k;
    if CakeRack_contains self k && negb (CakeRack_contains previous k)
    then Ok [(update, k, v)]
    else
      prev_v ← CakeRack_getitem previous k;
      prev_neuron ← is_neuron previous k;
      if negb (bool_decide (v = prev_v)) then
        if bool_decide (neuron = true) && bool_decide (prev_neuron = true)
        then Ok []
        else if bool_decide (prev_neuron = neuron)
        then Ok [(update, k, v)]
        else Ok [(delete, k, None); (update, k, v)]
      else Ok [].

(** [sorted(list(set(self.keys() + previous.keys())))] *)
Definition merge_names (self previous : CakeRack) : list pystr :=
  merge_sort pystr_le
    (elements (list_to_set (CakeRack_keys self ++ CakeRack_keys previous) : gset pystr)).

(** The generator [merge], as the list of what it yields. *)
Definition merge (self previous : CakeRack) : result (list patch) :=
  patches ← mapM (merge_at self previous) (merge_names self previous);
  Ok (concat patches).

(** The table of section 4.6, for one name: what is in the new rack and in
    the previous one decides the patches. *)
Definition neuron_like (v : option Cake) : bool :=
  match v with
  | None => true
  | Some c => bool_decide (role c = NEURON)
  end.

Definition merge_table (new prev : gmap pystr (option Cake)) (k : pystr)
    : list patch :=
  match new !! k, prev !! k with
  | None, Some _ => [(delete, k, None)]
  | Some v, None => [(update, k, v)]
  | Some v, Some pv =>
      if bool_decide (v = pv) then []
      else if neuron_like v && neuron_like pv then []
      else if bool_decide (neuron_like v = neuron_like pv) then [(update, k, v)]
      else [(delete, k, None); (update, k, v)]
  | None, None => []
  end.

(** The caches of a rack are empty or hold what would be computed. *)
Definition cache_ok {A : Type} (cache : option A) (fresh : result A) : Prop :=
  match cache with
  | Some a => fresh = Ok a
  | None => True
  end.

Definition CakeRack_valid (self : CakeRack) : Prop :=
  let fresh := _clear_cached self in
  cache_ok (_content self) (CakeRack_str fresh)
  /\ cache_ok (_in_bytes self) (fst <$> in_bytes fresh)
  /\ cache_ok (_cake self) (fst <$> CakeRack_cake fresh)
  /\ (forall k c, store self !! k = Some (Some c) -> Cake_wf c).

(** [[rack[k] for k in rack.keys()]] *)
Definition rack_cakes (self : CakeRack) : list (option Cake) :=
  (fun k => default None (store self !! k)) <$> CakeRack_keys self.

(** The rack of the doctest of [CakeRack]. *)
Definition short_k : Cake :=
  mkCake (bytes_of_str "The quick brown fox jumps over") INLINE SYNAPSE.


(** JSON text is written with apostrophes for the double quotes. *)
Definition quoted (s : string) : string :=
  string_of_list_ascii
    ((fun a => if bool_decide (a = "'"%char) then json.dquote else a)
       <$> list_ascii_of_string s).

Definition longer_content : list byte :=
  bytes_of_str
    "Lorem ipsum dolor sit amet, consectetur adipiscing elit, sed do eiusmod tempor incididunt ut labore et dolore magna aliqua.".

Definition longer_k : Cake := mkCake (hashlib.sha256 longer_content) SHA256 SYNAPSE.

Definition o2v2 : Cake :=
  mkCake (hashlib.sha256 (longer_content ++ bytes_of_str " v2")) SHA256 SYNAPSE.

(** [CakeRack().cake()] *)
Definition o3 : Cake := mkCake (bytes_of_str "[[], []]") INLINE NEURON.

Definition rack_of (items : list (pystr * option Cake)) : CakeRack :=
  mkCakeRack (list_to_map items) None None None None None.

(** The cakes handed to [parse] as objects are constructed Cakes. *)
Definition parse_arg_wf (o : parse_arg) : Prop :=
  match o with
  | ParsePair _ cakes => Forall (fun cl => forall c, cl = ACake c -> Cake_wf c) cakes
  | _ => True
  end.



(** * Further parts of [hashstore/bakery/__init__.py] *)

(** ** [portal_from_name] *)

(** The names of the members of [CakeType]. *)
Definition CakeType_name (t : CakeType) : string :=
  match t with
  | INLINE => "INLINE" | SHA256 => "SHA256" | PORTAL => "PORTAL"
  | VTREE => "VTREE" | DMOUNT => "DMOUNT" | EVENT => "EVENT"
  | DAG_STATE => "DAG_STATE" | JSON_WRAP => "JSON_WRAP"
  end.

Definition CakeType_members : list CakeType :=
  [INLINE; SHA256; PORTAL; VTREE; DMOUNT; EVENT; DAG_STATE; JSON_WRAP].

(** [CakeType[n]]: the member of that name, a [KeyError] when there is
    none. *)
Definition CakeType_getitem (n : string) : result CakeType :=
  match list_find (fun t => CakeType_name t = n) CakeType_members with
  | Some (_, t) => Ok t
  | None => Raise KeyError
  end.

Definition portal_from_name (n : option string) : result CakeType :=
  match n with
  | None => Ok PORTAL
  | Some n =>
      if bool_decide (n = EmptyString) then Ok PORTAL
      else
        ct ← CakeType_getitem n;
        if is_portal ct then Ok ct else Raise ValueError
  end.

(** ** [CakePath]

    Paths that are built with [CakePath(None, _root=, _path=)]; parsing a
    path from a string goes through [utils.path_split_all], which is not
    among the sources. *)

Record CakePath : Type := mkCakePath {
  root : option Cake;
  path : list string;
}.

Definition relative (self : CakePath) : bool :=
  bool_decide (root self = None).

Definition child (self : CakePath) (name : string) : CakePath :=
  let path := path self ++ [name] in
  mkCakePath (root self) path.

(** [self.path[:-1]] *)
Definition parent (self : CakePath) : option CakePath :=
  if relative self || bool_decide (length (path self) = 0%nat) then None
  else Some (mkCakePath (root self) (removelast (path self))).

Definition next_in_relative_path (self : CakePath)
    : result (option string * option CakePath) :=
  if negb (relative self) then Raise AssertionError
  else
    match path self with
    | [] => Ok (None, None)
    | [next] => Ok (Some next, None)
    | next :: rest => Ok (Some next, Some (mkCakePath None rest))
    end.

Definition is_root (self : CakePath) : bool :=
  negb (relative self) && bool_decide (length (path self) = 0%nat).

Definition make_absolute (self current_cake_path : CakePath) : CakePath :=
  if relative self then
    let path := path current_cake_path ++ path self in
    mkCakePath (root current_cake_path) path
  else self.

(** ['/'.join(self.path)] *)
Definition path_join (self : CakePath) : string :=
  String.concat "/" (path self).

Definition CakePath_str (self : CakePath) : string :=
  match root self with
  | None => path_join self
  | Some r => "/" +:+ Cake_str r +:+ "/" +:+ path_join self
  end.

(** The last segment, unless it is empty. *)
Definition filename (self : CakePath) : option string :=
  match last (path self) with
  | Some name => if bool_decide (name = EmptyString) then None else Some name
  | None => None
  end.

(** [ensure_cakepath] of a Cake: the path of the Cake itself. *)
Definition cakepath_of_cake (s : Cake) : CakePath := mkCakePath (Some s) [].

(** ** [check_bookmark_name] *)

Definition RESERVED_NAMES : list string := ["_"; "~"; "-"]%string.

Definition has_slash (name : string) : bool :=
  bool_decide ("/"%char ∈ list_ascii_of_string name).

Definition check_bookmark_name (name : string) : result unit :=
  if has_slash name then Raise ValueError
  else if bool_decide (name ∈ RESERVED_NAMES) then Raise ValueError
  else Ok tt.

(** ** Sequences of operations on a [CakeRack] *)

(** The methods of a rack that change it or fill its caches; [parse] is
    given a pair of lists. *)
Inductive rack_op : Type :=
  | OpSetitem (k : pystr) (v : cake_like)
  | OpDelitem (k : pystr)
  | OpParse (names : list pystr) (cakes : list cake_like)
  | OpCake
  | OpContent
  | OpInBytes
  | OpSize
  | OpIsDefined.

(** The rack after the call. *)
Definition run_op (self : CakeRack) (op : rack_op) : result CakeRack :=
  match op with
  | OpSetitem k v => CakeRack_setitem self k v
  | OpDelitem k => CakeRack_delitem self k
  | OpParse names cakes => parse self (ParsePair names cakes)
  | OpCake => snd <$> CakeRack_cake self
  | OpContent => snd <$> content self
  | OpInBytes => snd <$> in_bytes self
  | OpSize => snd <$> CakeRack_size self
  | OpIsDefined => Ok (snd (is_defined self))
  end.

(** The calls one after the other, up to the first that raises. *)
Fixpoint run_ops (self : CakeRack) (ops : list rack_op) : result CakeRack :=
  match ops with
  | [] => Ok self
  | op :: ops' => self' ← run_op self op; run_ops self' ops'
  end.

(** What the store of a rack says: the text of the names in order with
    their cakes, and whether no cake is missing. *)
Definition text_of_store (st : gmap pystr (option Cake)) : string :=
  let keys := merge_sort pystr_le (map_to_list st).*1 in
  json.dumps
    (json.Arr [json.Arr (json.Str <$> keys);
               json.Arr ((fun k => cake_json (default None (st !! k))) <$> keys)]).

Definition defined_of_store (st : gmap pystr (option Cake)) : bool :=
  forallb (fun kv => bool_decide (is_Some kv.2)) (map_to_list st).

(** Every cache is empty or holds what the store says. *)
Definition caches_fresh (self : CakeRack) : Prop :=
  let text := text_of_store (store self) in
  cache_ok (_content self) (Ok text)
  /\ cache_ok (_in_bytes self) (Ok (bytes_of_str text))
  /\ cache_ok (_cake self) (from_bytes (bytes_of_str text) NEURON)
  /\ cache_ok (_size self) (Ok (length (bytes_of_str text)))
  /\ cache_ok (_defined self) (Ok (defined_of_store (store self))).

(** A value of a rack, as it is handed to [Cake.ensure_it_or_none]. *)
Definition cake_like_of (v : option Cake) : cake_like :=
  match v with
  | Some c => ACake c
  | None => NoCake
  end.
(** * Properties *)

(** ** Exceptions *)

Lemma bind_ok_inv {A B : Type} (r : result A) (k : A -> result B) (b : B) :
  r ≫= k = Ok b -> exists a, r = Ok a /\ k a = Ok b.
Proof. destruct r as [a|e]; simpl; [eauto|discriminate]. Qed.

Lemma bind_ok {A B : Type} (r : result A) (k : A -> result B) (a : A) :
  r = Ok a -> r ≫= k = k a.
Proof. now intros ->. Qed.

(** ** Bytes *)

Lemma byte_to_N_lt (b : byte) : Byte.to_N b < 256.
Proof. pose proof (Byte.to_N_bounded b). lia. Qed.

Lemma byte_of_to_N (b : byte) : byte_of_N (Byte.to_N b) = b.
Proof.
  unfold byte_of_N.
  rewrite N.mod_small by apply byte_to_N_lt.
  now rewrite Byte.of_to_N.
Qed.

Lemma byte_to_of_N (n : N) : n < 256 -> Byte.to_N (byte_of_N n) = n.
Proof.
  intros Hn. unfold byte_of_N. rewrite N.mod_small by exact Hn.
  destruct (Byte.of_N n) as [b|] eqn:E.
  - now apply Byte.to_of_N.
  - apply Byte.of_N_None_iff in E. lia.
Qed.

Lemma byte_to_N_zero (b : byte) : Byte.to_N b = 0 -> b = x00.
Proof.
  intros H. rewrite <- (byte_of_to_N b), H. reflexivity.
Qed.

(** ** Positional numerals *)

Section digits.
Variable base : N.
Hypothesis base_ge_2 : 2 <= base.

Lemma to_digits_loop_out fuel n out :
  to_digits_loop fuel base n out = to_digits_loop fuel base n [] ++ out.
Proof.
  revert n out. induction fuel as [|fuel IH]; intros n out; simpl; [done|].
  destruct (n =? 0); [done|].
  rewrite (IH _ (_ :: out)), (IH _ [_]).
  now rewrite <- app_assoc.
Qed.

Lemma div_base_lt_pow2 n k : n < 2 ^ N.succ k -> n / base < 2 ^ k.
Proof.
  intros Hn. rewrite N.pow_succ_r' in Hn.
  apply N.Div0.div_lt_upper_bound.
  nia.
Qed.

Lemma to_digits_loop_fuel f1 f2 n out :
  n < 2 ^ N.of_nat f1 -> n < 2 ^ N.of_nat f2 ->
  to_digits_loop f1 base n out = to_digits_loop f2 base n out.
Proof.
  revert f2 n out. induction f1 as [|f1 IH]; intros f2 n out H1 H2.
  - simpl in H1. assert (n = 0) as -> by lia.
    destruct f2; simpl; [done|]. done.
  - destruct f2 as [|f2].
    + simpl in H2. assert (n = 0) as -> by lia. done.
    + simpl. destruct (n =? 0) eqn:E; [done|].
      rewrite Nat2N.inj_succ in H1, H2.
      apply IH; now apply div_base_lt_pow2.
Qed.

Lemma lt_pow2_size n : n < 2 ^ N.of_nat (N.to_nat (N.size n)).
Proof. rewrite N2Nat.id. apply N.size_gt. Qed.

(** The defining equation of the [while] loop. *)
Lemma to_digits_eq n :
  to_digits base n =
    if n =? 0 then [] else to_digits base (n / base) ++ [n mod base].
Proof.
  unfold to_digits.
  destruct (n =? 0) eqn:E.
  - apply N.eqb_eq in E. now subst.
  - apply N.eqb_neq in E.
    destruct (N.to_nat (N.size n)) as [|f] eqn:Ef.
    + pose proof (lt_pow2_size n) as H. rewrite Ef in H. simpl in H. lia.
    + simpl. apply N.eqb_neq in E. rewrite E.
      rewrite to_digits_loop_out. f_equal.
      pose proof (lt_pow2_size n) as H. rewrite Ef, Nat2N.inj_succ in H.
      apply to_digits_loop_fuel.
      * now apply div_base_lt_pow2.
      * apply lt_pow2_size.
Qed.

Lemma to_digits_0 : to_digits base 0 = [].
Proof. reflexivity. Qed.

Lemma of_digits_app ds d :
  of_digits base (ds ++ [d]) = of_digits base ds * base + d.
Proof. unfold of_digits. now rewrite fold_left_app. Qed.

Lemma of_digits_cons_zero ds : of_digits base (0 :: ds) = of_digits base ds.
Proof. reflexivity. Qed.

Lemma of_to_digits n : of_digits base (to_digits base n) = n.
Proof.
  induction n as [n IH] using (well_founded_induction N.lt_wf_0).
  rewrite to_digits_eq. destruct (n =? 0) eqn:E.
  - apply N.eqb_eq in E. now subst.
  - apply N.eqb_neq in E.
    rewrite of_digits_app, IH.
    + pose proof (N.div_mod n base). lia.
    + apply N.div_lt; lia.
Qed.

Lemma to_digits_bounded n : Forall (fun d => d < base) (to_digits base n).
Proof.
  induction n as [n IH] using (well_founded_induction N.lt_wf_0).
  rewrite to_digits_eq. destruct (n =? 0) eqn:E; [constructor|].
  apply N.eqb_neq in E. apply Forall_app. split.
  - apply IH, N.div_lt; lia.
  - repeat constructor. apply N.mod_lt. lia.
Qed.

(** The numeral of a positive number does not start with the digit 0. *)
Lemma to_digits_head n : head (to_digits base n) <> Some 0.
Proof.
  induction n as [n IH] using (well_founded_induction N.lt_wf_0).
  rewrite to_digits_eq. destruct (n =? 0) eqn:E; [done|].
  apply N.eqb_neq in E.
  destruct (to_digits base (n / base)) as [|d ds] eqn:Ed.
  - simpl. intros [= Hm].
    assert (n / base = 0) as Hq.
    { rewrite <- (of_to_digits (n / base)), Ed. reflexivity. }
    pose proof (N.div_mod n base). lia.
  - simpl. intros [= ->]. apply (IH (n / base)).
    + apply N.div_lt; lia.
    + now rewrite Ed.
Qed.

Lemma of_digits_lt_base_implies ds d :
  d < base -> (of_digits base ds * base + d) / base = of_digits base ds
              /\ (of_digits base ds * base + d) mod base = d.
Proof.
  intros Hd. split.
  - rewrite N.div_add_l by lia. rewrite N.div_small by lia. lia.
  - rewrite N.add_comm, N.Div0.mod_add. now apply N.mod_small.
Qed.

Lemma of_digits_zero_head ds :
  Forall (fun d => d < base) ds -> of_digits base ds = 0 ->
  head ds <> Some 0 -> ds = [].
Proof.
  induction ds as [|d ds IH] using rev_ind; [done|].
  intros Hall Hz Hh. exfalso.
  apply Forall_app in Hall as [Hall Hd].
  rewrite of_digits_app in Hz.
  assert (of_digits base ds = 0) as Hz' by nia.
  assert (d = 0) as -> by lia.
  destruct ds as [|d' ds'].
  - now apply Hh.
  - specialize (IH Hall Hz' Hh). discriminate.
Qed.

Lemma to_of_digits ds :
  Forall (fun d => d < base) ds -> head ds <> Some 0 ->
  to_digits base (of_digits base ds) = ds.
Proof.
  induction ds as [|d ds IH] using rev_ind; intros Hall Hh; [done|].
  apply Forall_app in Hall as [Hall Hd].
  apply Forall_inv in Hd.
  rewrite to_digits_eq, of_digits_app.
  destruct (of_digits_lt_base_implies ds d Hd) as [Hq Hr].
  destruct (_ =? 0) eqn:E.
  - apply N.eqb_eq in E.
    assert (of_digits base ds = 0) as Hz by nia.
    assert (d = 0) as -> by lia.
    destruct ds as [|d' ds'].
    + now contradiction Hh.
    + assert (d' :: ds' = []); [|discriminate].
      apply of_digits_zero_head; try done.
  - rewrite Hq, Hr. f_equal. apply IH; [done|].
    destruct ds; [done|exact Hh].
Qed.
End digits.

Section digits_size.
Variable base : N.
Hypothesis base_ge_2 : 2 <= base.

Lemma of_digits_cons d ds :
  of_digits base (d :: ds) = d * base ^ N.of_nat (length ds) + of_digits base ds.
Proof.
  induction ds as [|x ds IH] using rev_ind.
  - simpl. unfold of_digits. simpl. lia.
  - rewrite app_comm_cons, !of_digits_app, IH, length_app. simpl.
    rewrite Nat.add_1_r, Nat2N.inj_succ, N.pow_succ_r'. lia.
Qed.

Lemma of_digits_lt ds :
  Forall (fun d => d < base) ds -> of_digits base ds < base ^ N.of_nat (length ds).
Proof.
  induction ds as [|x ds IH] using rev_ind; intros Hall.
  - simpl. unfold of_digits. simpl. lia.
  - apply Forall_app in Hall as [Hall Hx]. apply Forall_inv in Hx.
    rewrite of_digits_app, length_app. simpl.
    rewrite Nat.add_1_r, Nat2N.inj_succ, N.pow_succ_r'.
    specialize (IH Hall). nia.
Qed.

(** A number between [base^k] and [base^(k+1)] has exactly [k+1] digits. *)
Lemma to_digits_length k n :
  base ^ N.of_nat k <= n < base ^ N.of_nat (S k) ->
  length (to_digits base n) = S k.
Proof.
  revert n. induction k as [|k IH]; intros n [Hlo Hhi].
  - simpl in Hlo. change (N.of_nat 1) with 1 in Hhi. rewrite N.pow_1_r in Hhi.
    rewrite to_digits_eq by done.
    destruct (n =? 0) eqn:E; [apply N.eqb_eq in E; lia|].
    rewrite N.div_small by done. reflexivity.
  - rewrite to_digits_eq by done.
    destruct (n =? 0) eqn:E.
    { apply N.eqb_eq in E. subst.
      assert (0 < base ^ N.of_nat (S k)) by (apply N.neq_0_lt_0, N.pow_nonzero; lia).
      lia. }
    rewrite length_app. simpl. rewrite Nat.add_1_r. f_equal.
    apply IH. rewrite !Nat2N.inj_succ, !N.pow_succ_r' in *.
    split.
    + apply N.div_le_lower_bound; lia.
    + apply N.Div0.div_lt_upper_bound; lia.
Qed.
End digits_size.

(** ** Python [str] helpers *)

Lemma length_string_of_list_ascii (l : list ascii) :
  String.length (string_of_list_ascii l) = length l.
Proof. induction l as [|a l IH]; simpl; [done|now rewrite IH]. Qed.

Lemma lstrip_repeat {A : Type} `{EqDecision A} (z : A) (k : nat) (l : list A) :
  head l <> Some z -> lstrip z (repeat z k ++ l) = (k, l).
Proof.
  intros Hh. induction k as [|k IH]; simpl.
  - destruct l as [|x xs]; [done|]. simpl.
    destruct (decide (x = z)) as [->|]; [now contradiction Hh|done].
  - destruct (decide (z = z)); [|done]. now rewrite IH.
Qed.

Lemma lstrip_spec {A : Type} `{EqDecision A} (z : A) (l : list A) :
  l = repeat z (lstrip z l).1 ++ (lstrip z l).2 /\ head (lstrip z l).2 <> Some z.
Proof.
  induction l as [|x xs [IH1 IH2]]; simpl; [done|].
  destruct (decide (x = z)) as [->|Hne].
  - destruct (lstrip z xs) as [k r]. simpl in *. split; [now f_equal|done].
  - simpl. split; [done|]. now intros [= ?].
Qed.


(** ** The base-N codec round trip *)

Lemma mapM_ok_map {A B : Type} (f : A -> result B) (g : B -> A) (l : list B) :
  Forall (fun y => f (g y) = Ok y) l -> mapM f (map g l) = Ok l.
Proof.
  induction 1 as [|y l Hy _ IH]; simpl; [done|].
  rewrite Hy. simpl. rewrite IH. reflexivity.
Qed.

Lemma position_nth (l : list ascii) (i : nat) (d : ascii) :
  NoDup l -> (i < length l)%nat ->
  BaseX.position (nth i l d) l = Some (N.of_nat i).
Proof.
  intros Hnd. revert i. induction Hnd as [|x l Hx Hnd IH]; intros i Hi; simpl in *.
  - lia.
  - destruct i as [|i].
    + now rewrite decide_True.
    + rewrite decide_False.
      * rewrite IH by lia. simpl. f_equal. lia.
      * intros ->. apply Hx. apply list_elem_of_In, nth_In. lia.
Qed.

Section basex.
Variable c : BaseX.codec.
Hypothesis c_good : BaseX.good c.

Lemma basex_size_ge_2 : 2 <= BaseX.size c.
Proof. apply c_good. Qed.

Lemma basex_index_char_of (d : N) :
  d < BaseX.size c -> BaseX.index c (BaseX.char_of c d) = Ok d.
Proof.
  intros Hd. unfold BaseX.index, BaseX.char_of, BaseX.size in *.
  rewrite position_nth; [|apply c_good|lia].
  now rewrite N2Nat.id.
Qed.

Lemma basex_char_of_inj (d1 d2 : N) :
  d1 < BaseX.size c -> d2 < BaseX.size c ->
  BaseX.char_of c d1 = BaseX.char_of c d2 -> d1 = d2.
Proof.
  intros H1 H2 Heq.
  apply basex_index_char_of in H1, H2. rewrite Heq in H1. congruence.
Qed.

Lemma basex_decode_chars_digits (n : N) :
  BaseX.decode_chars c (map (BaseX.char_of c) (to_digits (BaseX.size c) n)) = Ok n.
Proof.
  unfold BaseX.decode_chars.
  rewrite mapM_ok_map.
  - simpl. f_equal. apply of_to_digits, basex_size_ge_2.
  - eapply Forall_impl; [apply to_digits_bounded, basex_size_ge_2|].
    intros d Hd. now apply basex_index_char_of.
Qed.

Lemma basex_digits_head (n : N) :
  head (map (BaseX.char_of c) (to_digits (BaseX.size c) n)) <> Some (BaseX.zero_char c).
Proof.
  pose proof (to_digits_head _ basex_size_ge_2 n) as Hh.
  pose proof (to_digits_bounded _ basex_size_ge_2 n) as Hb.
  destruct (to_digits (BaseX.size c) n) as [|d ds]; [done|].
  simpl in *. intros [= Heq]. apply Hh. f_equal.
  apply Forall_inv in Hb.
  apply basex_char_of_inj; [done| |done].
  pose proof basex_size_ge_2. lia.
Qed.

Lemma bytes_digits_roundtrip (rest : list byte) :
  head rest <> Some x00 ->
  map byte_of_N (to_digits 256 (of_digits 256 (map Byte.to_N rest))) = rest.
Proof.
  intros Hh. rewrite to_of_digits.
  - rewrite map_map. rewrite <- (map_id rest) at 2.
    apply map_ext. intros b. apply byte_of_to_N.
  - lia.
  - apply Forall_map, Forall_forall. intros b _. apply byte_to_N_lt.
  - destruct rest as [|b bs]; [done|]. simpl. intros [= Hb].
    apply Hh. simpl. f_equal. now apply byte_to_N_zero.
Qed.

(** [decode] undoes [encode] on every byte string (section 4.1). *)
Lemma basex_decode_encode (v : list byte) :
  BaseX.decode c (BaseX.encode c v) = Ok v.
Proof.
  unfold BaseX.encode, BaseX.decode.
  destruct (lstrip_spec x00 v) as [Hv Hh].
  destruct (lstrip x00 v) as [zeros rest]. simpl in Hv, Hh.
  rewrite list_ascii_of_string_of_list_ascii.
  rewrite lstrip_repeat by apply basex_digits_head.
  rewrite basex_decode_chars_digits. simpl.
  rewrite bytes_digits_roundtrip by done.
  now rewrite <- Hv.
Qed.

(** The length of an encoding that has no leading zero byte. *)
Lemma basex_encode_length (v : list byte) (k : nat) :
  head v <> Some x00 ->
  BaseX.size c ^ N.of_nat k <= of_digits 256 (map Byte.to_N v)
    < BaseX.size c ^ N.of_nat (S k) ->
  String.length (BaseX.encode c v) = S k.
Proof.
  intros Hh Hrange. unfold BaseX.encode.
  destruct v as [|b bs].
  - exfalso. destruct Hrange as [Hlo _]. unfold of_digits in Hlo. simpl in Hlo.
    assert (0 < BaseX.size c ^ N.of_nat k); [|lia].
    apply N.neq_0_lt_0, N.pow_nonzero. pose proof basex_size_ge_2. lia.
  - simpl. destruct (decide (b = x00)) as [->|_]; [now contradiction Hh|].
    rewrite length_string_of_list_ascii. simpl. rewrite length_map.
    apply to_digits_length; [apply basex_size_ge_2|done].
Qed.
End basex.

Lemma B62_good : BaseX.good B62.
Proof.
  split.
  - refine (bool_decide_unpack (NoDup _) _). vm_compute. exact I.
  - vm_compute. discriminate.
Qed.

Lemma B36_good : BaseX.good B36.
Proof.
  split.
  - refine (bool_decide_unpack (NoDup _) _). vm_compute. exact I.
  - vm_compute. discriminate.
Qed.

(** ** [process_stream] *)

(** The loop reads the whole stream: the hasher is fed every byte, the
    length is the number of bytes, and the inline buffer holds them all
    as long as they are at most [inline_max_bytes]. *)
Lemma read_concat (n : nat) (fd fd' : stream) (chunk : list byte) :
  read n fd = (chunk, fd') -> concat fd = chunk ++ concat fd'.
Proof.
  induction fd as [|piece fd IH]; [now intros [= <- <-]|].
  destruct piece as [|x piece]; [exact IH|].
  intros [= <- <-]. cbn [concat]. now rewrite app_assoc, firstn_skipn.
Qed.

(** A read that returns nothing is at the end of the stream, unless
    nothing was asked for. *)
Lemma read_nil (n : nat) (fd fd' : stream) :
  (0 < n)%nat -> read n fd = ([], fd') -> concat fd = [].
Proof.
  intros Hn. induction fd as [|piece fd IH]; [done|].
  destruct piece as [|x piece]; [exact IH|].
  destruct n; [lia|discriminate].
Qed.

Lemma process_stream_loop_spec {S : Type} (fd : stream)
    (on_chunk : list byte -> S -> S) (chunk_size : N)
    (inline_data : list byte) (hasher : Hasher) (len : nat) (st : S) :
  0 < chunk_size ->
  exists inline_data' st',
    process_stream_loop fd on_chunk chunk_size inline_data hasher len st
      = (inline_data', hasher ++ concat fd, (len + length (concat fd))%nat, st')
    /\ ((len + length (concat fd) <= inline_max_bytes)%nat ->
          inline_data' = inline_data ++ concat fd).
Proof.
  intros Hcs.
  funelim (process_stream_loop fd on_chunk chunk_size inline_data hasher len st).
  - rewrite (read_nil (N.to_nat chunk_size) _ _ ltac:(lia) e).
    exists inline_data, st. rewrite !app_nil_r, Nat.add_0_r. done.
  - destruct (H Hcs) as (inl' & st' & Heq & Hinl). clear H.
    exists inl', st'. rewrite Heq. clear Heq.
    pose proof (read_concat _ _ _ _ Hchunk) as Hfd.
    unfold Hasher_update. rewrite <- app_assoc, <- Hfd.
    split.
    + do 2 f_equal. rewrite Hfd, length_app. lia.
    + intros Hle. rewrite Hinl.
      * rewrite bool_decide_true.
        -- rewrite <- app_assoc. now rewrite <- Hfd.
        -- rewrite Hfd, length_app in Hle. lia.
      * rewrite Hfd, length_app in Hle. lia.
Qed.

Lemma process_stream_spec {S : Type} (fd : stream)
    (on_chunk : list byte -> S -> S) (chunk_size : N) (st : S) :
  0 < chunk_size ->
  fst (process_stream fd on_chunk chunk_size st)
    = (hashlib.sha256 (concat fd),
       if bool_decide (inline_max_bytes < length (concat fd))%nat
       then None else Some (concat fd)).
Proof.
  intros Hcs. unfold process_stream.
  destruct (process_stream_loop_spec fd on_chunk chunk_size [] (Hasher_init None) 0%nat st Hcs)
    as (inl & st' & -> & Hinl).
  simpl. unfold Hasher_digest. f_equal.
  destruct (bool_decide (inline_max_bytes < length (concat fd))%nat) eqn:E; [done|].
  apply bool_decide_eq_false in E. rewrite Hinl by (simpl; lia). done.
Qed.

(** ** [hashlib.sha256] returns 32 bytes *)

Lemma length_be_bytes (n : nat) (x : N) : length (hashlib.be_bytes n x) = n.
Proof. induction n as [|n IH]; simpl; [done|now rewrite IH]. Qed.

Lemma sha256_length (msg : list byte) : length (hashlib.sha256 msg) = 32%nat.
Proof.
  unfold hashlib.sha256.
  destruct (hashlib.blocks _ _ _) as [[[[[[[a b] c] d] e] f] g] h].
  rewrite !length_app, !length_be_bytes. reflexivity.
Qed.

(** ** [Cake]: construction *)

Lemma Cake_init_wf (args : Cake_args) (c : Cake) :
  Cake_init args = Ok c -> Cake_wf c.
Proof.
  unfold Cake_init, Cake_wf. intros H Hd.
  apply bind_ok_inv in H as (self & _ & H).
  destruct (has_data self) eqn:Hself; simpl in H.
  - injection H as <-. congruence.
  - destruct (bool_decide (length (_data self) = 32%nat)) eqn:Hlen; simpl in H; [|done].
    injection H as <-. now apply bool_decide_eq_true in Hlen.
Qed.

Lemma Cake_init_parts (data : list byte) (t : CakeType) (r : CakeRole) :
  Cake_wf (mkCake data t r) ->
  Cake_init (FromParts (Some data) t (Some r)) = Ok (mkCake data t r).
Proof.
  intros Hwf. unfold Cake_init. simpl.
  destruct (has_data (mkCake data t r)) eqn:Hd; simpl; [done|].
  rewrite bool_decide_true; [done|]. now apply Hwf.
Qed.

Lemma from_bytes_spec (b : list byte) (r : CakeRole) :
  from_bytes b r =
    Ok (if bool_decide (length b <= inline_max_bytes)%nat
        then mkCake b INLINE r
        else mkCake (hashlib.sha256 b) SHA256 r).
Proof.
  unfold from_bytes, from_stream.
  rewrite process_stream_spec by done.
  unfold BytesIO. cbn [concat]. rewrite app_nil_r.
  unfold from_digest_and_inline_data.
  destruct (bool_decide (inline_max_bytes < length b)%nat) eqn:E.
  - apply bool_decide_eq_true in E.
    rewrite bool_decide_false by lia.
    apply Cake_init_parts. intros _. apply sha256_length.
  - apply bool_decide_eq_false in E.
    rewrite bool_decide_true by lia.
    now apply Cake_init_parts.
Qed.

(** Digest agreement: the digest of a Cake made from bytes is their
    SHA-256, inlined or not. *)
Lemma from_bytes_digest (b : list byte) (r : CakeRole) (c : Cake) :
  from_bytes b r = Ok c -> Cake_digest c = hashlib.sha256 b.
Proof.
  rewrite from_bytes_spec. intros [= <-].
  destruct (bool_decide (length b <= inline_max_bytes)%nat); reflexivity.
Qed.

(** C1. Inline boundary: [Cake.from_bytes(b)] of at most 32 bytes is an
    INLINE Cake whose [data()] is [b]; of 33 bytes it is a SHA256 Cake
    with no data, whose payload is the 32-byte SHA-256 digest of [b]. *)
Theorem C1_inline_boundary (b : list byte) (r : CakeRole) :
  ((length b <= 32)%nat ->
     exists c, from_bytes b r = Ok c
       /\ type c = INLINE /\ role c = r /\ Cake_data c = Some b)
  /\ (length b = 33%nat ->
     exists c, from_bytes b r = Ok c
       /\ type c = SHA256 /\ role c = r /\ has_data c = false
       /\ Cake_data c = None
       /\ _data c = hashlib.sha256 b /\ length (_data c) = 32%nat).
Proof.
  rewrite from_bytes_spec. unfold inline_max_bytes. split; intros Hlen.
  - rewrite bool_decide_true by done. eexists. split; [reflexivity|]. done.
  - rewrite bool_decide_false by lia. eexists. split; [reflexivity|].
    repeat split. apply sha256_length.
Qed.

Lemma C1_inline_boundary_witness :
  (exists c, from_bytes [x61; x62; x63] SYNAPSE = Ok c
     /\ type c = INLINE /\ role c = SYNAPSE
     /\ Cake_data c = Some [x61; x62; x63])
  /\ (exists c, from_bytes (repeat x61 33) SYNAPSE = Ok c
     /\ type c = SHA256 /\ role c = SYNAPSE /\ has_data c = false
     /\ Cake_data c = None
     /\ _data c = hashlib.sha256 (repeat x61 33) /\ length (_data c) = 32%nat).
Proof.
  split.
  - apply (C1_inline_boundary [x61; x62; x63] SYNAPSE). simpl. lia.
  - apply (C1_inline_boundary (repeat x61 33) SYNAPSE). reflexivity.
Defined.

(** ** [Cake]: the string form *)

Lemma header_lt_256 (t : CakeType) (r : CakeRole) : _header t r < 256.
Proof. destruct t, r; vm_compute; reflexivity. Qed.

Lemma header_type (t : CakeType) (r : CakeRole) :
  CakeType_find_by_code (N.shiftr (_header t r) 1) = Ok t.
Proof. destruct t, r; reflexivity. Qed.

Lemma header_role (t : CakeType) (r : CakeRole) :
  CakeRole_find_by_code (N.land (_header t r) 1) = Ok r.
Proof. destruct t, r; reflexivity. Qed.

Lemma Cake_init_str (c : Cake) :
  Cake_wf c -> Cake_init (FromStr (Cake_str c)) = Ok c.
Proof.
  intros Hwf. unfold Cake_init, Cake_str, pack_in_bytes.
  rewrite (basex_decode_encode _ B62_good). simpl.
  rewrite byte_to_of_N by apply header_lt_256.
  rewrite header_type, header_role. simpl.
  destruct c as [data t r]. simpl.
  destruct (has_data (mkCake data t r)) eqn:Hd; simpl; [done|].
  rewrite bool_decide_true; [done|]. now apply Hwf.
Qed.

(** C2. Cake round trip: parsing the string form of a Cake gives back a
    Cake equal to it in data, type and role. *)
Theorem C2_cake_round_trip (c : Cake) :
  Cake_wf c ->
  exists c', Cake_init (FromStr (Cake_str c)) = Ok c'
    /\ Cake_eq c' c = true /\ c' = c.
Proof.
  intros Hwf. exists c. split; [now apply Cake_init_str|].
  split; [|done]. unfold Cake_eq. now rewrite !bool_decide_true.
Qed.

Lemma C2_cake_round_trip_witness :
  exists c', Cake_init (FromStr (Cake_str (mkCake (repeat x61 32) VTREE NEURON))) = Ok c'
    /\ Cake_eq c' (mkCake (repeat x61 32) VTREE NEURON) = true
    /\ c' = mkCake (repeat x61 32) VTREE NEURON.
Proof.
  apply (C2_cake_round_trip (mkCake (repeat x61 32) VTREE NEURON)).
  intros _. reflexivity.
Defined.

Lemma pow62_43_le : 62 ^ 43 <= 4 * 256 ^ 32.
Proof. vm_compute. discriminate. Qed.

Lemma pow62_44_ge : 14 * 256 ^ 32 <= 62 ^ 44.
Proof. vm_compute. discriminate. Qed.

Lemma portal_header_range (t : CakeType) (r : CakeRole) :
  is_portal t = true -> 4 <= _header t r < 14.
Proof. destruct t, r; try discriminate; intros _; vm_compute; split; congruence. Qed.

(** C8. A portal Cake (any of the portal types, any role, 32 bytes of
    data) has a base-62 string form of exactly 44 characters. *)
Theorem C8_portal_str_length (c : Cake) :
  is_portal (type c) = true -> length (_data c) = 32%nat ->
  String.length (Cake_str c) = 44%nat.
Proof.
  intros Hp Hlen. unfold Cake_str, pack_in_bytes.
  pose proof (portal_header_range _ (role c) Hp) as [Hlo Hhi].
  pose proof (header_lt_256 (type c) (role c)) as H256.
  apply (basex_encode_length _ B62_good _ 43).
  - simpl. intros [= Hz].
    apply (f_equal Byte.to_N) in Hz. rewrite byte_to_of_N in Hz by done.
    change (Byte.to_N x00) with 0 in Hz. lia.
  - change (BaseX.size B62) with 62.
    cbn [map]. rewrite of_digits_cons by lia.
    rewrite byte_to_of_N by done. rewrite length_map, Hlen.
    assert (of_digits 256 (map Byte.to_N (_data c)) < 256 ^ N.of_nat 32) as Hd.
    { rewrite <- Hlen, <- (length_map Byte.to_N). apply of_digits_lt; [lia|].
      apply Forall_map, Forall_forall. intros b _. apply byte_to_N_lt. }
    change (N.of_nat 32) with 32 in *. change (N.of_nat 43) with 43.
    change (N.of_nat 44) with 44.
    pose proof pow62_43_le. pose proof pow62_44_ge.
    set (p := 256 ^ 32) in *. set (lo := 62 ^ 43) in *. set (hi := 62 ^ 44) in *.
    nia.
Qed.

Lemma C8_portal_str_length_witness :
  String.length (Cake_str (mkCake (repeat xff 32) DAG_STATE NEURON)) = 44%nat.
Proof.
  apply (C8_portal_str_length (mkCake (repeat xff 32) DAG_STATE NEURON));
    reflexivity.
Defined.

(** ** [ContentAddress] *)

Lemma resolved_has_no_data (c : Cake) :
  is_resolved (type c) = true -> has_data c = false.
Proof. unfold has_data. destruct (type c); [discriminate|done..]. Qed.

Lemma shard_num_32 (hb : list byte) :
  length hb = 32%nat -> exists n, shard_num hb MAX_NUM_OF_SHARDS = Ok n /\ n < MAX_NUM_OF_SHARDS.
Proof.
  intros Hlen. destruct hb as [|b1 [|b2 hb]]; try discriminate.
  unfold shard_num. simpl. eexists. split; [reflexivity|].
  apply N.mod_lt. discriminate.
Qed.

Lemma ContentAddress_of_non_resolved (c : Cake) :
  is_resolved (type c) = false ->
  ContentAddress_init (OfCake c) = Raise AssertionError.
Proof.
  intros Hr. unfold ContentAddress_init, Cake_hash_bytes. now rewrite Hr.
Qed.

(** C4, as the code has it.  A ContentAddress is derivable from a Cake
    exactly when its type is resolved (SHA256, EVENT, JSON_WRAP): the hash
    of the address is then the 32 bytes of data of the Cake and its id
    their base-36 form.  For every other type, INLINE included,
    [hash_bytes()] raises and no address is built. *)
Theorem C4_content_address_of_cake (c : Cake) :
  Cake_wf c ->
  (is_resolved (type c) = true ->
     exists ca, ContentAddress_init (OfCake c) = Ok ca
       /\ hash_bytes ca = _data c /\ length (hash_bytes ca) = 32%nat
       /\ _id ca = BaseX.encode B36 (_data c))
  /\ (is_resolved (type c) = false ->
     ContentAddress_init (OfCake c) = Raise AssertionError).
Proof.
  intros Hwf. split; [|apply ContentAddress_of_non_resolved].
  intros Hr. pose proof (Hwf (resolved_has_no_data c Hr)) as Hlen.
  destruct (shard_num_32 _ Hlen) as (n & Hn & _).
  unfold ContentAddress_init, Cake_hash_bytes. rewrite Hr. simpl.
  rewrite Hn. simpl. eexists. split; [reflexivity|]. done.
Qed.

Lemma C4_content_address_of_cake_witness :
  (exists ca, ContentAddress_init (OfCake (mkCake (repeat x07 32) SHA256 SYNAPSE)) = Ok ca
     /\ hash_bytes ca = _data (mkCake (repeat x07 32) SHA256 SYNAPSE)
     /\ length (hash_bytes ca) = 32%nat
     /\ _id ca = BaseX.encode B36 (_data (mkCake (repeat x07 32) SHA256 SYNAPSE)))
  /\ ContentAddress_init (OfCake (mkCake [] INLINE SYNAPSE)) = Raise AssertionError.
Proof.
  split.
  - refine (proj1 (C4_content_address_of_cake
                     (mkCake (repeat x07 32) SHA256 SYNAPSE) _) eq_refl).
    intros _. reflexivity.
  - refine (proj2 (C4_content_address_of_cake (mkCake [] INLINE SYNAPSE) _) eq_refl).
    intros H. discriminate H.
Defined.

(** C4 as stated fails: the INLINE Cake of the one byte [a] has no
    ContentAddress, the constructor raises. *)
Lemma C4_inline_cake_has_no_address :
  exists c, from_bytes [x61] SYNAPSE = Ok c
    /\ type c = INLINE /\ Cake_data c = Some [x61]
    /\ ContentAddress_init (OfCake c) = Raise AssertionError.
Proof. eexists. split; [vm_compute; reflexivity|]. done. Qed.

(** ** [transform_portal] *)

Lemma transform_portal_not_portal (c : Cake) (r : option CakeRole) (t : option CakeType) :
  is_portal (type c) = false -> transform_portal c r t = Raise AssertionError.
Proof. intros Hp. unfold transform_portal, assert_portal. now rewrite Hp. Qed.

Lemma portal_has_no_data (c : Cake) :
  is_portal (type c) = true -> has_data c = false.
Proof. unfold has_data. destruct (type c); [discriminate|done..]. Qed.

(** The target type is not looked at: a portal Cake is reissued with
    whatever type is asked for. *)
Lemma transform_portal_spec (c : Cake) (r : option CakeRole) (t : option CakeType) :
  Cake_wf c -> is_portal (type c) = true ->
  transform_portal c r t
    = Ok (mkCake (_data c) (default (type c) t) (default (role c) r)).
Proof.
  intros Hwf Hp. unfold transform_portal, assert_portal. rewrite Hp. simpl.
  pose proof (Hwf (portal_has_no_data c Hp)) as Hlen.
  destruct (bool_decide (default (type c) t = type c)) eqn:Ht;
    destruct (bool_decide (default (role c) r = role c)) eqn:Hr; simpl;
    try (apply Cake_init_parts; intros _; exact Hlen).
  apply bool_decide_eq_true in Ht, Hr. rewrite Ht, Hr. now destruct c.
Qed.

(** C5, at the failing input: a PORTAL Cake is turned into a SHA256 Cake,
    which is no portal type, and no assertion fails. *)
Theorem C5_transform_portal_to_non_portal :
  is_portal PORTAL = true /\ is_portal SHA256 = false
  /\ transform_portal (mkCake (repeat x00 32) PORTAL SYNAPSE) None (Some SHA256)
     = Ok (mkCake (repeat x00 32) SHA256 SYNAPSE).
Proof. repeat split. Qed.

(** ** [is_it_shard] *)

(** C10. [is_it_shard] returns a boolean on every string and never
    raises; the answer is [False] on the empty string, on more than three
    characters and on whatever [decode_shard] fails to decode. *)
Theorem C10_is_it_shard_total (s : string) (max_num : Z) :
  exists b : bool, is_it_shard s max_num = Ok b
    /\ (s = EmptyString -> b = false)
    /\ ((3 < String.length s)%nat -> b = false)
    /\ (forall e, decode_shard (lower s) = Raise e -> b = false).
Proof.
  unfold is_it_shard.
  destruct (bool_decide (s = EmptyString)) eqn:He; simpl.
  { exists false. done. }
  destruct (bool_decide (3 < String.length s)%nat) eqn:Hl; simpl.
  { exists false. done. }
  apply bool_decide_eq_false in He, Hl.
  eexists. split; [reflexivity|]. split; [done|]. split; [done|].
  intros e ->. reflexivity.
Qed.

Lemma C10_is_it_shard_total_witness :
  exists b : bool, is_it_shard ".5k" 8192 = Ok b
    /\ (".5k"%string = EmptyString -> b = false)
    /\ ((3 < String.length ".5k")%nat -> b = false)
    /\ (forall e, decode_shard (lower ".5k") = Raise e -> b = false).
Proof. apply (C10_is_it_shard_total ".5k" 8192). Defined.

(** The doctests of [is_it_shard]. *)
Example doctest_is_it_shard :
  is_it_shard "668" 8192 = Ok true /\ is_it_shard "6bk" 8192 = Ok false
  /\ is_it_shard "0" 8192 = Ok true /\ is_it_shard "5BK" 8192 = Ok true
  /\ is_it_shard "6BK" 8192 = Ok false /\ is_it_shard EmptyString 8192 = Ok false
  /\ is_it_shard ".5k" 8192 = Ok false /\ is_it_shard "abcd" 8192 = Ok false.
Proof. vm_compute. repeat split. Qed.

(** ** [SaltedSha] *)

Lemma str_take_app (p r : string) : str_take (String.length p) (p +:+ r) = p.
Proof. induction p as [|a p IH]; simpl; [now destruct r|now rewrite IH]. Qed.

Lemma str_drop_app (p r : string) : str_drop (String.length p) (p +:+ r) = r.
Proof. induction p as [|a p IH]; simpl; [now destruct r|done]. Qed.

(** C9, as the code has it.  Parsing fails with an AssertionError
    whenever the string does not start with [{SSHA}].  After the prefix
    the payload is base-64 decoded and cut after 20 bytes, whatever its
    length: the digest is the first 20 bytes (or fewer), the salt is the
    rest, and only a failure of the decoder makes the parse fail. *)
Theorem C9_salted_sha_parse (s payload : string) :
  (str_take 6 s <> _SSHA_MARK ->
     SaltedSha_init (SshaStr s) = Raise AssertionError)
  /\ (forall bs, base64.b64decode payload = Ok bs ->
        SaltedSha_init (SshaStr (_SSHA_MARK +:+ payload))
          = Ok (mkSaltedSha (firstn 20 bs) (skipn 20 bs)))
  /\ (forall e, base64.b64decode payload = Raise e ->
        SaltedSha_init (SshaStr (_SSHA_MARK +:+ payload)) = Raise e).
Proof.
  unfold SaltedSha_init. split; [|split].
  - intros Hne. rewrite bool_decide_false; [done|]. intros Heq. now apply Hne.
  - intros bs Hbs.
    rewrite str_take_app, str_drop_app, bool_decide_true by done.
    now rewrite Hbs.
  - intros e He.
    rewrite str_take_app, str_drop_app, bool_decide_true by done.
    now rewrite He.
Qed.

Lemma C9_salted_sha_parse_witness :
  SaltedSha_init (SshaStr "{ssha}AAAA") = Raise AssertionError
  /\ SaltedSha_init (SshaStr (_SSHA_MARK +:+ "AAAA")) = Ok (mkSaltedSha [x00; x00; x00] [])
  /\ SaltedSha_init (SshaStr (_SSHA_MARK +:+ "A")) = Raise BinasciiError.
Proof.
  pose proof (C9_salted_sha_parse "{ssha}AAAA" "AAAA") as (H1 & H2 & _).
  pose proof (C9_salted_sha_parse EmptyString "A") as (_ & _ & H3).
  split; [|split].
  - apply H1. discriminate.
  - apply (H2 [x00; x00; x00]). reflexivity.
  - apply H3. reflexivity.
Defined.

(** C9 as stated fails: a payload of 3 bytes, and the empty payload, are
    parsed without an error. *)
Lemma C9_short_payload_accepted :
  base64.b64decode "AAAA" = Ok [x00; x00; x00]
  /\ SaltedSha_init (SshaStr "{SSHA}AAAA") = Ok (mkSaltedSha [x00; x00; x00] [])
  /\ base64.b64decode EmptyString = Ok []
  /\ SaltedSha_init (SshaStr "{SSHA}") = Ok (mkSaltedSha [] []).
Proof. repeat split. Qed.

(** The doctests of [SaltedSha]. *)
Example doctest_salted_sha :
  exists ssha, SaltedSha_init (SshaStr "{SSHA}5wRHUQxypw7C4AVd4yZRW/8pXy2Gwvh/") = Ok ssha
    /\ check_secret ssha "abc" = true /\ check_secret ssha "Abc" = false
    /\ check_secret ssha "zyx" = false
    /\ SaltedSha_str ssha = "{SSHA}5wRHUQxypw7C4AVd4yZRW/8pXy2Gwvh/"%string.
Proof. eexists. split; [vm_compute; reflexivity|]. vm_compute. repeat split. Qed.

(** ** [resolve_cake_stack] *)

Section resolve_facts.
Context {St : Type}.
Variable lookup : Cake -> St -> result Cake * St.

(** One turn of the [while True] loop. *)
Lemma resolve_cake_stack_loop_eq (cake : Cake) (cake_stack : list Cake) (st : St) :
  resolve_cake_stack_loop lookup cake cake_stack st =
    if is_immutable cake then (Ok (cake_stack ++ [cake]), st)
    else if bool_decide (cake ∈ cake_stack)
            || bool_decide (10 < length (cake_stack ++ [cake]))%nat
    then (Raise AssertionError, st)
    else match lookup cake st with
         | (Ok next, st') =>
             resolve_cake_stack_loop lookup next (cake_stack ++ [cake]) st'
         | (Raise e, st') => (Raise e, st')
         end.
Proof.
  funelim (resolve_cake_stack_loop lookup cake cake_stack st).
  - now rewrite Heq.
  - now rewrite Heq, e.
  - now rewrite Heq0, Hguard, Heq.
  - now rewrite Heq0, Hguard, Heq.
Qed.

(** What a returned chain looks like. *)
Lemma resolve_loop_ok (cake : Cake) (cake_stack : list Cake) (st : St)
    (chain : list Cake) :
  Forall mutable cake_stack -> NoDup cake_stack -> (length cake_stack <= 10)%nat ->
  (resolve_cake_stack_loop lookup cake cake_stack st).1 = Ok chain ->
  chain = cake_stack ++ chase lookup (10 - length cake_stack) cake st
  /\ NoDup chain /\ (length chain <= 11)%nat
  /\ exists front last,
       chase lookup (10 - length cake_stack) cake st = front ++ [last]
       /\ is_immutable last = true /\ Forall mutable front.
Proof.
  revert chain.
  funelim (resolve_cake_stack_loop lookup cake cake_stack st);
    intros chain Hmut Hnd Hlen Hres; simpl in Hres; try discriminate.
  - injection Hres as <-.
    assert (chase lookup (10 - length cake_stack) cake st = [cake]) as ->.
    { destruct (10 - length cake_stack)%nat; simpl; now rewrite Heq. }
    split; [done|]. split; [|split].
    + apply NoDup_app. split; [done|]. split; [|apply NoDup_singleton].
      intros c Hc Hc'. apply list_elem_of_singleton in Hc'. subst c.
      rewrite Forall_forall in Hmut. specialize (Hmut _ Hc).
      unfold mutable in Hmut. congruence.
    + rewrite length_app. simpl. lia.
    + exists [], cake. done.
  - destruct (orb_false_elim _ _ Hguard) as [Hin Hlen'].
    apply bool_decide_eq_false in Hin, Hlen'.
    rewrite length_app in Hlen'. simpl in Hlen'.
    destruct (H chain) as (Hchain & Hnd' & Hlen'' & front & last & Hch & Hlast & Hfront).
    + apply Forall_app. split; [done|]. now repeat constructor.
    + apply NoDup_app. split; [done|]. split; [|apply NoDup_singleton].
      intros c Hc Hc'. apply list_elem_of_singleton in Hc'. now subst c.
    + rewrite length_app. simpl. lia.
    + done.
    + rewrite length_app in Hchain, Hch. simpl in Hchain, Hch.
      assert (10 - length cake_stack = S (10 - (length cake_stack + 1)))%nat as E by lia.
      rewrite E. simpl. rewrite Heq0, Heq.
      split; [now rewrite Hchain, <- app_assoc|]. split; [done|]. split; [done|].
      exists (cake :: front), last. rewrite Hch. split; [done|]. split; [done|].
      now constructor.
Qed.

(** A cake met twice makes the resolution fail. *)
Lemma resolve_loop_repeat (cake : Cake) (cake_stack : list Cake) (st : St)
    (hops : nat) :
  Forall mutable cake_stack -> NoDup cake_stack ->
  ~ NoDup (cake_stack ++ chase lookup hops cake st) ->
  (resolve_cake_stack_loop lookup cake cake_stack st).1 = Raise AssertionError.
Proof.
  revert hops.
  funelim (resolve_cake_stack_loop lookup cake cake_stack st);
    intros hops Hmut Hnd Hdup; simpl; try done.
  - exfalso. apply Hdup.
    assert (chase lookup hops cake st = [cake]) as ->.
    { destruct hops; simpl; now rewrite Heq. }
    apply NoDup_app. split; [done|]. split; [|apply NoDup_singleton].
    intros c Hc Hc'. apply list_elem_of_singleton in Hc'. subst c.
    rewrite Forall_forall in Hmut. specialize (Hmut _ Hc).
    unfold mutable in Hmut. congruence.
  - destruct (orb_false_elim _ _ Hguard) as [Hin _].
    apply bool_decide_eq_false in Hin.
    assert (NoDup (cake_stack ++ [cake])) as Hnd'.
    { apply NoDup_app. split; [done|]. split; [|apply NoDup_singleton].
      intros c Hc Hc'. apply list_elem_of_singleton in Hc'. now subst c. }
    destruct hops as [|hops].
    + exfalso. apply Hdup. simpl. now rewrite Heq0.
    + apply (H hops); [|done|].
      * apply Forall_app. split; [done|]. now repeat constructor.
      * intros Hnd''. apply Hdup. simpl. rewrite Heq0, Heq.
        now rewrite <- app_assoc in Hnd''.
  - exfalso. apply Hdup.
    destruct (orb_false_elim _ _ Hguard) as [Hin _].
    apply bool_decide_eq_false in Hin.
    assert (chase lookup hops cake st = [cake]) as ->.
    { destruct hops; simpl; now rewrite Heq0, ?Heq. }
    apply NoDup_app. split; [done|]. split; [|apply NoDup_singleton].
    intros c Hc Hc'. apply list_elem_of_singleton in Hc'. now subst c.
Qed.

(** A chain that is not finished after 10 hops makes the resolution fail. *)
Lemma resolve_loop_too_long (cake : Cake) (cake_stack : list Cake) (st : St) :
  (length cake_stack <= 10)%nat ->
  length (chase lookup (10 - length cake_stack) cake st) = (11 - length cake_stack)%nat ->
  (forall c, last (chase lookup (10 - length cake_stack) cake st) = Some c -> mutable c) ->
  (resolve_cake_stack_loop lookup cake cake_stack st).1 = Raise AssertionError.
Proof.
  funelim (resolve_cake_stack_loop lookup cake cake_stack st);
    intros Hlen Hch Hlast; simpl; try done.
  - exfalso.
    assert (chase lookup (10 - length cake_stack) cake st = [cake]) as E.
    { destruct (10 - length cake_stack)%nat; simpl; now rewrite Heq. }
    rewrite E in Hlast. specialize (Hlast cake eq_refl).
    unfold mutable in Hlast. congruence.
  - destruct (orb_false_elim _ _ Hguard) as [_ Hlen'].
    apply bool_decide_eq_false in Hlen'.
    rewrite length_app in Hlen'. simpl in Hlen'.
    assert (10 - length cake_stack = S (10 - (length cake_stack + 1)))%nat as E by lia.
    rewrite E in Hch, Hlast. simpl in Hch, Hlast. rewrite Heq0, Heq in Hch, Hlast.
    apply H; rewrite length_app; simpl.
    + lia.
    + lia.
    + intros c Hc. apply Hlast. rewrite last_cons, Hc. done.
  - exfalso.
    destruct (orb_false_elim _ _ Hguard) as [_ Hlen'].
    apply bool_decide_eq_false in Hlen'.
    rewrite length_app in Hlen'. simpl in Hlen'.
    assert (chase lookup (10 - length cake_stack) cake st = [cake]) as E.
    { destruct (10 - length cake_stack)%nat; simpl; now rewrite Heq0, ?Heq. }
    rewrite E in Hch. simpl in Hch. lia.
Qed.

(** A sequence that ends at an immutable cake other than the first was
    made by a lookup that succeeded. *)
Lemma chase_mutable_last (hops : nat) (cake : Cake) (st : St)
    (front : list Cake) (last : Cake) :
  is_immutable cake = false ->
  chase lookup hops cake st = front ++ [last] -> is_immutable last = true ->
  exists hops' next st' front',
    hops = S hops' /\ lookup cake st = (Ok next, st')
    /\ front = cake :: front' /\ chase lookup hops' next st' = front' ++ [last].
Proof.
  intros Hmut Hch Hlast.
  destruct hops as [|hops']; simpl in Hch; rewrite Hmut in Hch.
  - destruct front as [|c [|c' front]]; simplify_eq/=. congruence.
  - destruct (lookup cake st) as [[next|e] st'] eqn:E.
    + destruct front as [|c front]; simpl in Hch.
      * injection Hch as <- Hnil. pose proof (f_equal length Hnil) as Hl.
        destruct hops'; simpl in Hl; discriminate.
      * injection Hch as <- Hch. eauto 10.
    + destruct front as [|c [|c' front]]; simplify_eq/=. congruence.
Qed.

(** A sequence without a repeat that ends at an immutable cake is
    returned. *)
Lemma resolve_loop_complete (cake : Cake) (cake_stack : list Cake) (st : St)
    (front : list Cake) (last : Cake) :
  (length cake_stack <= 10)%nat ->
  chase lookup (10 - length cake_stack) cake st = front ++ [last] ->
  is_immutable last = true ->
  NoDup (cake_stack ++ front ++ [last]) ->
  (resolve_cake_stack_loop lookup cake cake_stack st).1
  = Ok (cake_stack ++ front ++ [last]).
Proof.
  revert front last.
  funelim (resolve_cake_stack_loop lookup cake cake_stack st);
    intros front last Hlen Hch Hlast Hnd; simpl.
  - assert (chase lookup (10 - length cake_stack) cake st = [cake]) as Hone.
    { destruct (10 - length cake_stack)%nat; simpl; now rewrite Heq. }
    rewrite Hone in Hch. destruct front as [|c [|c' front]]; simplify_eq/=. done.
  - destruct (chase_mutable_last _ _ _ _ _ Heq Hch Hlast)
      as (hops' & next & st' & front' & Hhops & _ & -> & _).
    destruct (orb_prop _ _ e) as [Hin|Hlong].
    + apply bool_decide_eq_true in Hin.
      apply NoDup_app in Hnd as (_ & Hnd & _). destruct (Hnd cake Hin). left.
    + apply bool_decide_eq_true in Hlong. rewrite length_app in Hlong.
      simpl in Hlong. lia.
  - destruct (chase_mutable_last _ _ _ _ _ Heq0 Hch Hlast)
      as (hops' & next' & st'' & front' & Hhops & Hlk & -> & Hch').
    rewrite Heq in Hlk. injection Hlk as <- <-.
    rewrite (H front' last).
    + now rewrite <- app_assoc.
    + rewrite length_app. simpl. lia.
    + rewrite length_app. simpl.
      replace (10 - (length cake_stack + 1))%nat with hops' by lia. exact Hch'.
    + exact Hlast.
    + now rewrite <- app_assoc.
  - destruct (chase_mutable_last _ _ _ _ _ Heq0 Hch Hlast)
      as (hops' & next' & st'' & front' & Hhops & Hlk & -> & Hch').
    rewrite Heq in Hlk. discriminate.
Qed.
End resolve_facts.

(** Counting the lookups does not change the result, and no more than
    [10 - len(cake_stack)] of them are made. *)
Lemma resolve_loop_counted {St : Type} (lookup : Cake -> St -> result Cake * St)
    (cake : Cake) (cake_stack : list Cake) (st : St) (n : nat) :
  (length cake_stack <= 10)%nat ->
  let r := resolve_cake_stack_loop (counted lookup) cake cake_stack (st, n) in
  r.1 = (resolve_cake_stack_loop lookup cake cake_stack st).1
  /\ r.2.1 = (resolve_cake_stack_loop lookup cake cake_stack st).2
  /\ (n <= r.2.2 <= n + (10 - length cake_stack))%nat.
Proof.
  revert n.
  funelim (resolve_cake_stack_loop lookup cake cake_stack st);
    intros n Hlen; cbv zeta; rewrite (resolve_cake_stack_loop_eq (counted lookup)).
  - rewrite Heq. simpl. repeat split; lia.
  - rewrite Heq, e. simpl. repeat split; lia.
  - assert (counted lookup cake (st, n) = (Ok next, (st', S n))) as Hc.
    { unfold counted. simpl. now rewrite Heq. }
    rewrite Heq0, Hguard, Hc.
    destruct (orb_false_elim _ _ Hguard) as [_ Hlen'].
    apply bool_decide_eq_false in Hlen'.
    rewrite length_app in Hlen'. simpl in Hlen'.
    destruct (H (S n)) as (H1 & H2 & H3); [rewrite length_app; simpl; lia|].
    rewrite length_app in H3. simpl in H3.
    repeat split; try done; lia.
  - assert (counted lookup cake (st, n) = (Raise e, (st', S n))) as Hc.
    { unfold counted. simpl. now rewrite Heq. }
    rewrite Heq0, Hguard, Hc. simpl.
    destruct (orb_false_elim _ _ Hguard) as [_ Hlen'].
    apply bool_decide_eq_false in Hlen'.
    rewrite length_app in Hlen'. simpl in Hlen'.
    repeat split; lia.
Qed.

(** C6. Whatever the portal lookup does, [resolve_cake_stack] ends after
    at most 10 lookups.  When the cakes reached from the first one in at
    most 10 lookups end at an immutable cake and none of them occurs
    twice, the resolution returns them as its chain.  A returned chain is
    always that sequence: it ends at the first immutable cake, has at
    most 11 cakes and no cake twice.  The resolution fails whenever a
    cake repeats in the sequence, and whenever the sequence is not
    finished after 10 hops. *)
Theorem C6_resolve_cake_stack_bounded {St : Type}
    (lookup : Cake -> St -> result Cake * St) (cake : Cake) (st : St) :
  ((resolve_cake_stack (counted lookup) cake (st, 0%nat)).1
     = (resolve_cake_stack lookup cake st).1
   /\ ((resolve_cake_stack (counted lookup) cake (st, 0%nat)).2.2 <= 10)%nat)
  /\ (forall front last, chase lookup 10 cake st = front ++ [last] ->
        is_immutable last = true -> NoDup (chase lookup 10 cake st) ->
        (resolve_cake_stack lookup cake st).1 = Ok (chase lookup 10 cake st))
  /\ (forall chain, (resolve_cake_stack lookup cake st).1 = Ok chain ->
        chain = chase lookup 10 cake st
        /\ NoDup chain /\ (length chain <= 11)%nat
        /\ exists front last, chain = front ++ [last]
             /\ is_immutable last = true /\ Forall mutable front)
  /\ (forall hops, ~ NoDup (chase lookup hops cake st) ->
        (resolve_cake_stack lookup cake st).1 = Raise AssertionError)
  /\ (length (chase lookup 10 cake st) = 11%nat ->
      (forall c, last (chase lookup 10 cake st) = Some c -> mutable c) ->
        (resolve_cake_stack lookup cake st).1 = Raise AssertionError).
Proof.
  unfold resolve_cake_stack.
  split; [|split;
    [intros front last Hch Hlast Hnd; rewrite Hch in Hnd |- *;
     apply (resolve_loop_complete lookup cake [] st front last);
     [simpl; lia|exact Hch|exact Hlast|exact Hnd]|]].
  all: repeat split.
  - apply (resolve_loop_counted lookup cake [] st 0). simpl. lia.
  - pose proof (resolve_loop_counted lookup cake [] st 0) as H.
    simpl in H. destruct H as (_ & _ & H); lia.
  - now apply (resolve_loop_ok lookup cake [] st chain) in H as (? & _);
      [|constructor|constructor|simpl; lia].
  - now apply (resolve_loop_ok lookup cake [] st chain) in H as (_ & ? & _);
      [|constructor|constructor|simpl; lia].
  - now apply (resolve_loop_ok lookup cake [] st chain) in H as (_ & _ & ? & _);
      [|constructor|constructor|simpl; lia].
  - apply (resolve_loop_ok lookup cake [] st chain) in H
      as (E & _ & _ & front & last & ? & ? & ?);
      [|constructor|constructor|simpl; lia].
    exists front, last. simpl in *. rewrite E. done.
  - intros hops Hdup.
    apply (resolve_loop_repeat lookup cake [] st hops); [constructor|constructor|done].
  - intros Hlen Hlast.
    apply (resolve_loop_too_long lookup cake [] st); [simpl; lia|done|done].
Qed.

Lemma C6_resolve_cake_stack_bounded_witness :
  ((resolve_cake_stack
      (counted (table_lookup [(portal_a, portal_b); (portal_b, target_c)]))
      portal_a (tt, 0%nat)).2.2 <= 10)%nat
  /\ (resolve_cake_stack
        (table_lookup [(portal_a, portal_b); (portal_b, target_c)]) portal_a tt).1
       = Ok [portal_a; portal_b; target_c]
  /\ (resolve_cake_stack
        (table_lookup [(portal_a, portal_b); (portal_b, portal_a)]) portal_a tt).1
       = Raise AssertionError.
Proof.
  pose proof (C6_resolve_cake_stack_bounded
                (table_lookup [(portal_a, portal_b); (portal_b, target_c)])
                portal_a tt) as ((_ & Hcount) & Hok & _).
  pose proof (C6_resolve_cake_stack_bounded
                (table_lookup [(portal_a, portal_b); (portal_b, portal_a)])
                portal_a tt) as (_ & _ & _ & Hrepeat & _).
  split; [exact Hcount|]. split.
  - refine (Hok [portal_a; portal_b] target_c eq_refl eq_refl _).
    apply (bool_decide_unpack (NoDup _)). vm_compute. exact I.
  - apply (Hrepeat 2%nat).
    apply (bool_decide_unpack (~ NoDup _)). vm_compute. exact I.
Defined.

(** ** [str]: order and texts *)

Global Instance pystr_le_total : Total pystr_le.
Proof.
  intros a. unfold pystr_le. induction a as [|x a IH]; intros [|y b]; simpl; auto.
  destruct (N.ltb_spec x y), (N.ltb_spec y x); auto; lia.
Qed.

Global Instance pystr_le_refl : Reflexive pystr_le.
Proof. intros a. destruct (total pystr_le a a); assumption. Qed.

Global Instance pystr_le_trans : Transitive pystr_le.
Proof.
  intros a. unfold pystr_le.
  induction a as [|x a IH]; intros [|y b] [|z c]; simpl; try done.
  destruct (N.ltb_spec x y), (N.ltb_spec y x), (N.ltb_spec y z), (N.ltb_spec z y),
    (N.ltb_spec x z), (N.ltb_spec z x); try done; try lia.
  apply IH.
Qed.

Global Instance pystr_le_antisymm : AntiSymm (=) pystr_le.
Proof.
  intros a. unfold pystr_le.
  induction a as [|x a IH]; intros [|y b]; simpl; try done.
  destruct (N.ltb_spec x y), (N.ltb_spec y x); try done; try lia.
  intros H1 H2. f_equal; [lia|now apply IH].
Qed.




(** ** Division by the constants of a goal *)

Ltac lia_div := zify; Z.to_euclidean_division_equations; lia.

Lemma lor_shiftl_small (a b k : N) :
  b < 2 ^ k -> N.lor (N.shiftl a k) b = a * 2 ^ k + b.
Proof.
  intros Hb. rewrite <- N.shiftl_mul_pow2.
  rewrite <- N.lxor_lor, <- N.add_nocarry_lxor; trivial;
    apply N.bits_inj; intros i; rewrite N.land_spec, N.bits_0;
    destruct (N.lt_ge_cases i k) as [Hi|Hi].
  all: try (now rewrite N.shiftl_spec_low).
  all: destruct (N.eq_dec b 0) as [->|Hb0]; [now rewrite N.bits_0, andb_false_r|].
  all: rewrite (N.bits_above_log2 b i), andb_false_r; trivial.
  all: apply N.lt_le_trans with k; [|exact Hi]; apply N.log2_lt_pow2; lia.
Qed.

(** ** [json]: [loads] reads back what [dumps] writes *)

Lemma value_ind_nested (P : json.value -> Prop) :
  P json.Null -> (forall s, P (json.Str s)) ->
  (forall l, Forall P l -> P (json.Arr l)) -> forall v, P v.
Proof.
  intros Hnull Hstr Harr. fix IH 1. intros [|s|l].
  - exact Hnull.
  - apply Hstr.
  - apply Harr. induction l as [|x l IHl]; constructor; [apply IH|exact IHl].
Qed.

Lemma steps_app (l1 l2 : list ascii) (s : json.state) :
  json.steps (l1 ++ l2) s = s' ← json.steps l1 s; json.steps l2 s'.
Proof.
  revert s. induction l1 as [|c l1 IH]; intros s; [done|].
  cbn [app json.steps]. destruct (json.step c s) as [s'|e]; [apply IH|done].
Qed.























(** ** [CakeRack]: names *)

Lemma mapM_ok {A B : Type} (f : A -> result B) (g : A -> B) (l : list A) :
  Forall (fun x => f x = Ok (g x)) l -> mapM f l = Ok (g <$> l).
Proof.
  induction 1 as [|x l Hx _ IH]; simpl; [done|].
  rewrite Hx. simpl. rewrite IH. reflexivity.
Qed.

Lemma elem_of_keys (r : CakeRack) (k : pystr) :
  k ∈ CakeRack_keys r <-> is_Some (store r !! k).
Proof.
  unfold CakeRack_keys. rewrite merge_sort_Permutation, list_elem_of_fmap. split.
  - intros ([k' v] & -> & Hin). apply elem_of_map_to_list in Hin. eauto.
  - intros [v Hv]. exists (k, v). split; [done|]. now apply elem_of_map_to_list.
Qed.

Lemma NoDup_keys (r : CakeRack) : NoDup (CakeRack_keys r).
Proof.
  unfold CakeRack_keys. rewrite merge_sort_Permutation.
  apply NoDup_fst_map_to_list.
Qed.

Lemma StronglySorted_strict {A : Type} (R : relation A) `{!AntiSymm (=) R}
    (l : list A) :
  StronglySorted R l -> NoDup l -> StronglySorted (strict R) l.
Proof.
  induction 1 as [|x l Hl IH Hx]; intros Hnd; [constructor|].
  apply NoDup_cons in Hnd as [Hx' Hnd]. constructor; [now apply IH|].
  rewrite Forall_forall in *. intros y Hy. split; [now apply Hx|].
  intros Hyx. assert (x = y) as -> by (apply (anti_symm R); auto). done.
Qed.

Lemma elem_of_merge_names (new prev : CakeRack) (k : pystr) :
  k ∈ merge_names new prev
  <-> is_Some (store new !! k) \/ is_Some (store prev !! k).
Proof.
  unfold merge_names.
  rewrite merge_sort_Permutation, elem_of_elements, elem_of_list_to_set,
    elem_of_app, !elem_of_keys. done.
Qed.

Lemma merge_names_sorted (new prev : CakeRack) :
  StronglySorted (strict pystr_le) (merge_names new prev).
Proof.
  apply StronglySorted_strict; [apply _| |].
  - apply StronglySorted_merge_sort; apply _.
  - unfold merge_names. rewrite merge_sort_Permutation. apply NoDup_elements.
Qed.

(** ** [CakeRack.merge] *)

Lemma is_neuron_lookup (r : CakeRack) (k : pystr) (v : option Cake) :
  store r !! k = Some v -> is_neuron r k = Ok (neuron_like v).
Proof. intros Hv. unfold is_neuron, CakeRack_getitem. now rewrite Hv. Qed.

(** On a name of one of the racks, the code yields what the table says. *)
Lemma merge_at_table (new prev : CakeRack) (k : pystr) :
  is_Some (store new !! k) \/ is_Some (store prev !! k) ->
  merge_at new prev k = Ok (merge_table (store new) (store prev) k).
Proof.
  intros Hk. unfold merge_at, merge_table, CakeRack_contains.
  destruct (store new !! k) as [v|] eqn:Hn; destruct (store prev !! k) as [pv|] eqn:Hp.
  - rewrite !bool_decide_true by eauto. simpl.
    unfold CakeRack_getitem. rewrite Hn, Hp. simpl.
    rewrite (is_neuron_lookup new k v Hn), (is_neuron_lookup prev k pv Hp). simpl.
    destruct (bool_decide (v = pv)); simpl; [done|].
    destruct (neuron_like v), (neuron_like pv); reflexivity.
  - rewrite bool_decide_true by eauto.
    rewrite bool_decide_false by (intros [? ?]; done). simpl.
    unfold CakeRack_getitem. rewrite Hn. simpl.
    now rewrite (is_neuron_lookup new k v Hn).
  - rewrite bool_decide_false by (intros [? ?]; done).
    rewrite bool_decide_true by eauto. reflexivity.
  - destruct Hk as [[? ?]|[? ?]]; done.
Qed.

Lemma merge_table_names (new prev : gmap pystr (option Cake)) (k : pystr) :
  Forall (fun p : patch => p.1.2 = k) (merge_table new prev k).
Proof.
  unfold merge_table.
  destruct (new !! k) as [v|]; destruct (prev !! k) as [pv|];
    repeat first [case_bool_decide | destruct (_ && _)]; repeat constructor.
Qed.

Lemma concat_table_sorted (new prev : gmap pystr (option Cake)) (names : list pystr) :
  StronglySorted (strict pystr_le) names ->
  StronglySorted pystr_le
    ((fun p : patch => p.1.2) <$> concat (merge_table new prev <$> names)).
Proof.
  induction 1 as [|k names Hs IH Hk]; [constructor|].
  cbn [fmap list_fmap concat]. rewrite fmap_app.
  pose proof (merge_table_names new prev k) as Hnames.
  apply StronglySorted_app_2; [| |exact IH].
  - intros x1 x2 Hx1 Hx2.
    apply list_elem_of_fmap in Hx1 as (p & -> & Hp).
    rewrite Forall_forall in Hnames. rewrite (Hnames p Hp).
    apply list_elem_of_fmap in Hx2 as (q & -> & Hq).
    apply list_elem_of_In, in_concat in Hq as (l & Hl & Hq).
    apply list_elem_of_In in Hl, Hq.
    apply list_elem_of_fmap in Hl as (k' & -> & Hk').
    pose proof (merge_table_names new prev k') as Hnames'.
    rewrite Forall_forall in Hnames'. rewrite Forall_forall in Hk.
    rewrite (Hnames' q Hq). apply (Hk k' Hk').
  - induction Hnames as [|p l Hp Hl IHl]; [constructor|].
    cbn. constructor; [exact IHl|].
    apply Forall_fmap. eapply Forall_impl; [exact Hl|].
    intros q Hq. simpl. rewrite Hp, Hq. destruct (total pystr_le k k); assumption.
Qed.

(** C3. [new.merge(prev)] goes through the names of both racks in
    strictly ascending order and yields, for each name, the patches of
    the six-case table ([merge_table]), a delete before an update; the
    names of the patches it yields are therefore in ascending order. *)
Theorem C3_merge_follows_table (new prev : CakeRack) :
  exists names patches,
    merge new prev = Ok patches
    /\ patches = concat (merge_table (store new) (store prev) <$> names)
    /\ StronglySorted (strict pystr_le) names
    /\ (forall k, k ∈ names
          <-> is_Some (store new !! k) \/ is_Some (store prev !! k))
    /\ StronglySorted pystr_le ((fun p : patch => p.1.2) <$> patches).
Proof.
  exists (merge_names new prev), (concat (merge_table (store new) (store prev)
                                            <$> merge_names new prev)).
  split; [|split; [done|split; [apply merge_names_sorted|split]]].
  - unfold merge. rewrite (mapM_ok _ (merge_table (store new) (store prev))); [done|].
    apply Forall_forall. intros k Hk. apply merge_at_table.
    now apply elem_of_merge_names.
  - apply elem_of_merge_names.
  - apply concat_table_sorted, merge_names_sorted.
Qed.

(** ** [CakeRack]: serialization and parsing *)

Lemma get_cakes_keys (r : CakeRack) :
  get_cakes r (Some (CakeRack_keys r)) = Ok (rack_cakes r).
Proof.
  unfold get_cakes, rack_cakes. simpl. apply mapM_ok, Forall_forall.
  intros k Hk. apply elem_of_keys in Hk as [v Hv].
  unfold CakeRack_getitem. now rewrite Hv.
Qed.

Lemma CakeRack_str_spec (r : CakeRack) :
  CakeRack_str r
    = Ok (json.dumps (json.Arr [json.Arr (json.Str <$> CakeRack_keys r);
                                json.Arr (cake_json <$> rack_cakes r)])).
Proof. unfold CakeRack_str, to_json. now rewrite get_cakes_keys. Qed.

Lemma CakeRack_str_clear (r : CakeRack) :
  CakeRack_str (_clear_cached r) = CakeRack_str r.
Proof. reflexivity. Qed.

Arguments Cake_init : simpl never.


Lemma store_update_notin (items : list (pystr * option Cake))
    (m : gmap pystr (option Cake)) (k : pystr) :
  k ∉ items.*1 -> store_update m items !! k = m !! k.
Proof.
  unfold store_update. revert m. induction items as [|[k' v] items IH]; intros m Hk; [done|].
  cbn in *. apply not_elem_of_cons in Hk as [Hne Hk].
  rewrite IH by done. now rewrite lookup_insert_ne.
Qed.

Lemma store_update_in (items : list (pystr * option Cake))
    (m : gmap pystr (option Cake)) (k : pystr) (v : option Cake) :
  NoDup items.*1 -> (k, v) ∈ items -> store_update m items !! k = Some v.
Proof.
  unfold store_update. revert m.
  induction items as [|[k' v'] items IH]; intros m Hnd Hin; [by apply elem_of_nil in Hin|].
  cbn in *. apply NoDup_cons in Hnd as [Hk' Hnd].
  apply elem_of_cons in Hin as [[= -> ->]|Hin].
  - fold (store_update (<[k':=v']> m) items).
    rewrite store_update_notin by done. apply lookup_insert_eq.
  - now apply IH.
Qed.

Lemma zip_keys_cakes (r : CakeRack) :
  zip (CakeRack_keys r) (rack_cakes r)
    = (fun k => (k, default None (store r !! k))) <$> CakeRack_keys r.
Proof.
  unfold rack_cakes. induction (CakeRack_keys r) as [|k ks IH]; [done|].
  cbn. now rewrite IH.
Qed.

Lemma fst_pairs {A B : Type} (f : A -> B) (l : list A) :
  ((fun k => (k, f k)) <$> l).*1 = l.
Proof. induction l as [|x l IH]; [done|]. cbn. now rewrite IH. Qed.

Lemma store_update_rack (r : CakeRack) :
  store_update ∅ (zip (CakeRack_keys r) (rack_cakes r)) = store r.
Proof.
  rewrite zip_keys_cakes. apply map_eq. intros k.
  destruct (store r !! k) as [v|] eqn:Hk.
  - apply store_update_in.
    + rewrite fst_pairs. apply NoDup_keys.
    + apply list_elem_of_fmap. exists k. rewrite Hk. split; [done|].
      apply elem_of_keys. eauto.
  - rewrite store_update_notin; [done|].
    rewrite fst_pairs. intros Hin. apply elem_of_keys in Hin as [? ?]. congruence.
Qed.





(** ** [CakeRack.cake] *)

Arguments from_digest_and_inline_data : simpl never.
Arguments json.dumps : simpl never.
Arguments bytes_of_str : simpl never.
Arguments hashlib.sha256 : simpl never.

Lemma from_digest_and_inline_data_ok (d : list byte) (buffer : option (list byte))
    (r : CakeRole) :
  length d = 32%nat -> exists c, from_digest_and_inline_data d buffer r = Ok c.
Proof.
  intros Hd. unfold from_digest_and_inline_data.
  destruct buffer as [b|]; [destruct (bool_decide _)|];
    rewrite Cake_init_parts; eauto; intros H; try done.
Qed.

(** What [cake()] computes when no cache is filled. *)
Lemma cake_fresh (r : CakeRack) :
  exists s c,
    CakeRack_str r = Ok s
    /\ from_digest_and_inline_data (hashlib.sha256 (bytes_of_str s))
         (Some (bytes_of_str s)) NEURON = Ok c
    /\ fst <$> CakeRack_cake (_clear_cached r) = Ok c.
Proof.
  pose proof (CakeRack_str_spec r) as Hs.
  set (s := json.dumps _) in Hs.
  destruct (from_digest_and_inline_data_ok (hashlib.sha256 (bytes_of_str s))
              (Some (bytes_of_str s)) NEURON (sha256_length _)) as [c Hc].
  exists s, c. split; [exact Hs|]. split; [exact Hc|].
  unfold CakeRack_cake, in_bytes, content. cbn [_clear_cached _cake _in_bytes _content].
  rewrite CakeRack_str_clear, Hs. cbn.
  unfold Hasher_digest, Hasher_init, Hasher_update. cbn [app].
  rewrite Hc. reflexivity.
Qed.

(** With consistent caches, [cake()] returns what it would compute. *)
Lemma cake_valid (r : CakeRack) :
  CakeRack_valid r ->
  fst <$> CakeRack_cake r = fst <$> CakeRack_cake (_clear_cached r).
Proof.
  intros (Hcontent & Hbytes & Hcake & _).
  destruct (cake_fresh r) as (s & c & Hs & Hc & Hfresh).
  rewrite Hfresh. unfold CakeRack_cake.
  destruct (_cake r) as [c'|] eqn:Ec.
  { simpl in Hcake. rewrite Hfresh in Hcake. now injection Hcake as ->. }
  assert (fst <$> in_bytes (_clear_cached r) = Ok (bytes_of_str s)) as Hb.
  { unfold in_bytes, content. cbn [_clear_cached _in_bytes _content].
    rewrite CakeRack_str_clear, Hs. reflexivity. }
  unfold in_bytes. destruct (_in_bytes r) as [b|] eqn:Eb.
  { simpl in Hbytes. rewrite Hb in Hbytes. injection Hbytes as <-. cbn.
    unfold Hasher_digest, Hasher_init, Hasher_update. cbn [app].
    rewrite Hc. reflexivity. }
  unfold content. destruct (_content r) as [s'|] eqn:Es.
  { simpl in Hcontent. rewrite CakeRack_str_clear, Hs in Hcontent.
    injection Hcontent as <-. cbn.
    unfold Hasher_digest, Hasher_init, Hasher_update. cbn [app].
    rewrite Hc. reflexivity. }
  rewrite Hs. cbn.
  unfold Hasher_digest, Hasher_init, Hasher_update. cbn [app].
  rewrite Hc. reflexivity.
Qed.






(** ** The caches stay consistent *)

Lemma CakeRack_init_valid (r : CakeRack) :
  CakeRack_init None = Ok r -> CakeRack_valid r.
Proof.
  intros [= <-]. repeat split. intros k c Hk. cbn in Hk.
  now rewrite lookup_empty in Hk.
Qed.

Lemma clear_cached_valid (r : CakeRack) :
  (forall k c, store r !! k = Some (Some c) -> Cake_wf c) ->
  CakeRack_valid (_clear_cached r).
Proof. intros Hwf. repeat split. exact Hwf. Qed.

Lemma ensure_it_or_none_wf (o : cake_like) (v : option Cake) :
  (forall c, o = ACake c -> Cake_wf c) ->
  ensure_it_or_none o = Ok v -> forall c, v = Some c -> Cake_wf c.
Proof.
  intros Ho Hv c ->. destruct o as [|c'|s]; cbn in Hv.
  - discriminate.
  - injection Hv as ->. now apply Ho.
  - destruct (string_of_pystr s) as [s'|]; [|discriminate].
    apply bind_ok_inv in Hv as (c' & Hc' & [= ->]).
    now apply Cake_init_wf in Hc'.
Qed.

Lemma CakeRack_setitem_valid (r r' : CakeRack) (k : pystr) (v : cake_like) :
  CakeRack_valid r -> (forall c, v = ACake c -> Cake_wf c) ->
  CakeRack_setitem r k v = Ok r' -> CakeRack_valid r'.
Proof.
  intros (_ & _ & _ & Hwf) Hv Hset. unfold CakeRack_setitem in Hset.
  apply bind_ok_inv in Hset as (v' & Hv' & [= <-]).
  repeat split. cbn. intros k' c Hk'.
  apply lookup_insert_Some in Hk' as [[_ ->]|[_ Hk']]; [|now apply (Hwf k')].
  now apply (ensure_it_or_none_wf v (Some c) Hv Hv').
Qed.

Lemma valid_of_caches (r : CakeRack) (ck : option Cake) (ct : option string)
    (sz : option nat) (ib : option (list byte)) (df : option bool) :
  cache_ok ct (CakeRack_str (_clear_cached r)) ->
  cache_ok ib (fst <$> in_bytes (_clear_cached r)) ->
  cache_ok ck (fst <$> CakeRack_cake (_clear_cached r)) ->
  (forall k c, store r !! k = Some (Some c) -> Cake_wf c) ->
  CakeRack_valid (mkCakeRack (store r) ck ct sz ib df).
Proof. intros. repeat split; assumption. Qed.

Lemma CakeRack_cake_valid (r r' : CakeRack) (c : Cake) :
  CakeRack_valid r -> CakeRack_cake r = Ok (c, r') -> CakeRack_valid r'.
Proof.
  intros Hvalid Hcake. pose proof Hvalid as (Hcontent & Hbytes & Hc & Hwf).
  pose proof (cake_valid r Hvalid) as Hcv.
  destruct (cake_fresh r) as (s & c0 & Hs & Hc0 & Hfresh).
  assert (fst <$> in_bytes (_clear_cached r) = Ok (bytes_of_str s)) as Hb.
  { unfold in_bytes, content. cbn [_clear_cached _in_bytes _content].
    rewrite CakeRack_str_clear, Hs. reflexivity. }
  rewrite Hcake, Hfresh in Hcv. injection Hcv as ->.
  unfold CakeRack_cake in Hcake.
  destruct (_cake r) as [c'|] eqn:Ec; [now injection Hcake as _ <-|].
  unfold in_bytes in Hcake. destruct (_in_bytes r) as [b|] eqn:Eb.
  { cbn in Hcake. apply bind_ok_inv in Hcake as (c1 & _ & [= -> <-]).
    rewrite Eb. now apply valid_of_caches. }
  unfold content in Hcake. destruct (_content r) as [s'|] eqn:Es.
  { cbn in Hcake. apply bind_ok_inv in Hcake as (c1 & _ & [= -> <-]).
    simpl in Hcontent. rewrite CakeRack_str_clear, Hs in Hcontent.
    injection Hcontent as <-.
    cbn. rewrite Es. apply valid_of_caches; try done; try exact Hb. }
  rewrite Hs in Hcake. cbn in Hcake.
  apply bind_ok_inv in Hcake as (c1 & _ & [= -> <-]).
  cbn. apply valid_of_caches; try done; try exact Hb.
Qed.

Lemma CakeRack_delitem_valid (r r' : CakeRack) (k : pystr) :
  CakeRack_valid r -> CakeRack_delitem r k = Ok r' -> CakeRack_valid r'.
Proof.
  intros (_ & _ & _ & Hwf) Hdel. unfold CakeRack_delitem in Hdel.
  cbn [_clear_cached store] in Hdel.
  destruct (store r !! k); [|discriminate]. injection Hdel as <-.
  repeat split. cbn. intros k' c Hk'.
  apply lookup_delete_Some in Hk' as [_ Hk']. now apply (Hwf k').
Qed.

Lemma content_valid (r r' : CakeRack) (s : string) :
  CakeRack_valid r -> content r = Ok (s, r') -> CakeRack_valid r'.
Proof.
  intros Hvalid Hcontent. pose proof Hvalid as (_ & Hbytes & Hcake & Hwf).
  unfold content in Hcontent.
  destruct (_content r) as [s'|] eqn:Es; [now injection Hcontent as _ <-|].
  apply bind_ok_inv in Hcontent as (s' & Hs' & [= _ <-]).
  now apply valid_of_caches.
Qed.

Lemma in_bytes_fresh (r : CakeRack) (s : string) :
  CakeRack_str r = Ok s ->
  fst <$> in_bytes (_clear_cached r) = Ok (bytes_of_str s).
Proof.
  intros Hs. unfold in_bytes, content. cbn [_clear_cached _in_bytes _content].
  rewrite CakeRack_str_clear, Hs. reflexivity.
Qed.

Lemma in_bytes_valid (r r' : CakeRack) (b : list byte) :
  CakeRack_valid r -> in_bytes r = Ok (b, r') -> CakeRack_valid r'.
Proof.
  intros Hvalid Hb. pose proof Hvalid as (Hcontent & _ & Hcake & Hwf).
  unfold in_bytes in Hb.
  destruct (_in_bytes r) as [b'|] eqn:Eb; [now injection Hb as _ <-|].
  unfold content in Hb. destruct (_content r) as [s|] eqn:Es.
  - cbn in Hb. injection Hb as _ <-. cbn. rewrite Es.
    simpl in Hcontent. rewrite CakeRack_str_clear in Hcontent.
    apply valid_of_caches; try done. now apply in_bytes_fresh.
  - destruct (CakeRack_str r) as [s|e] eqn:Hs; [|discriminate].
    cbn in Hb. injection Hb as _ <-. cbn.
    apply valid_of_caches; try done. now apply in_bytes_fresh.
Qed.

Lemma zip_ensure_Forall {A B : Type} (key : A -> result pystr)
    (ensure : B -> result (option Cake)) (Q : option Cake -> Prop)
    (names : list A) (cakes : list B) (items : list (pystr * option Cake)) :
  Forall (fun b => forall v, ensure b = Ok v -> Q v) cakes ->
  zip_ensure key ensure names cakes = Ok items ->
  Forall (fun kv => Q kv.2) items.
Proof.
  revert cakes items. induction names as [|n names IH]; intros cakes items Hall Hzip.
  - injection Hzip as <-. constructor.
  - destruct cakes as [|c cakes]; [injection Hzip as <-; constructor|].
    apply Forall_cons in Hall as [Hc Hall]. cbn in Hzip.
    apply bind_ok_inv in Hzip as (v & Hv & Hzip).
    apply bind_ok_inv in Hzip as (k & Hk & Hzip).
    apply bind_ok_inv in Hzip as (rest & Hrest & [= <-]).
    constructor; [now apply Hc|]. now apply (IH cakes).
Qed.

Lemma store_update_wf (items : list (pystr * option Cake))
    (m : gmap pystr (option Cake)) :
  (forall k c, m !! k = Some (Some c) -> Cake_wf c) ->
  Forall (fun kv => forall c, kv.2 = Some c -> Cake_wf c) items ->
  forall k c, store_update m items !! k = Some (Some c) -> Cake_wf c.
Proof.
  unfold store_update. revert m.
  induction items as [|[k' v'] items IH]; intros m Hm Hall; [exact Hm|].
  apply Forall_cons in Hall as [Hv Hall]. cbn. apply IH; [|exact Hall].
  intros k c Hk. apply lookup_insert_Some in Hk as [[_ ->]|[_ Hk]].
  - now apply Hv.
  - now apply (Hm k).
Qed.

Lemma parse_loaded_valid (r r' : CakeRack) (v : json.value) :
  (forall k c, store r !! k = Some (Some c) -> Cake_wf c) ->
  parse_loaded (_clear_cached r) v = Ok r' -> CakeRack_valid r'.
Proof.
  intros Hwf Hp. unfold parse_loaded in Hp.
  apply bind_ok_inv in Hp as ([names cakes] & _ & Hp).
  apply bind_ok_inv in Hp as (names' & _ & Hp).
  apply bind_ok_inv in Hp as (cakes' & _ & Hp).
  apply bind_ok_inv in Hp as (items & Hitems & [= <-]).
  repeat split. cbn. apply store_update_wf; [exact Hwf|].
  eapply (zip_ensure_Forall _ _ (fun v => forall c, v = Some c -> Cake_wf c));
    [|exact Hitems].
  apply Forall_forall. intros b _ v' Hv' c ->.
  apply bind_ok_inv in Hv' as (cl & Hcl & Hv').
  apply (ensure_it_or_none_wf cl (Some c)); [|exact Hv'|done].
  intros c' ->. destruct b; discriminate.
Qed.

Lemma parse_valid (r r' : CakeRack) (o : parse_arg) :
  CakeRack_valid r -> parse_arg_wf o -> parse r o = Ok r' -> CakeRack_valid r'.
Proof.
  intros (_ & _ & _ & Hwf) Ho Hp. unfold parse in Hp. destruct o as [s|names cakes].
  - apply bind_ok_inv in Hp as (v & _ & Hp). now apply (parse_loaded_valid r r' v).
  - apply bind_ok_inv in Hp as (items & Hitems & [= <-]).
    repeat split. cbn. apply store_update_wf; [exact Hwf|].
    eapply (zip_ensure_Forall _ _ (fun v => forall c, v = Some c -> Cake_wf c));
      [|exact Hitems].
    eapply Forall_impl; [exact Ho|].
    intros cl Hcl v Hv c ->. now apply (ensure_it_or_none_wf cl (Some c)).
Qed.

(** ** The doctests of the source *)

Example doctest_short_k :
  from_bytes (bytes_of_str "The quick brown fox jumps over") SYNAPSE = Ok short_k
  /\ Cake_str short_k = "01aMUQDApalaaYbXFjBVMMvyCAMfSPcTojI0745igi"%string
  /\ Cake_init (FromStr "01aMUQDApalaaYbXFjBVMMvyCAMfSPcTojI0745igi") = Ok short_k.
Proof. vm_compute. repeat split. Qed.

Example doctest_longer_k :
  from_bytes longer_content SYNAPSE = Ok longer_k
  /\ Cake_str longer_k = "2xgkyws1ZbSlXUvZRCSIrjne73Pv1kmYArYvhOrTtqkX"%string
  /\ Cake_shard_num longer_k MAX_NUM_OF_SHARDS = Ok 5937
  /\ Cake_shard_num (mkCake [x20] INLINE SYNAPSE) MAX_NUM_OF_SHARDS = Ok 32.
Proof. vm_compute. repeat split. Qed.

Example doctest_content_address :
  exists a46 a47 from_c from_id,
    from_bytes (repeat x61 46) SYNAPSE = Ok a46
    /\ Cake_str a46 = "2lEWHXV2XeYyZnKNyQyGPt4poJhV7VeYCfeszHnLyFtx"%string
    /\ ContentAddress_init (OfCake a46) = Ok from_c
    /\ _id from_c = "2jr7e7m1dz6uky4soq7eaflekjlgzwsvech6skma3ojl4tc0zv"%string
    /\ ContentAddress_init (OfStr (_id from_c)) = Ok from_id
    /\ hash_bytes from_id = hash_bytes from_c
    /\ ContentAddress_match from_id a46 = Ok true
    /\ from_bytes (repeat x61 47) SYNAPSE = Ok a47
    /\ Cake_str a47 = "21EUi09ZvZAelgu02ANS9dSpK9oPsERF0uSpfEEZcdMx"%string
    /\ ContentAddress_match from_id a47 = Ok false.
Proof.
  do 4 eexists. split; [vm_compute; reflexivity|]. split; [vm_compute; reflexivity|].
  split; [vm_compute; reflexivity|]. split; [vm_compute; reflexivity|].
  split; [vm_compute; reflexivity|]. split; [vm_compute; reflexivity|].
  split; [vm_compute; reflexivity|]. split; [vm_compute; reflexivity|].
  split; vm_compute; reflexivity.
Qed.

Example doctest_shard_name_int :
  shard_name_int 0 = "0"%string /\ shard_name_int 1 = "1"%string
  /\ shard_name_int 8000 = "668"%string
  /\ decode_shard "0" = Ok 0 /\ decode_shard "668" = Ok 8000.
Proof. vm_compute. repeat split. Qed.

Example doctest_cake_rack :
  let cakes := rack_of [(py "short", Some short_k); (py "longer", Some longer_k)] in
  CakeRack_keys cakes = [py "longer"; py "short"]
  /\ fst <$> content cakes
     = Ok (quoted "[['longer', 'short'], ['2xgkyws1ZbSlXUvZRCSIrjne73Pv1kmYArYvhOrTtqkX', '01aMUQDApalaaYbXFjBVMMvyCAMfSPcTojI0745igi']]")
  /\ fst <$> CakeRack_size cakes = Ok 117%nat
  /\ (fun x => Cake_str x.1) <$> CakeRack_cake cakes
     = Ok "3fqJUOtUYjGCs3cWuPum5CwXtyyeJPRRp3gJ3A9wg3uS"%string
  /\ fst <$> CakeRack_cake (rack_of []) = Ok o3.
Proof. vm_compute. repeat split. Qed.

Example doctest_merge :
  let r1 := rack_of [(py "o1", Some short_k); (py "o2", Some longer_k);
                     (py "o3", None)] in
  let r2 := rack_of [(py "o1", Some short_k); (py "o2", Some o2v2);
                     (py "o3", Some o3)] in
  let r1' := rack_of [(py "o1", None); (py "o2", Some longer_k);
                      (py "o3", None)] in
  let r1'' := rack_of [(py "o1", None); (py "o3", None)] in
  Cake_str o2v2 = "2KLrqwGfNUC75Zk46B8SIbyYQFcm4FoW8UgOd9xnkKD9"%string
  /\ merge r2 r1 = Ok [(update, py "o2", Some o2v2)]
  /\ merge r1 r2 = Ok [(update, py "o2", Some longer_k)]
  /\ merge r2 r1' = Ok [(delete, py "o1", None); (update, py "o1", Some short_k);
                        (update, py "o2", Some o2v2)]
  /\ merge r1' r2 = Ok [(delete, py "o1", None); (update, py "o1", None);
                        (update, py "o2", Some longer_k)]
  /\ merge r2 r1'' = Ok [(delete, py "o1", None); (update, py "o1", Some short_k);
                         (update, py "o2", Some o2v2)]
  /\ merge r1'' r2 = Ok [(delete, py "o1", None); (update, py "o1", None);
                         (delete, py "o2", None)].
Proof. vm_compute. repeat split. Qed.

(** * Further properties *)

(** ** Shards *)

Lemma shard_num_lt (hash_bytes : list byte) (base : N) :
  (2 <= length hash_bytes)%nat -> 0 < base ->
  exists n, shard_num hash_bytes base = Ok n /\ n < base.
Proof.
  intros Hlen Hbase. unfold shard_num.
  destruct hash_bytes as [|b1 [|b2 rest]]; try (simpl in Hlen; lia).
  destruct (base =? 0) eqn:E; [apply N.eqb_eq in E; lia|].
  eexists. split; [reflexivity|]. apply N.mod_lt. lia.
Qed.


Lemma to_digits_length_le (base : N) (k : nat) (n : N) :
  2 <= base -> n < base ^ N.of_nat k -> (length (to_digits base n) <= k)%nat.
Proof.
  intros Hb. revert n. induction k as [|k IH]; intros n Hn.
  - simpl in Hn. assert (n = 0) as -> by lia. simpl. lia.
  - rewrite to_digits_eq by done. destruct (n =? 0); [simpl; lia|].
    rewrite length_app. simpl.
    assert (length (to_digits base (n / base)) <= k)%nat; [|lia].
    apply IH. rewrite Nat2N.inj_succ, N.pow_succ_r' in Hn.
    apply N.Div0.div_lt_upper_bound. lia.
Qed.

Lemma lower_ascii_idemp (a : ascii) : lower_ascii (lower_ascii a) = lower_ascii a.
Proof. destruct a as [[] [] [] [] [] [] [] []]; reflexivity. Qed.

Lemma lower_idemp (s : string) : lower (lower s) = lower s.
Proof. induction s as [|a s IH]; simpl; [done|]. now rewrite lower_ascii_idemp, IH. Qed.

Lemma lower_string_of_list (l : list ascii) :
  Forall (fun a => lower_ascii a = a) l ->
  lower (string_of_list_ascii l) = string_of_list_ascii l.
Proof. induction 1 as [|a l Ha _ IH]; simpl; [done|]. now rewrite Ha, IH. Qed.

Lemma B36_char_lower (d : N) : lower_ascii (BaseX.char_of B36 d) = BaseX.char_of B36 d.
Proof.
  unfold BaseX.char_of.
  assert (Forall (fun a => lower_ascii a = a) (BaseX.alphabet B36)) as Hall.
  { apply (bool_decide_unpack _). vm_compute. exact I. }
  destruct (nth_in_or_default (N.to_nat d) (BaseX.alphabet B36) "000"%char) as [Hin| ->].
  - rewrite Forall_forall in Hall. apply Hall. now apply list_elem_of_In.
  - reflexivity.
Qed.

Lemma lower_encode_int (n : N) : lower (shard_name_int n) = shard_name_int n.
Proof.
  unfold shard_name_int, BaseX.encode_int. destruct (n =? 0); [reflexivity|].
  apply lower_string_of_list, Forall_map, Forall_forall.
  intros d _. apply B36_char_lower.
Qed.

Lemma decode_shard_name_int (n : N) : decode_shard (shard_name_int n) = Ok n.
Proof.
  unfold decode_shard, shard_name_int, BaseX.decode_int, BaseX.encode_int.
  destruct (n =? 0) eqn:E.
  - apply N.eqb_eq in E. subst. reflexivity.
  - rewrite list_ascii_of_string_of_list_ascii.
    apply (basex_decode_chars_digits _ B36_good).
Qed.

(** X2. Shard names round-trip: [decode_shard] reads back every name that
    [shard_name_int] writes, and [is_it_shard] accepts the name of every
    shard number below [max_num], for every [max_num] up to 36^3 (the
    default 8192 included). *)
Theorem shard_name_round_trip (n : N) (max_num : Z) :
  decode_shard (shard_name_int n) = Ok n
  /\ ((Z.of_N n < max_num)%Z -> (max_num <= 46656)%Z ->
        is_it_shard (shard_name_int n) max_num = Ok true).
Proof.
  split; [apply decode_shard_name_int|]. intros Hn Hmax.
  unfold is_it_shard.
  assert (1 <= String.length (shard_name_int n) <= 3)%nat as [Hlo Hhi].
  { unfold shard_name_int, BaseX.encode_int. destruct (n =? 0) eqn:E; [simpl; lia|].
    apply N.eqb_neq in E.
    rewrite length_string_of_list_ascii, length_map. split.
    - rewrite to_digits_eq by (vm_compute; discriminate).
      apply N.eqb_neq in E. rewrite E, length_app. simpl. lia.
    - apply to_digits_length_le; [vm_compute; discriminate|].
      change (BaseX.size B36 ^ N.of_nat 3) with 46656. lia. }
  rewrite bool_decide_false by (intros Heq; rewrite Heq in Hlo; simpl in Hlo; lia).
  rewrite bool_decide_false by lia. cbn [orb].
  rewrite lower_encode_int, decode_shard_name_int. cbn.
  rewrite !bool_decide_true by lia. reflexivity.
Qed.

Lemma shard_name_round_trip_witness :
  decode_shard (shard_name_int 8000) = Ok 8000
  /\ is_it_shard (shard_name_int 8000) 8192 = Ok true.
Proof.
  destruct (shard_name_round_trip 8000 8192) as [H1 H2].
  split; [exact H1|]. apply H2; lia.
Defined.

(** X3. [Cake.shard_num] never raises for a base of at least 256, and
    returns a number below the base, whatever the length of the data: two
    bytes or more go through [shard_num] and give the number of the first
    two bytes modulo the base, one byte is its own shard, no byte is
    shard 0. *)
Theorem Cake_shard_num_bound (c : Cake) (base : N) :
  256 <= base ->
  exists n, Cake_shard_num c base = Ok n /\ n < base
    /\ (_data c = [] -> n = 0)
    /\ (forall b, _data c = [b] -> n = Byte.to_N b)
    /\ ((2 <= length (_data c))%nat -> shard_num (_data c) base = Ok n)
    /\ (forall b1 b2 rest, _data c = b1 :: b2 :: rest ->
          n = (Byte.to_N b1 * 256 + Byte.to_N b2) mod base).
Proof.
  intros Hbase. unfold Cake_shard_num.
  destruct (_data c) as [|b1 [|b2 rest]] eqn:Hd; cbn [length].
  - rewrite bool_decide_false by lia. exists 0.
    repeat split; try lia; try done; simpl; lia.
  - rewrite bool_decide_false by lia. exists (Byte.to_N b1).
    pose proof (byte_to_N_lt b1).
    repeat split; try lia; try done; try (now intros b [= <-]); simpl; lia.
  - rewrite bool_decide_true by lia.
    destruct (shard_num_lt (b1 :: b2 :: rest) base) as (n & Hn & Hlt);
      [simpl; lia|lia|].
    exists n. repeat split; try done.
    intros b1' b2' rest' [= <- <- <-]. unfold shard_num in Hn.
    destruct (base =? 0) eqn:E; [apply N.eqb_eq in E; lia|].
    now injection Hn as <-.
Qed.

Lemma Cake_shard_num_bound_witness :
  (exists n, Cake_shard_num (mkCake [x20] INLINE SYNAPSE) MAX_NUM_OF_SHARDS = Ok n
     /\ n < MAX_NUM_OF_SHARDS
     /\ (_data (mkCake [x20] INLINE SYNAPSE) = [] -> n = 0)
     /\ (forall b, _data (mkCake [x20] INLINE SYNAPSE) = [b] -> n = Byte.to_N b)
     /\ ((2 <= length (_data (mkCake [x20] INLINE SYNAPSE)))%nat ->
           shard_num (_data (mkCake [x20] INLINE SYNAPSE)) MAX_NUM_OF_SHARDS = Ok n)
     /\ (forall b1 b2 rest, _data (mkCake [x20] INLINE SYNAPSE) = b1 :: b2 :: rest ->
           n = (Byte.to_N b1 * 256 + Byte.to_N b2) mod MAX_NUM_OF_SHARDS))
  /\ (exists n, Cake_shard_num (mkCake [xff; x21; x22] INLINE SYNAPSE) 1000 = Ok n
     /\ n < 1000
     /\ (_data (mkCake [xff; x21; x22] INLINE SYNAPSE) = [] -> n = 0)
     /\ (forall b, _data (mkCake [xff; x21; x22] INLINE SYNAPSE) = [b] -> n = Byte.to_N b)
     /\ ((2 <= length (_data (mkCake [xff; x21; x22] INLINE SYNAPSE)))%nat ->
           shard_num (_data (mkCake [xff; x21; x22] INLINE SYNAPSE)) 1000 = Ok n)
     /\ (forall b1 b2 rest,
           _data (mkCake [xff; x21; x22] INLINE SYNAPSE) = b1 :: b2 :: rest ->
           n = (Byte.to_N b1 * 256 + Byte.to_N b2) mod 1000)).
Proof.
  split.
  - apply (Cake_shard_num_bound (mkCake [x20] INLINE SYNAPSE) MAX_NUM_OF_SHARDS).
    vm_compute. discriminate.
  - apply (Cake_shard_num_bound (mkCake [xff; x21; x22] INLINE SYNAPSE) 1000).
    vm_compute. discriminate.
Defined.

(** ** [ContentAddress] *)

Lemma lower_encode_B36 (v : list byte) : lower (BaseX.encode B36 v) = BaseX.encode B36 v.
Proof.
  unfold BaseX.encode. destruct (lstrip x00 v) as [zeros rest].
  apply lower_string_of_list, Forall_app. split.
  - apply Forall_forall. intros a Ha. apply list_elem_of_In, repeat_spec in Ha. subst a.
    apply B36_char_lower.
  - apply Forall_map, Forall_forall. intros d _. apply B36_char_lower.
Qed.

(** X4. The id of a ContentAddress names it: building an address from
    the id of an address gives the same address back (hash, id and shard
    name), however the first one was built; and the id is read without
    regard to case. *)
Theorem ContentAddress_id_round_trip (h : ContentAddress_args) (ca : ContentAddress) :
  ContentAddress_init h = Ok ca ->
  ContentAddress_init (OfStr (_id ca)) = Ok ca
  /\ lower (_id ca) = _id ca
  /\ forall s, lower s = _id ca -> ContentAddress_init (OfStr s) = Ok ca.
Proof.
  intros Hca.
  assert (lower (_id ca) = _id ca /\ BaseX.decode B36 (_id ca) = Ok (hash_bytes ca)
          /\ exists n, shard_num (hash_bytes ca) MAX_NUM_OF_SHARDS = Ok n
                       /\ shard_name ca = shard_name_int n) as (Hlow & Hdec & n & Hn & Hname).
  { unfold ContentAddress_init in Hca.
    apply bind_ok_inv in Hca as ([hb id] & Hh & Hca).
    apply bind_ok_inv in Hca as (n & Hn & [= <-]). cbn.
    assert (lower id = id /\ BaseX.decode B36 id = Ok hb) as [? ?]; [|eauto 6].
    destruct h as [h|c|s].
    - injection Hh as <- <-. split; [apply lower_encode_B36|].
      apply (basex_decode_encode _ B36_good).
    - apply bind_ok_inv in Hh as (hb' & _ & [= <- <-]).
      split; [apply lower_encode_B36|]. apply (basex_decode_encode _ B36_good).
    - apply bind_ok_inv in Hh as (hb' & Hdec & [= <- <-]).
      split; [apply lower_idemp|exact Hdec]. }
  assert (forall s, lower s = _id ca -> ContentAddress_init (OfStr s) = Ok ca) as Hs.
  { intros s Hs. unfold ContentAddress_init. rewrite Hs, Hdec. cbn.
    rewrite Hn. cbn. rewrite <- Hname. now destruct ca. }
  split; [now apply Hs|]. split; [exact Hlow|exact Hs].
Qed.

Lemma ContentAddress_id_round_trip_witness :
  ContentAddress_init (OfStr "00") = Ok (mkContentAddress [x00; x00] "00" "0")
  /\ lower "00" = "00"%string
  /\ forall s, lower s = "00"%string ->
       ContentAddress_init (OfStr s) = Ok (mkContentAddress [x00; x00] "00" "0").
Proof.
  apply (ContentAddress_id_round_trip (OfStr "00")
           (mkContentAddress [x00; x00] "00" "0")).
  vm_compute. reflexivity.
Defined.

(** X5. The address of a Cake matches that Cake, has the shard name of
    the Cake, and matches another resolved Cake exactly when both carry
    the same digest, whatever their types and roles; matching a Cake that
    is not resolved raises. *)
Theorem ContentAddress_of_cake_consistent (c : Cake) (ca : ContentAddress) :
  ContentAddress_init (OfCake c) = Ok ca ->
  ContentAddress_match ca c = Ok true
  /\ Cake_shard_name c MAX_NUM_OF_SHARDS = Ok (shard_name ca)
  /\ (forall c', is_resolved (type c') = true ->
        ContentAddress_match ca c' = Ok (bool_decide (_data c' = _data c)))
  /\ (forall c', is_resolved (type c') = false ->
        ContentAddress_match ca c' = Raise AssertionError).
Proof.
  intros Hca. unfold ContentAddress_init in Hca.
  apply bind_ok_inv in Hca as ([hb id] & Hh & Hca).
  apply bind_ok_inv in Hca as (n & Hn & [= <-]).
  apply bind_ok_inv in Hh as (hb' & Hhb & [= <- <-]).
  unfold Cake_hash_bytes in Hhb.
  destruct (is_resolved (type c)) eqn:Hr; [|discriminate]. injection Hhb as <-.
  unfold ContentAddress_match, Cake_hash_bytes. cbn. rewrite Hr. cbn.
  split; [now rewrite bool_decide_true|]. split; [|split].
  - unfold Cake_shard_name, Cake_shard_num.
    destruct (_data c) as [|b1 [|b2 rest]]; try discriminate.
    rewrite bool_decide_true by (simpl; lia). now rewrite Hn.
  - intros c' ->. reflexivity.
  - intros c' ->. reflexivity.
Qed.

Lemma ContentAddress_of_cake_consistent_witness :
  let c := mkCake [x00; x00] SHA256 SYNAPSE in
  let ca := mkContentAddress [x00; x00] "00" "0" in
  ContentAddress_match ca c = Ok true
  /\ Cake_shard_name c MAX_NUM_OF_SHARDS = Ok (shard_name ca)
  /\ (forall c', is_resolved (type c') = true ->
        ContentAddress_match ca c' = Ok (bool_decide (_data c' = _data c)))
  /\ (forall c', is_resolved (type c') = false ->
        ContentAddress_match ca c' = Raise AssertionError).
Proof.
  apply (ContentAddress_of_cake_consistent (mkCake [x00; x00] SHA256 SYNAPSE)
           (mkContentAddress [x00; x00] "00" "0")).
  vm_compute. reflexivity.
Defined.

(** ** The string form of a [Cake] *)

Lemma position_Some (a : ascii) (l : list ascii) (d : N) :
  BaseX.position a l = Some d ->
  (N.to_nat d < length l)%nat /\ nth (N.to_nat d) l "000"%char = a.
Proof.
  revert d. induction l as [|x l IH]; intros d; simpl; [discriminate|].
  destruct (decide (x = a)) as [->|Hne].
  - intros [= <-]. simpl. split; [lia|reflexivity].
  - destruct (BaseX.position a l) as [d'|]; [|discriminate].
    intros [= <-]. destruct (IH d' eq_refl) as [Hlt Hnth].
    rewrite N2Nat.inj_succ. simpl. split; [lia|exact Hnth].
Qed.

Lemma basex_index_Some (c : BaseX.codec) (a : ascii) (d : N) :
  BaseX.index c a = Ok d -> d < BaseX.size c /\ BaseX.char_of c d = a.
Proof.
  unfold BaseX.index, BaseX.size, BaseX.char_of.
  destruct (BaseX.position a (BaseX.alphabet c)) as [d'|] eqn:E; [|discriminate].
  intros [= <-]. apply position_Some in E as [Hlt Hnth]. split; [lia|exact Hnth].
Qed.

Lemma mapM_index_Some (c : BaseX.codec) (v : list ascii) (ds : list N) :
  mapM (BaseX.index c) v = Ok ds ->
  Forall (fun d => d < BaseX.size c) ds /\ map (BaseX.char_of c) ds = v.
Proof.
  revert ds. induction v as [|a v IH]; intros ds; simpl.
  - intros [= <-]. split; [constructor|reflexivity].
  - intros H. apply bind_ok_inv in H as (d & Hd & H).
    apply bind_ok_inv in H as (ds' & Hds & [= <-]).
    apply basex_index_Some in Hd as [Hlt Hc]. destruct (IH _ Hds) as [Hall Hmap].
    split; [now constructor|]. simpl. now rewrite Hc, Hmap.
Qed.

(** Decoding accepts only what encoding produces. *)
Lemma basex_encode_decode (c : BaseX.codec) (s : string) (v : list byte) :
  BaseX.good c -> BaseX.decode c s = Ok v -> BaseX.encode c v = s.
Proof.
  intros Hgood. unfold BaseX.decode.
  destruct (lstrip_spec (BaseX.zero_char c) (list_ascii_of_string s)) as [Hs Hh].
  destruct (lstrip (BaseX.zero_char c) (list_ascii_of_string s)) as [zeros rest].
  simpl in Hs, Hh. intros H. apply bind_ok_inv in H as (acc & Hacc & [= <-]).
  unfold BaseX.decode_chars in Hacc.
  apply bind_ok_inv in Hacc as (ds & Hds & [= <-]).
  apply mapM_index_Some in Hds as [Hall Hmap].
  assert (2 <= BaseX.size c) as Hsize by apply Hgood.
  assert (head ds <> Some 0) as Hds0.
  { destruct ds as [|d ds]; [done|]. intros [= ->]. subst rest. now apply Hh. }
  set (acc := of_digits (BaseX.size c) ds).
  unfold BaseX.encode. rewrite lstrip_repeat.
  - rewrite map_map.
    rewrite (map_ext_Forall _ id).
    + rewrite map_id, of_to_digits by lia. unfold acc.
      rewrite to_of_digits by (lia || assumption).
      rewrite Hmap, <- Hs. apply string_of_list_ascii_of_string.
    + eapply Forall_impl; [apply (to_digits_bounded 256); lia|].
      intros d Hd. now apply byte_to_of_N.
  - pose proof (to_digits_head 256 ltac:(lia) acc) as Hh'.
    pose proof (to_digits_bounded 256 ltac:(lia) acc) as Hb.
    destruct (to_digits 256 acc) as [|d ds']; [done|]. simpl in *.
    intros [= Hz]. apply Hh'. f_equal.
    apply Forall_inv in Hb. rewrite <- (byte_to_of_N d Hb), Hz. reflexivity.
Qed.

Lemma header_of_byte (b : byte) (t : CakeType) (r : CakeRole) :
  CakeType_find_by_code (N.shiftr (Byte.to_N b) 1) = Ok t ->
  CakeRole_find_by_code (N.land (Byte.to_N b) 1) = Ok r ->
  byte_of_N (_header t r) = b.
Proof.
  destruct b; vm_compute; try discriminate;
    intros [= <-] [= <-]; reflexivity.
Qed.

(** X6. A string that [Cake(s)] accepts is the string form of the Cake
    it builds: every Cake has exactly one spelling, so a string with a
    redundant or unknown header, or of the wrong length, is refused. *)
Theorem Cake_str_canonical (s : string) (c : Cake) :
  Cake_init (FromStr s) = Ok c -> Cake_str c = s.
Proof.
  intros H. unfold Cake_init in H.
  apply bind_ok_inv in H as (self & Hself & H).
  destruct (negb (has_data self) && _); [discriminate|]. injection H as <-.
  apply bind_ok_inv in Hself as (decoded & Hdec & Hself).
  destruct decoded as [|header rest]; [discriminate|].
  apply bind_ok_inv in Hself as (t & Ht & Hself).
  apply bind_ok_inv in Hself as (r & Hr & [= <-]).
  unfold Cake_str, pack_in_bytes. cbn [type role _data].
  rewrite (header_of_byte header t r Ht Hr).
  apply (basex_encode_decode B62); [apply B62_good|exact Hdec].
Qed.

Lemma Cake_str_canonical_witness :
  Cake_str (mkCake [x61] INLINE SYNAPSE) = "01z"%string.
Proof.
  apply (Cake_str_canonical "01z" (mkCake [x61] INLINE SYNAPSE)).
  vm_compute. reflexivity.
Defined.

(** X7. Two Cakes that satisfy the constructor's length rule are equal
    ([__eq__]: same data, type and role) exactly when their string forms
    are equal. *)
Theorem Cake_eq_iff_str (c1 c2 : Cake) :
  Cake_wf c1 -> Cake_wf c2 ->
  Cake_eq c1 c2 = bool_decide (Cake_str c1 = Cake_str c2).
Proof.
  intros H1 H2.
  assert (Cake_eq c1 c2 = bool_decide (c1 = c2)) as ->.
  { unfold Cake_eq. destruct c1 as [d1 t1 r1], c2 as [d2 t2 r2]. cbn.
    repeat case_bool_decide; simpl; congruence. }
  apply bool_decide_ext. split; [now intros ->|].
  intros Hs. apply Cake_init_str in H1, H2. rewrite Hs in H1. congruence.
Qed.

Lemma Cake_eq_iff_str_witness :
  Cake_eq (mkCake [x61] INLINE SYNAPSE) (mkCake [x61] INLINE NEURON)
  = bool_decide (Cake_str (mkCake [x61] INLINE SYNAPSE)
                 = Cake_str (mkCake [x61] INLINE NEURON)).
Proof.
  apply (Cake_eq_iff_str (mkCake [x61] INLINE SYNAPSE) (mkCake [x61] INLINE NEURON));
    intros Hd; vm_compute in Hd; discriminate Hd.
Defined.

(** ** Portals *)

(** X8. [new_portal] with 32 random bytes: for a portal type (PORTAL by
    default) it gives the Cake of these bytes with the given type and
    role (SYNAPSE by default), which is mutable, has no data and no
    [hash_bytes], and which [transform_portal] without arguments leaves
    as it is; for any other type it raises. *)
Theorem new_portal_spec (urandom32 : list byte) (role_arg : option CakeRole)
    (type_arg : option CakeType) :
  length urandom32 = 32%nat ->
  let t := default PORTAL type_arg in
  let c := mkCake urandom32 t (default SYNAPSE role_arg) in
  (is_portal t = true ->
     new_portal urandom32 role_arg type_arg = Ok c
     /\ is_immutable c = false /\ Cake_data c = None
     /\ Cake_hash_bytes c = Raise AssertionError
     /\ transform_portal c None None = Ok c)
  /\ (is_portal t = false ->
     new_portal urandom32 role_arg type_arg = Raise AssertionError).
Proof.
  intros Hlen t c. unfold new_portal. fold t.
  rewrite (Cake_init_parts urandom32 t (default SYNAPSE role_arg)) by (intros _; exact Hlen).
  fold c. cbn. unfold assert_portal. cbn [type c].
  split; intros Hp; rewrite Hp; cbn; [|reflexivity].
  split; [reflexivity|].
  unfold is_immutable, Cake_data, Cake_hash_bytes, has_data, transform_portal,
    assert_portal. cbn [type role _data c]. rewrite Hp.
  cbn. rewrite (bool_decide_true (t = t)), (bool_decide_true (default _ _ = _))
    by reflexivity.
  clearbody t. destruct t; try discriminate Hp; repeat split; reflexivity.
Qed.

Lemma new_portal_spec_witness :
  let t := default PORTAL (Some VTREE) in
  let c := mkCake (repeat x07 32) t (default SYNAPSE None) in
  (is_portal t = true ->
     new_portal (repeat x07 32) None (Some VTREE) = Ok c
     /\ is_immutable c = false /\ Cake_data c = None
     /\ Cake_hash_bytes c = Raise AssertionError
     /\ transform_portal c None None = Ok c)
  /\ (is_portal t = false ->
     new_portal (repeat x07 32) None (Some VTREE) = Raise AssertionError).
Proof.
  apply (new_portal_spec (repeat x07 32) None (Some VTREE)). reflexivity.
Defined.

(** X9. Every type is of exactly one kind: INLINE, resolved or portal
    (a vtree being a portal).  So a Cake is immutable exactly when its
    type is no portal, and exactly the portals pass [assert_portal];
    only a resolved Cake has [hash_bytes], and only an INLINE Cake has
    data. *)
Theorem CakeType_kinds (c : Cake) :
  (has_data c = true /\ is_resolved (type c) = false /\ is_portal (type c) = false
   \/ has_data c = false /\ is_resolved (type c) = true /\ is_portal (type c) = false
   \/ has_data c = false /\ is_resolved (type c) = false /\ is_portal (type c) = true)
  /\ (is_vtree (type c) = true -> is_portal (type c) = true)
  /\ is_immutable c = negb (is_portal (type c))
  /\ (assert_portal c = Ok tt <-> is_portal (type c) = true)
  /\ (Cake_hash_bytes c = Ok (_data c) <-> is_resolved (type c) = true)
  /\ (Cake_data c = Some (_data c) <-> type c = INLINE).
Proof.
  destruct c as [d [] r]; cbn;
    repeat split; try tauto; try discriminate; try reflexivity;
    auto 6; intros; discriminate.
Qed.

(** X10. [portal_from_name]: no name or the empty name gives PORTAL; the
    name of a portal type gives that type; the name of another type is
    a ValueError and an unknown name a KeyError.  A returned type is
    always a portal type. *)
Theorem portal_from_name_spec (n : option string) :
  (n = None \/ n = Some EmptyString -> portal_from_name n = Ok PORTAL)
  /\ (forall t, n = Some (CakeType_name t) ->
        portal_from_name n = if is_portal t then Ok t else Raise ValueError)
  /\ (forall s, n = Some s -> s <> EmptyString ->
        (forall t, CakeType_name t <> s) -> portal_from_name n = Raise KeyError)
  /\ (forall t, portal_from_name n = Ok t ->
        is_portal t = true
        /\ (n = None \/ n = Some EmptyString \/ n = Some (CakeType_name t))).
Proof.
  assert (forall t, CakeType_getitem (CakeType_name t) = Ok t) as Hget
    by (intros []; reflexivity).
  assert (forall s t, CakeType_getitem s = Ok t -> s = CakeType_name t) as Hinv.
  { intros s t. unfold CakeType_getitem.
    destruct (list_find _ _) as [[i t']|] eqn:E; [|discriminate].
    intros [= <-]. apply list_find_Some in E as (_ & <- & _). reflexivity. }
  split; [|split; [|split]].
  - intros [->| ->]; reflexivity.
  - intros t ->. unfold portal_from_name.
    rewrite bool_decide_false by (destruct t; discriminate).
    rewrite Hget. reflexivity.
  - intros s -> Hs Hno. unfold portal_from_name.
    rewrite bool_decide_false by exact Hs.
    destruct (CakeType_getitem s) as [t|e] eqn:E.
    + apply Hinv in E. now destruct (Hno t).
    + unfold CakeType_getitem in E.
      destruct (list_find _ _) as [[i t']|]; [discriminate|].
      injection E as <-. reflexivity.
  - intros t. destruct n as [s|]; cbn.
    + case_bool_decide as Hs.
      * intros [= <-]. subst s. auto.
      * intros H. apply bind_ok_inv in H as (ct & Hct & H).
        destruct (is_portal ct) eqn:Hp; [|discriminate]. injection H as <-.
        apply Hinv in Hct. subst s. auto.
    + intros [= <-]. auto.
Qed.

(** ** [process_stream] *)

Lemma process_stream_loop_eq {St : Type} (fd : stream)
    (on_chunk : list byte -> St -> St) (chunk_size : N)
    (inline_data : list byte) (hasher : Hasher) (len : nat) (st : St) :
  process_stream_loop fd on_chunk chunk_size inline_data hasher len st =
    match read (N.to_nat chunk_size) fd with
    | ([], _) => (inline_data, hasher, len, st)
    | (chunk, fd') =>
        let len' := (len + length chunk)%nat in
        process_stream_loop fd' on_chunk chunk_size
          (if bool_decide (len' <= inline_max_bytes)%nat
           then inline_data ++ chunk else inline_data)
          (Hasher_update hasher chunk) len' (on_chunk chunk st)
    end.
Proof.
  funelim (process_stream_loop fd on_chunk chunk_size inline_data hasher len st).
  - now rewrite e.
  - now rewrite Hchunk.
Qed.

(** The chunks of a read are those asked for, or fewer. *)
Lemma read_length (n : nat) (fd fd' : stream) (chunk : list byte) :
  read n fd = (chunk, fd') -> (length chunk <= n)%nat.
Proof.
  induction fd as [|piece fd IH]; [intros [= <- <-]; simpl; lia|].
  destruct piece as [|x piece]; [exact IH|].
  intros [= <- <-]. rewrite length_firstn. lia.
Qed.

Lemma process_stream_loop_chunks (k : nat) (fd : stream) (chunk_size : N) :
  (length (concat fd) <= k)%nat -> 0 < chunk_size ->
  exists chunks : list (list byte),
    concat chunks = concat fd
    /\ Forall (fun c => c <> [] /\ (length c <= N.to_nat chunk_size)%nat) chunks
    /\ (forall b, fd = BytesIO b ->
          forall i c, chunks !! i = Some c -> (S i < length chunks)%nat ->
                      length c = N.to_nat chunk_size)
    /\ forall (St : Type) (on_chunk : list byte -> St -> St) inline_data hasher len st,
         snd (process_stream_loop fd on_chunk chunk_size inline_data hasher len st)
         = fold_left (fun s c => on_chunk c s) chunks st.
Proof.
  revert fd. induction k as [|k IH]; intros fd Hk Hcs.
  - assert (concat fd = []) as Hnil by (destruct (concat fd); [done|simpl in Hk; lia]).
    assert (fst (read (N.to_nat chunk_size) fd) = []) as Hread.
    { destruct (read (N.to_nat chunk_size) fd) as [chunk fd'] eqn:E.
      apply read_concat in E. rewrite Hnil in E. now destruct chunk. }
    exists []. split; [now rewrite Hnil|]. split; [constructor|].
    split; [intros b _ i c; discriminate|].
    intros. rewrite process_stream_loop_eq.
    destruct (read (N.to_nat chunk_size) fd) as [chunk fd']. simpl in Hread.
    now subst chunk.
  - destruct (read (N.to_nat chunk_size) fd) as [[|x chunk] fd'] eqn:Hread.
    + exists []. pose proof (read_nil (N.to_nat chunk_size) _ _ ltac:(lia) Hread) as Hnil.
      split; [now rewrite Hnil|]. split; [constructor|].
      split; [intros b _ i c; discriminate|].
      intros. rewrite process_stream_loop_eq. now rewrite Hread.
    + pose proof (read_concat _ _ _ _ Hread) as Hfd.
      pose proof (read_length _ _ _ _ Hread) as Hlen.
      destruct (IH fd') as (chunks & Hcat & Hall & Hfull & Hfold).
      { rewrite Hfd, length_app in Hk. simpl in Hk. lia. }
      { exact Hcs. }
      exists ((x :: chunk) :: chunks).
      split; [cbn [concat]; now rewrite Hcat, Hfd|].
      split; [constructor; [split; [done|exact Hlen]|exact Hall]|].
      split.
      { intros b -> i c. unfold BytesIO in Hread. cbn [read] in Hread.
        destruct b as [|y b]; [discriminate|]. injection Hread as Hx Hfd'.
        destruct i as [|i]; cbn [lookup list_lookup].
        - intros [= <-] Hi. rewrite <- Hx, length_firstn.
          destruct chunks as [|c' chunks]; [simpl in Hi; lia|].
          apply Forall_inv in Hall as [Hne _].
          assert (skipn (N.to_nat chunk_size) (y :: b) <> []) as Hsk.
          { intros Hsk. rewrite <- Hfd', Hsk in Hcat. cbn in Hcat.
            destruct c'; [done|discriminate]. }
          assert (N.to_nat chunk_size < length (y :: b))%nat; [|lia].
          destruct (Nat.lt_ge_cases (N.to_nat chunk_size) (length (y :: b))); [done|].
          now rewrite skipn_all2 in Hsk.
        - intros Hc Hi.
          apply (Hfull (skipn (N.to_nat chunk_size) (y :: b)) (eq_sym Hfd') i c Hc).
          simpl in Hi. lia. }
      intros. rewrite process_stream_loop_eq, Hread. cbn zeta.
      rewrite Hfold. reflexivity.
Qed.

(** X11. [process_stream] reads the stream in chunks of at most
    [chunk_size] bytes, however many bytes each read returns: the chunks
    handed to [on_chunk], in order, are non-empty and together they are
    the stream; the callback is called on them one after the other and on
    nothing else, and the digest and the inline data do not depend on
    the chunk size or on the sizes of the reads.  On a [BytesIO] all
    chunks but the last have exactly [chunk_size] bytes.  With a chunk
    size of 0 nothing is read: the result is that of the empty stream. *)
Theorem process_stream_chunks (fd : stream) (chunk_size : N) :
  let chunks := snd (process_stream fd (fun c l => l ++ [c]) chunk_size []) in
  (chunk_size = 0 ->
     forall (St : Type) (on_chunk : list byte -> St -> St) (st : St),
       process_stream fd on_chunk chunk_size st
       = ((hashlib.sha256 [], Some []), st))
  /\ (0 < chunk_size ->
     concat chunks = concat fd
     /\ Forall (fun c => c <> [] /\ (length c <= N.to_nat chunk_size)%nat) chunks
     /\ (forall b, fd = BytesIO b ->
           forall i c, chunks !! i = Some c -> (S i < length chunks)%nat ->
                       length c = N.to_nat chunk_size)
     /\ forall (St : Type) (on_chunk : list byte -> St -> St) (st : St),
          process_stream fd on_chunk chunk_size st
          = ((hashlib.sha256 (concat fd),
              if bool_decide (inline_max_bytes < length (concat fd))%nat
              then None else Some (concat fd)),
             fold_left (fun s c => on_chunk c s) chunks st)).
Proof.
  intros chunks. split.
  - intros -> St on_chunk st. unfold process_stream.
    rewrite process_stream_loop_eq.
    assert (fst (read (N.to_nat 0) fd) = []) as Hread.
    { induction fd as [|[|x piece] fd IH]; [done|exact IH|done]. }
    destruct (read (N.to_nat 0) fd) as [chunk fd']. simpl in Hread. now subst chunk.
  - intros Hcs.
    destruct (process_stream_loop_chunks (length (concat fd)) fd chunk_size
                (Nat.le_refl _) Hcs)
      as (chunks' & Hcat & Hall & Hfull & Hfold).
    assert (forall (St : Type) (on_chunk : list byte -> St -> St) (st : St),
              snd (process_stream fd on_chunk chunk_size st)
              = fold_left (fun s c => on_chunk c s) chunks' st) as Hsnd.
    { intros St on_chunk st. unfold process_stream.
      rewrite <- (Hfold St on_chunk [] (Hasher_init None) 0%nat st).
      now destruct (process_stream_loop _ _ _ _ _ _ _) as [[[? ?] ?] ?]. }
    assert (chunks = chunks') as ->.
    { unfold chunks. rewrite Hsnd. clear.
      assert (forall acc : list (list byte),
                fold_left (fun l c => l ++ [c]) chunks' acc = acc ++ chunks') as H;
        [|apply (H [])].
      induction chunks' as [|c cs IH]; intros acc; simpl; [now rewrite app_nil_r|].
      rewrite IH, <- app_assoc. reflexivity. }
    split; [exact Hcat|]. split; [exact Hall|]. split; [exact Hfull|].
    intros St on_chunk st.
    rewrite (surjective_pairing (process_stream fd on_chunk chunk_size st)).
    now rewrite process_stream_spec, Hsnd.
Qed.

(** ** The caches of a [CakeRack] *)

Lemma str_text (r : CakeRack) : CakeRack_str r = Ok (text_of_store (store r)).
Proof.
  rewrite CakeRack_str_spec. unfold text_of_store, rack_cakes, CakeRack_keys.
  cbv zeta. now rewrite <- list_fmap_compose.
Qed.

(** [Cake.from_digest_and_inline_data] on the bytes and their digest is
    [Cake.from_bytes] on the bytes. *)
Lemma cake_of_bytes (b : list byte) (role : CakeRole) :
  from_digest_and_inline_data (Hasher_digest (Hasher_init (Some b))) (Some b) role
    = from_bytes b role.
Proof.
  rewrite from_bytes_spec.
  unfold from_digest_and_inline_data, Hasher_digest, Hasher_init, Hasher_update.
  cbn [app]. destruct (bool_decide (length b <= inline_max_bytes)%nat) eqn:Hlen.
  - now apply Cake_init_parts.
  - apply Cake_init_parts. intros _. apply sha256_length.
Qed.

(** What the calls that fill a cache leave alone. *)
Lemma content_keeps (r r' : CakeRack) (s : string) :
  content r = Ok (s, r') ->
  store r' = store r /\ _size r' = _size r /\ _defined r' = _defined r.
Proof.
  unfold content. destruct (_content r); [now intros [= _ <-]|].
  intros H. apply bind_ok_inv in H as (s' & _ & [= _ <-]). done.
Qed.

Lemma in_bytes_keeps (r r' : CakeRack) (b : list byte) :
  in_bytes r = Ok (b, r') ->
  store r' = store r /\ _size r' = _size r /\ _defined r' = _defined r.
Proof.
  unfold in_bytes. destruct (_in_bytes r); [now intros [= _ <-]|].
  intros H. apply bind_ok_inv in H as ([s r1] & Hc & [= _ <-]).
  now apply content_keeps in Hc.
Qed.

Lemma cake_keeps (r r' : CakeRack) (c : Cake) :
  CakeRack_cake r = Ok (c, r') ->
  store r' = store r /\ _size r' = _size r /\ _defined r' = _defined r.
Proof.
  unfold CakeRack_cake. destruct (_cake r); [now intros [= _ <-]|].
  intros H. apply bind_ok_inv in H as ([b r1] & Hb & H).
  apply bind_ok_inv in H as (c' & _ & [= _ <-]).
  now apply in_bytes_keeps in Hb.
Qed.

Lemma caches_fresh_fields (r r' : CakeRack) :
  store r' = store r ->
  (let text := text_of_store (store r) in
   cache_ok (_content r') (Ok text)
   /\ cache_ok (_in_bytes r') (Ok (bytes_of_str text))
   /\ cache_ok (_cake r') (from_bytes (bytes_of_str text) NEURON)
   /\ cache_ok (_size r') (Ok (length (bytes_of_str text)))
   /\ cache_ok (_defined r') (Ok (defined_of_store (store r)))) ->
  caches_fresh r'.
Proof. intros Hst H. unfold caches_fresh. rewrite Hst. exact H. Qed.

(** Each call that fills a cache returns what the store says and leaves
    the store and the freshness of the caches as they are. *)
Lemma content_filled (r : CakeRack) :
  caches_fresh r ->
  exists r', content r = Ok (text_of_store (store r), r')
    /\ store r' = store r /\ caches_fresh r'.
Proof.
  intros Hfresh. pose proof Hfresh as (Hc & Hb & Hk & Hs & Hd). unfold content.
  destruct (_content r) as [s|] eqn:Es.
  - injection Hc as <-. now exists r.
  - rewrite str_text. eexists. split; [reflexivity|]. split; [reflexivity|].
    apply (caches_fresh_fields r); [reflexivity|]. repeat split; assumption.
Qed.

Lemma in_bytes_filled (r : CakeRack) :
  caches_fresh r ->
  exists r', in_bytes r = Ok (bytes_of_str (text_of_store (store r)), r')
    /\ store r' = store r /\ caches_fresh r'.
Proof.
  intros Hfresh. pose proof Hfresh as (Hc & Hb & Hk & Hs & Hd). unfold in_bytes.
  destruct (_in_bytes r) as [b|] eqn:Eb.
  - injection Hb as <-. now exists r.
  - destruct (content_filled r Hfresh) as (r1 & -> & Hst & H1).
    destruct H1 as (Hc1 & _ & Hk1 & Hs1 & Hd1). rewrite Hst in Hc1, Hk1, Hs1, Hd1.
    eexists. split; [reflexivity|]. split; [exact Hst|].
    apply (caches_fresh_fields r); [exact Hst|]. repeat split; assumption.
Qed.

Lemma cake_filled (r : CakeRack) :
  caches_fresh r ->
  exists c r', CakeRack_cake r = Ok (c, r')
    /\ from_bytes (bytes_of_str (text_of_store (store r))) NEURON = Ok c
    /\ store r' = store r /\ caches_fresh r'.
Proof.
  intros Hfresh. pose proof Hfresh as (Hc & Hb & Hk & Hs & Hd). unfold CakeRack_cake.
  destruct (_cake r) as [c|] eqn:Ec.
  - exists c, r. split; [reflexivity|]. split; [exact Hk|]. split; [reflexivity|exact Hfresh].
  - destruct (in_bytes_filled r Hfresh) as (r1 & -> & Hst & H1).
    destruct H1 as (Hc1 & Hb1 & _ & Hs1 & Hd1). rewrite Hst in Hc1, Hb1, Hs1, Hd1.
    cbn [mbind result_bind]. rewrite cake_of_bytes.
    destruct (from_bytes (bytes_of_str (text_of_store (store r))) NEURON)
      as [c|e] eqn:Efb; [|now rewrite from_bytes_spec in Efb].
    eexists c, _. split; [reflexivity|]. split; [reflexivity|]. split; [exact Hst|].
    apply (caches_fresh_fields r); [exact Hst|]. repeat split; assumption.
Qed.

Lemma size_filled (r : CakeRack) :
  caches_fresh r ->
  exists r', CakeRack_size r = Ok (length (bytes_of_str (text_of_store (store r))), r')
    /\ store r' = store r /\ caches_fresh r'.
Proof.
  intros Hfresh. pose proof Hfresh as (Hc & Hb & Hk & Hs & Hd). unfold CakeRack_size.
  destruct (_size r) as [n|] eqn:En.
  - injection Hs as <-. now exists r.
  - destruct (in_bytes_filled r Hfresh) as (r1 & -> & Hst & H1).
    destruct H1 as (Hc1 & Hb1 & Hk1 & _ & Hd1). rewrite Hst in Hc1, Hb1, Hk1, Hd1.
    eexists. split; [reflexivity|]. split; [exact Hst|].
    apply (caches_fresh_fields r); [exact Hst|]. repeat split; assumption.
Qed.

Lemma is_defined_filled (r : CakeRack) :
  caches_fresh r ->
  (is_defined r).1 = defined_of_store (store r)
  /\ store (is_defined r).2 = store r /\ caches_fresh (is_defined r).2.
Proof.
  intros Hfresh. pose proof Hfresh as (Hc & Hb & Hk & Hs & Hd). unfold is_defined.
  destruct (_defined r) as [d|] eqn:Ed.
  - injection Hd as <-. done.
  - split; [reflexivity|]. split; [reflexivity|].
    apply (caches_fresh_fields r); [reflexivity|]. repeat split; assumption.
Qed.

(** Every call leaves the caches fresh: [__setitem__], [__delitem__] and
    [parse] because they empty them before they touch the store. *)
Lemma run_op_fresh (r r' : CakeRack) (op : rack_op) :
  caches_fresh r -> run_op r op = Ok r' -> caches_fresh r'.
Proof.
  intros Hfresh Hop. destruct op as [k v|k|names cakes| | | | |]; cbn [run_op] in Hop.
  - unfold CakeRack_setitem in Hop.
    apply bind_ok_inv in Hop as (v' & _ & [= <-]). repeat split.
  - unfold CakeRack_delitem in Hop. cbn [_clear_cached store] in Hop.
    destruct (store r !! k); [|discriminate]. injection Hop as <-. repeat split.
  - unfold parse in Hop.
    apply bind_ok_inv in Hop as (items & _ & [= <-]). repeat split.
  - destruct (cake_filled r Hfresh) as (c & r1 & E & _ & _ & H1).
    rewrite E in Hop. now injection Hop as <-.
  - destruct (content_filled r Hfresh) as (r1 & E & _ & H1).
    rewrite E in Hop. now injection Hop as <-.
  - destruct (in_bytes_filled r Hfresh) as (r1 & E & _ & H1).
    rewrite E in Hop. now injection Hop as <-.
  - destruct (size_filled r Hfresh) as (r1 & E & _ & H1).
    rewrite E in Hop. now injection Hop as <-.
  - injection Hop as <-. now apply is_defined_filled.
Qed.

Lemma run_ops_fresh (ops : list rack_op) (r r' : CakeRack) :
  caches_fresh r -> run_ops r ops = Ok r' -> caches_fresh r'.
Proof.
  revert r. induction ops as [|op ops IH]; intros r Hfresh Hrun; simpl in Hrun.
  - now injection Hrun as <-.
  - apply bind_ok_inv in Hrun as (r1 & Hop & Hrun).
    exact (IH r1 (run_op_fresh r r1 op Hfresh Hop) Hrun).
Qed.

(** X12. The caches of a rack are never stale: after any sequence of
    calls ([__setitem__], [__delitem__], [parse] of a pair of lists,
    [cake], [content], [in_bytes], [size], [is_defined]) on a new rack,
    [content()] returns the text of the store as it is now (the JSON text
    of its names in order and of their cakes), [in_bytes()] the bytes of
    that text, [size()] their number, [cake()] the Cake of those bytes
    with the role NEURON, and [is_defined()] whether the store has no
    missing cake now. *)
Theorem rack_caches_never_stale (ops : list rack_op) (r0 r : CakeRack) :
  CakeRack_init None = Ok r0 -> run_ops r0 ops = Ok r ->
  let text := text_of_store (store r) in
  fst <$> content r = Ok text
  /\ fst <$> in_bytes r = Ok (bytes_of_str text)
  /\ fst <$> CakeRack_size r = Ok (length (bytes_of_str text))
  /\ fst <$> CakeRack_cake r = from_bytes (bytes_of_str text) NEURON
  /\ (is_defined r).1 = defined_of_store (store r).
Proof.
  intros Hinit Hrun text.
  assert (caches_fresh r0) as H0 by (injection Hinit as <-; repeat split).
  pose proof (run_ops_fresh ops r0 r H0 Hrun) as Hfresh. subst text.
  destruct (content_filled r Hfresh) as (r1 & -> & _).
  destruct (in_bytes_filled r Hfresh) as (r2 & -> & _).
  destruct (size_filled r Hfresh) as (r3 & -> & _).
  destruct (cake_filled r Hfresh) as (c & r4 & -> & -> & _).
  repeat split. now apply is_defined_filled.
Qed.

Lemma rack_caches_never_stale_witness :
  let r := mkCakeRack (<[py "a" := None]> ∅) None None None None (Some false) in
  let text := text_of_store (store r) in
  fst <$> content r = Ok text
  /\ fst <$> in_bytes r = Ok (bytes_of_str text)
  /\ fst <$> CakeRack_size r = Ok (length (bytes_of_str text))
  /\ fst <$> CakeRack_cake r = from_bytes (bytes_of_str text) NEURON
  /\ (is_defined r).1 = defined_of_store (store r).
Proof.
  refine (rack_caches_never_stale
            [OpContent; OpSetitem (py "a") NoCake; OpIsDefined]
            (mkCakeRack ∅ None None None None None)
            (mkCakeRack (<[py "a" := None]> ∅) None None None None (Some false)) _ _).
  - reflexivity.
  - vm_compute. reflexivity.
Defined.

(** ** The names and the cakes of a [CakeRack] *)

Lemma keys_sorted (r : CakeRack) : StronglySorted (strict pystr_le) (CakeRack_keys r).
Proof.
  apply StronglySorted_strict; [apply _| |apply NoDup_keys].
  apply StronglySorted_merge_sort; apply _.
Qed.

Lemma length_keys (r : CakeRack) : length (CakeRack_keys r) = CakeRack_len r.
Proof.
  unfold CakeRack_keys, CakeRack_len.
  rewrite merge_sort_Permutation, length_fmap. apply length_map_to_list.
Qed.

Lemma zip_ensure_cakes (ks : list pystr) (vs : list (option Cake)) :
  zip_ensure Ok ensure_it_or_none ks (cake_like_of <$> vs) = Ok (zip ks vs).
Proof.
  revert vs. induction ks as [|k ks IH]; intros vs; [done|].
  destruct vs as [|v vs]; [done|]. cbn.
  destruct v as [c|]; cbn; now rewrite IH.
Qed.

(** X13. [to_json] gives the names of the rack in strictly ascending
    order and, at the same positions, their values; both lists are as
    long as the rack, [get_cakes()] without names is the second one, and
    a new rack made from the pair has the same store. *)
Theorem to_json_spec (r : CakeRack) :
  exists keys cakes,
    to_json r = Ok (keys, cakes)
    /\ keys = CakeRack_keys r
    /\ StronglySorted (strict pystr_le) keys
    /\ (forall k, k ∈ keys <-> CakeRack_contains r k = true)
    /\ length keys = CakeRack_len r /\ length cakes = CakeRack_len r
    /\ (forall i k, keys !! i = Some k ->
          exists v, cakes !! i = Some v /\ CakeRack_getitem r k = Ok v)
    /\ get_cakes r None = Ok cakes
    /\ CakeRack_init (Some (ParsePair keys (cake_like_of <$> cakes)))
       = Ok (_clear_cached r).
Proof.
  exists (CakeRack_keys r), (rack_cakes r).
  split; [unfold to_json; now rewrite get_cakes_keys|].
  split; [reflexivity|]. split; [apply keys_sorted|].
  split.
  { intros k. rewrite elem_of_keys. unfold CakeRack_contains.
    now rewrite bool_decide_eq_true. }
  split; [apply length_keys|].
  split; [unfold rack_cakes; rewrite length_fmap; apply length_keys|].
  split.
  { intros i k Hi. unfold rack_cakes. rewrite list_lookup_fmap, Hi. cbn.
    assert (k ∈ CakeRack_keys r) as Hk by (eapply list_elem_of_lookup_2; eauto).
    apply elem_of_keys in Hk as [v Hv]. exists v.
    unfold CakeRack_getitem. rewrite Hv. done. }
  split; [apply get_cakes_keys|].
  unfold CakeRack_init, parse. cbn [_clear_cached store _cake _content _size _in_bytes _defined].
  rewrite zip_ensure_cakes. cbn. now rewrite store_update_rack.
Qed.

(** X14. A rack as a dictionary.  [rack[k] = v] makes [k] a name of the
    rack with the Cake of [v] as its value and leaves every other name
    alone; it raises when [v] is a string that is no Cake.  [del rack[k]]
    raises a KeyError when [k] is no name of the rack and otherwise
    removes [k] only, after which [rack[k]] raises a KeyError. *)
Theorem rack_dict_laws (r : CakeRack) (k : pystr) (v : cake_like) :
  (forall v', ensure_it_or_none v = Ok v' ->
     exists r', CakeRack_setitem r k v = Ok r'
       /\ CakeRack_getitem r' k = Ok v' /\ CakeRack_contains r' k = true
       /\ CakeRack_len r' = (if CakeRack_contains r k then CakeRack_len r
                             else S (CakeRack_len r))
       /\ forall k', k' <> k -> CakeRack_getitem r' k' = CakeRack_getitem r k')
  /\ (forall e, ensure_it_or_none v = Raise e -> CakeRack_setitem r k v = Raise e)
  /\ (CakeRack_contains r k = false ->
        CakeRack_delitem r k = Raise KeyError
        /\ CakeRack_getitem r k = Raise KeyError)
  /\ (CakeRack_contains r k = true ->
        exists r', CakeRack_delitem r k = Ok r'
          /\ CakeRack_getitem r' k = Raise KeyError
          /\ CakeRack_contains r' k = false
          /\ S (CakeRack_len r') = CakeRack_len r
          /\ forall k', k' <> k -> CakeRack_getitem r' k' = CakeRack_getitem r k').
Proof.
  unfold CakeRack_setitem, CakeRack_delitem, CakeRack_getitem, CakeRack_contains,
    CakeRack_len. cbn [_clear_cached store _cake _content _size _in_bytes _defined].
  split; [|split; [|split]].
  - intros v' ->. cbn. eexists. split; [reflexivity|]. cbn.
    rewrite lookup_insert_eq. split; [done|].
    split; [apply bool_decide_eq_true; eauto|]. split.
    + case_bool_decide as Hk.
      * destruct Hk as [w Hw]. rewrite <- (insert_id _ _ _ Hw) at 2.
        rewrite <- (insert_delete_eq (store r)), <- (insert_delete_eq (store r) k w).
        rewrite !map_size_insert_None by apply lookup_delete_eq. done.
      * apply map_size_insert_None. now apply eq_None_not_Some.
    + intros k' Hk'. now rewrite lookup_insert_ne.
  - intros e ->. reflexivity.
  - intros Hk. apply bool_decide_eq_false, eq_None_not_Some in Hk. now rewrite Hk.
  - intros Hk. apply bool_decide_eq_true in Hk as [w Hw]. rewrite Hw.
    eexists. split; [reflexivity|]. cbn. rewrite lookup_delete_eq.
    split; [done|]. split; [apply bool_decide_eq_false; now intros [? ?]|].
    split.
    + rewrite <- (insert_id _ _ _ Hw) at 2. rewrite <- insert_delete_eq.
      now rewrite map_size_insert_None by apply lookup_delete_eq.
    + intros k' Hk'. now rewrite lookup_delete_ne.
Qed.

(** ** More on [CakeRack.merge] *)

Lemma merge_concat (new prev : CakeRack) :
  merge new prev
  = Ok (concat (merge_table (store new) (store prev) <$> merge_names new prev)).
Proof.
  unfold merge. rewrite (mapM_ok _ (merge_table (store new) (store prev))); [done|].
  apply Forall_forall. intros k Hk.
  apply merge_at_table. now apply elem_of_merge_names.
Qed.

Lemma elem_of_merge (new prev : CakeRack) (p : patch) :
  p ∈ concat (merge_table (store new) (store prev) <$> merge_names new prev)
  <-> p ∈ merge_table (store new) (store prev) p.1.2.
Proof.
  rewrite list_elem_of_In, in_concat. split.
  - intros (l & Hl & Hp). apply list_elem_of_In, list_elem_of_fmap in Hl as (k & -> & Hk).
    apply list_elem_of_In in Hp.
    pose proof (merge_table_names (store new) (store prev) k) as Hn.
    rewrite Forall_forall in Hn. now rewrite (Hn p Hp).
  - intros Hp. exists (merge_table (store new) (store prev) p.1.2).
    split; [|now apply list_elem_of_In].
    apply list_elem_of_In, list_elem_of_fmap. exists p.1.2. split; [done|].
    apply elem_of_merge_names. unfold merge_table in Hp.
    destruct (store new !! p.1.2), (store prev !! p.1.2); eauto.
    now apply elem_of_nil in Hp.
Qed.

Lemma filter_none {A : Type} (P : A -> Prop) `{!forall x, Decision (P x)} (l : list A) :
  Forall (fun x => ~ P x) l -> filter P l = [].
Proof.
  induction 1 as [|x l Hx _ IH]; [done|]. now rewrite filter_cons_False.
Qed.

(** The cases of a patch that is among those of the table. *)
Ltac patch_cases H :=
  repeat case_match;
  repeat (apply elem_of_cons in H as [H|H]);
  try (now apply elem_of_nil in H); try congruence.

(** X15. What the patches of [new.merge(prev)] say.  An update carries
    the value the name has in [new]; a delete carries no value and its
    name is in [prev]; a name gets a delete without an update exactly
    when it is in [prev] only, and at most one delete and one update. *)
Theorem merge_patches_sound (new prev : CakeRack) :
  exists patches,
    merge new prev = Ok patches
    /\ (forall k v, (update, k, v) ∈ patches -> store new !! k = Some v)
    /\ (forall k v, (delete, k, v) ∈ patches ->
          v = None /\ is_Some (store prev !! k))
    /\ (forall k, store new !! k = None -> is_Some (store prev !! k) ->
          (delete, k, None) ∈ patches)
    /\ (forall k, store prev !! k = None -> is_Some (store new !! k) ->
          exists v, (update, k, v) ∈ patches)
    /\ (forall k, (length (filter (fun p : patch => p.1.2 = k) patches) <= 2)%nat).
Proof.
  eexists. split; [apply merge_concat|].
  split; [|split; [|split; [|split]]].
  - intros k v Hp. apply elem_of_merge in Hp. cbn in Hp. unfold merge_table in Hp.
    destruct (store new !! k) as [nv|], (store prev !! k) as [pv|]; patch_cases Hp.
  - intros k v Hp. apply elem_of_merge in Hp. cbn in Hp. unfold merge_table in Hp.
    destruct (store new !! k) as [nv|], (store prev !! k) as [pv|]; patch_cases Hp;
      injection Hp as <-; eauto.
  - intros k Hn [pv Hp]. apply elem_of_merge. cbn. unfold merge_table.
    rewrite Hn, Hp. set_solver.
  - intros k Hp [nv Hn]. exists nv. apply elem_of_merge. cbn. unfold merge_table.
    rewrite Hn, Hp. set_solver.
  - intros k. pose proof (merge_names_sorted new prev) as Hs.
    induction Hs as [|k' names Hs IH Hk']; [simpl; lia|].
    rewrite fmap_cons. simpl. rewrite filter_app, length_app.
    destruct (decide (k' = k)) as [->|Hne].
    + assert (filter (fun p : patch => p.1.2 = k)
                (concat (merge_table (store new) (store prev) <$> names)) = []) as ->.
      { apply filter_none, Forall_forall. intros p Hp Hpk.
        apply list_elem_of_In, in_concat in Hp as (l & Hl & Hp).
        apply list_elem_of_In, list_elem_of_fmap in Hl as (k2 & -> & Hk2).
        pose proof (merge_table_names (store new) (store prev) k2) as Hn.
        rewrite Forall_forall in Hn. rewrite Forall_forall in Hk'.
        rewrite (Hn p) in Hpk by now apply list_elem_of_In.
        subst k2. destruct (Hk' k Hk2) as [_ Hirr]. now apply Hirr. }
      simpl. rewrite Nat.add_0_r.
      etransitivity; [apply length_filter|].
      unfold merge_table.
      destruct (store new !! k), (store prev !! k); repeat case_match; simpl; lia.
    + assert (filter (fun p : patch => p.1.2 = k)
                (merge_table (store new) (store prev) k') = []) as ->; [|exact IH].
      apply filter_none, Forall_forall. intros p Hp Hpk.
      pose proof (merge_table_names (store new) (store prev) k') as Hn.
      rewrite Forall_forall in Hn. rewrite (Hn p Hp) in Hpk. done.
Qed.

(** X16. [new.merge(prev)] yields nothing exactly when both racks have
    the same names and, under each name, equal values or two values that
    are both neuron-like (None or of role NEURON); so a rack merged with
    itself yields nothing, and two racks that differ only in their
    neurons are not told apart. *)
Theorem merge_empty_iff (new prev : CakeRack) :
  (merge new prev = Ok []
   <-> forall k,
         match store new !! k, store prev !! k with
         | Some v, Some pv => v = pv \/ (neuron_like v = true /\ neuron_like pv = true)
         | None, None => True
         | _, _ => False
         end)
  /\ merge new new = Ok [].
Proof.
  assert (forall new prev : CakeRack,
            merge new prev = Ok []
            <-> forall k, merge_table (store new) (store prev) k = []) as Hempty.
  { intros n p. rewrite merge_concat. split.
    - intros [= Hc] k.
      destruct (merge_table (store n) (store p) k) as [|q l] eqn:E; [done|].
      assert (q ∈ concat (merge_table (store n) (store p) <$> merge_names n p)) as Hq.
      { apply elem_of_merge.
        pose proof (merge_table_names (store n) (store p) k) as Hn.
        rewrite E in Hn. apply Forall_inv in Hn. rewrite Hn, E. set_solver. }
      rewrite Hc in Hq. now apply elem_of_nil in Hq.
    - intros Hall. f_equal.
      induction (merge_names n p) as [|k ks IH]; [done|].
      rewrite fmap_cons. simpl. now rewrite Hall, IH. }
  split.
  - rewrite Hempty. apply forall_proper. intros k. unfold merge_table.
    destruct (store new !! k) as [v|], (store prev !! k) as [pv|]; [|done|done|done].
    repeat case_bool_decide; destruct (neuron_like v), (neuron_like pv);
      simpl in *; split; try done; try tauto; try (intros [?|[? ?]]; congruence).
  - apply Hempty. intros k. unfold merge_table.
    destruct (store new !! k) as [v|]; [|done]. now rewrite bool_decide_true.
Qed.

(** ** The Cake of a [CakeRack] *)

(** X17. The Cake of a rack is the Cake of its serialization as content,
    with the role NEURON: INLINE when the text has at most 32 bytes, the
    SHA-256 of the text otherwise.  [cake()] stores it, and a second call
    returns the same Cake and changes nothing. *)
Theorem rack_cake_is_cake_of_content (r : CakeRack) :
  exists s c r',
    CakeRack_str r = Ok s
    /\ CakeRack_cake (_clear_cached r) = Ok (c, r')
    /\ from_bytes (bytes_of_str s) NEURON = Ok c
    /\ role c = NEURON
    /\ Cake_digest c = hashlib.sha256 (bytes_of_str s)
    /\ store r' = store r
    /\ CakeRack_cake r' = Ok (c, r').
Proof.
  destruct (cake_fresh r) as (s & c & Hs & Hc & Hfresh).
  destruct (CakeRack_cake (_clear_cached r)) as [[c' r']|e] eqn:E; [|discriminate].
  injection Hfresh as ->. exists s, c, r'.
  assert (from_bytes (bytes_of_str s) NEURON = Ok c) as Hfb.
  { rewrite from_bytes_spec. unfold from_digest_and_inline_data in Hc.
    destruct (bool_decide (length (bytes_of_str s) <= inline_max_bytes)%nat) eqn:Hlen.
    - unfold Cake_init in Hc. cbn in Hc. exact Hc.
    - rewrite Cake_init_parts in Hc by (intros _; apply sha256_length). exact Hc. }
  split; [exact Hs|]. split; [reflexivity|]. split; [exact Hfb|].
  split.
  { rewrite from_bytes_spec in Hfb. injection Hfb as <-. now destruct (bool_decide _). }
  split; [exact (from_bytes_digest _ _ _ Hfb)|].
  split; [exact (proj1 (cake_keeps _ _ _ E))|].
  unfold CakeRack_cake in E |- *. cbn [_clear_cached _cake] in E.
  apply bind_ok_inv in E as ([b r1] & _ & E).
  apply bind_ok_inv in E as (c1 & _ & [= -> <-]). reflexivity.
Qed.

(** ** [CakePath] *)

(** X18. The child of a path under a name has that name as its last
    segment, is never a root and is relative exactly when the path is.
    Its parent is the path itself when the path is absolute; a relative
    path has no parent at all, and neither has a root. *)
Theorem CakePath_child_parent (p : CakePath) (name : string) :
  path (child p name) = path p ++ [name]
  /\ root (child p name) = root p
  /\ is_root (child p name) = false
  /\ filename (child p name)
     = (if bool_decide (name = EmptyString) then None else Some name)
  /\ (relative p = false -> parent (child p name) = Some p)
  /\ (relative p = true -> parent p = None /\ parent (child p name) = None)
  /\ (is_root p = true -> parent p = None).
Proof.
  destruct p as [r l]. unfold child, parent, is_root, filename, relative. cbn.
  split; [done|]. split; [done|].
  assert (bool_decide (length (l ++ [name]) = 0%nat) = false) as ->
    by (apply bool_decide_eq_false; rewrite length_app; simpl; lia).
  split; [apply andb_false_r|].
  split; [now rewrite last_snoc|].
  split; [|split].
  - intros ->. simpl. now rewrite removelast_last.
  - now intros ->.
  - intros H. apply andb_true_iff in H as [_ ->]. now rewrite orb_true_r.
Qed.

(** X19. [make_absolute] leaves an absolute path as it is and puts a
    relative path behind the current one; the result is relative only
    when both are.  Resolving against a path that was itself resolved is
    the same as resolving in two steps, and the child of a relative path
    resolves to the child of what the path resolves to. *)
Theorem make_absolute_laws (p q : CakePath) :
  (relative p = false -> make_absolute p q = p)
  /\ (relative p = true ->
        make_absolute p q = mkCakePath (root q) (path q ++ path p))
  /\ relative (make_absolute p q) = relative p && relative q
  /\ (forall c, make_absolute (make_absolute p q) c
                = make_absolute p (make_absolute q c))
  /\ (forall name, relative p = true ->
        make_absolute (child p name) q = child (make_absolute p q) name)
  /\ (relative p = true -> path p = [] -> make_absolute p q = q).
Proof.
  destruct p as [[rp|] lp], q as [[rq|] lq];
    unfold make_absolute, relative, child; cbn;
    repeat split; try done; try (intros; discriminate);
    try (intros [[rc|] lc]; cbn; now rewrite ?app_assoc);
    try (intros; now rewrite ?app_assoc);
    try (intros _ ->; now rewrite app_nil_r).
Qed.

(** X20. [next_in_relative_path] raises on an absolute path.  On a
    relative one it gives the first name and the rest of the path, no
    rest when one name is left, and nothing for the empty path; resolving
    the path against a current path is then the same as resolving the
    rest against the child of that name. *)
Theorem next_in_relative_path_steps (p q : CakePath) :
  (relative p = false -> next_in_relative_path p = Raise AssertionError)
  /\ (relative p = true ->
      exists next reminder,
        next_in_relative_path p = Ok (next, reminder)
        /\ next = head (path p)
        /\ (reminder = None <-> (length (path p) <= 1)%nat)
        /\ match next, reminder with
           | Some n, Some rest =>
               relative rest = true /\ path p = n :: path rest
               /\ make_absolute p q = make_absolute rest (child q n)
           | Some n, None => make_absolute p q = child q n
           | None, Some _ => False
           | None, None => make_absolute p q = q
           end).
Proof.
  destruct p as [[rp|] lp], q as [rq lq]; unfold next_in_relative_path, relative; cbn.
  - split; [done|discriminate].
  - split; [discriminate|]. intros _.
    destruct lp as [|n [|m lp]]; eexists _, _; (split; [reflexivity|]); cbn.
    + repeat split; try done; try lia.
      unfold make_absolute, relative. cbn. now rewrite app_nil_r.
    + repeat split; try done; lia.
    + split; [done|]. split; [split; [discriminate|lia]|].
      split; [done|]. split; [done|].
      unfold make_absolute, relative, child. cbn. now rewrite <- app_assoc.
Qed.

(** ** [base64]: decoding what was encoded *)

Lemma value_Some (c : ascii) (v : N) :
  base64.value c = Some v ->
  v < 64
  /\ (127 <? N_of_ascii c) || (N_of_ascii c =? 13) || (N_of_ascii c =? 10)
     || (N_of_ascii c =? 32) = false
  /\ bool_decide (c = base64.pad_char) = false.
Proof.
  destruct c as [[] [] [] [] [] [] [] []]; vm_compute;
    intros H; try discriminate H; injection H as <-; repeat split.
Qed.

Lemma value_char_of (v : N) : v < 64 -> base64.value (base64.char_of v) = Some v.
Proof.
  intros Hv. rewrite <- (N2Nat.id v).
  assert (N.to_nat v < 64)%nat as Hn by lia. revert Hn. generalize (N.to_nat v).
  intros n Hn.
  do 64 (destruct n as [|n]; [reflexivity|]). lia.
Qed.

Lemma char_of_ascii (d : N) : (N_of_ascii (base64.char_of d) <=? 127) = true.
Proof.
  unfold base64.char_of.
  destruct (nth_in_or_default (N.to_nat d) base64.alphabet base64.pad_char) as [Hin| ->];
    [|reflexivity].
  revert Hin. generalize (nth (N.to_nat d) base64.alphabet base64.pad_char).
  apply (proj1 (List.Forall_forall
                  (fun a => (N_of_ascii a <=? 127) = true) base64.alphabet)).
  refine (bool_decide_unpack (Forall _ _) _). vm_compute. exact I.
Qed.

(** A base-64 character that completes no byte. *)
Lemma a2b_step_keep (c : ascii) (v : N) (rest : list ascii)
    (qp lc lb : N) (out : list byte) (qp' lb' : N) :
  base64.value c = Some v -> N.land (qp + 1) 3 = qp' -> lb + 6 = lb' -> lb' < 8 ->
  base64.a2b_loop (c :: rest) qp lc lb out
  = base64.a2b_loop rest qp' (lc * 64 + v) lb' out.
Proof.
  intros Hv Hqp Hlb Hlt. destruct (value_Some c v Hv) as (Hv64 & Hskip & Hpad).
  cbn [base64.a2b_loop]. cbn zeta. rewrite Hskip, Hpad, Hv, Hqp, Hlb.
  rewrite (proj2 (N.leb_gt 8 lb')) by exact Hlt.
  now rewrite (lor_shiftl_small lc v 6) by exact Hv64.
Qed.

(** A base-64 character that completes a byte. *)
Lemma a2b_step_emit (c : ascii) (v : N) (rest : list ascii)
    (qp lc lb : N) (out : list byte) (qp' lb' : N) :
  base64.value c = Some v -> N.land (qp + 1) 3 = qp' -> lb + 6 = lb' + 8 ->
  base64.a2b_loop (c :: rest) qp lc lb out
  = base64.a2b_loop rest qp' ((lc * 64 + v) mod 2 ^ lb') lb'
      (out ++ [byte_of_N (((lc * 64 + v) / 2 ^ lb') mod 256)]).
Proof.
  intros Hv Hqp Hlb. destruct (value_Some c v Hv) as (Hv64 & Hskip & Hpad).
  cbn [base64.a2b_loop]. cbn zeta. rewrite Hskip, Hpad, Hv, Hqp, Hlb.
  rewrite (proj2 (N.leb_le 8 (lb' + 8))) by lia.
  replace (lb' + 8 - 8) with lb' by lia.
  rewrite (lor_shiftl_small lc v 6) by exact Hv64.
  rewrite N.sub_1_r. fold (N.ones lb'). rewrite N.land_ones.
  change 255 with (N.ones 8). rewrite N.land_ones, N.shiftr_div_pow2. reflexivity.
Qed.

Lemma sextets (n1 n2 n3 : N) :
  n1 < 256 -> n2 < 256 -> n3 < 256 ->
  let x := ((0 * 256 + n1) * 256 + n2) * 256 + n3 in
  let lc1 := (0 * 64 + x / 262144) * 64 + (x / 4096) mod 64 in
  let lc2 := (lc1 mod 16) * 64 + (x / 64) mod 64 in
  let lc3 := (lc2 mod 4) * 64 + x mod 64 in
  x / 262144 < 64
  /\ (lc1 / 16) mod 256 = n1 /\ (lc2 / 4) mod 256 = n2 /\ (lc3 / 1) mod 256 = n3
  /\ lc3 mod 1 = 0.
Proof.
  intros H1 H2 H3 x lc1 lc2 lc3. subst x lc1 lc2 lc3.
  split; [lia_div|]. split; [lia_div|]. split; [lia_div|]. split; [lia_div|].
  apply N.mod_1_r.
Qed.

Lemma sextet_values (b1 b2 b3 : byte) :
  let x := of_digits 256 (map Byte.to_N [b1; b2; b3]) in
  base64.value (base64.char_of (N.shiftr x 18)) = Some (x / 262144)
  /\ base64.value (base64.char_of (N.land (N.shiftr x 12) 63)) = Some ((x / 4096) mod 64)
  /\ base64.value (base64.char_of (N.land (N.shiftr x 6) 63)) = Some ((x / 64) mod 64)
  /\ base64.value (base64.char_of (N.land x 63)) = Some (x mod 64).
Proof.
  intros x. change 63 with (N.ones 6). rewrite !N.land_ones, !N.shiftr_div_pow2.
  change (2 ^ 18) with 262144. change (2 ^ 12) with 4096. change (2 ^ 6) with 64.
  destruct (sextets (Byte.to_N b1) (Byte.to_N b2) (Byte.to_N b3)) as (Hx & _);
    try apply byte_to_N_lt.
  repeat split; apply value_char_of; trivial; now apply N.mod_lt.
Qed.

Lemma a2b_loop_b2a (n : nat) (data : list byte) (out : list byte) :
  (length data <= n)%nat ->
  base64.a2b_loop (base64.b2a_loop n data) 0 0 0 out = (0, out ++ data).
Proof.
  revert data out. induction n as [n IH] using lt_wf_ind. intros data out Hn.
  destruct data as [|b1 [|b2 [|b3 rest]]].
  - destruct n; simpl; now rewrite app_nil_r.
  - set (x := of_digits 256 (map Byte.to_N [b1; x00; x00])).
    assert (base64.b2a_loop n [b1]
            = [base64.char_of (N.shiftr x 18); base64.char_of (N.land (N.shiftr x 12) 63);
               base64.pad_char; base64.pad_char]) as -> by now destruct n.
    destruct (sextet_values b1 x00 x00) as (V1 & V2 & _). fold x in V1, V2.
    rewrite (a2b_step_keep _ _ _ 0 0 0 out 1 6 V1) by (reflexivity || lia).
    rewrite (a2b_step_emit _ _ _ 1 _ 6 out 2 4 V2) by reflexivity.
    destruct (sextets (Byte.to_N b1) 0 0) as (_ & H1 & _); try (apply byte_to_N_lt || lia).
    change (2 ^ 4) with 16. unfold x. cbn [of_digits map fold_left].
    change (Byte.to_N x00) with 0. rewrite H1, byte_of_to_N. reflexivity.
  - set (x := of_digits 256 (map Byte.to_N [b1; b2; x00])).
    assert (base64.b2a_loop n [b1; b2]
            = [base64.char_of (N.shiftr x 18); base64.char_of (N.land (N.shiftr x 12) 63);
               base64.char_of (N.land (N.shiftr x 6) 63); base64.pad_char]) as ->
      by now destruct n.
    destruct (sextet_values b1 b2 x00) as (V1 & V2 & V3 & _).
    fold x in V1, V2, V3.
    rewrite (a2b_step_keep _ _ _ 0 0 0 out 1 6 V1) by (reflexivity || lia).
    rewrite (a2b_step_emit _ _ _ 1 _ 6 out 2 4 V2) by reflexivity.
    rewrite (a2b_step_emit _ _ _ 2 _ 4 _ 3 2 V3) by reflexivity.
    destruct (sextets (Byte.to_N b1) (Byte.to_N b2) 0) as (_ & H1 & H2 & _);
      try (apply byte_to_N_lt || lia).
    change (2 ^ 4) with 16. change (2 ^ 2) with 4. unfold x. cbn [of_digits map fold_left].
    change (Byte.to_N x00) with 0. rewrite H1, H2, !byte_of_to_N.
    rewrite <- app_assoc. reflexivity.
  - destruct n as [|n]; [simpl in Hn; lia|].
    cbn [base64.b2a_loop]. cbn zeta.
    destruct (sextet_values b1 b2 b3) as (V1 & V2 & V3 & V4).
    set (x := of_digits 256 (map Byte.to_N [b1; b2; b3])) in *.
    rewrite (a2b_step_keep _ _ _ 0 0 0 out 1 6 V1) by (reflexivity || lia).
    rewrite (a2b_step_emit _ _ _ 1 _ 6 out 2 4 V2) by reflexivity.
    rewrite (a2b_step_emit _ _ _ 2 _ 4 _ 3 2 V3) by reflexivity.
    rewrite (a2b_step_emit _ _ _ 3 _ 2 _ 0 0 V4) by reflexivity.
    destruct (sextets (Byte.to_N b1) (Byte.to_N b2) (Byte.to_N b3))
      as (_ & H1 & H2 & H3 & H0); try apply byte_to_N_lt.
    change (2 ^ 4) with 16. change (2 ^ 2) with 4. change (2 ^ 0) with 1.
    unfold x. cbn [of_digits map fold_left].
    rewrite H1, H2, H3, H0, !byte_of_to_N.
    rewrite (IH n) by (simpl in Hn; lia).
    now rewrite <- !app_assoc.
Qed.

Lemma b2a_loop_ascii (n : nat) (data : list byte) :
  forallb (fun a => N_of_ascii a <=? 127) (base64.b2a_loop n data) = true.
Proof.
  revert data. induction n as [n IH] using lt_wf_ind. intros data.
  destruct data as [|b1 [|b2 [|b3 rest]]].
  - now destruct n.
  - destruct n; cbn [base64.b2a_loop forallb]; now rewrite !char_of_ascii.
  - destruct n; cbn [base64.b2a_loop forallb]; now rewrite !char_of_ascii.
  - destruct n as [|n]; [reflexivity|].
    cbn [base64.b2a_loop forallb]. rewrite !char_of_ascii. cbn [andb].
    apply IH. lia.
Qed.

Lemma b64decode_b64encode (data : list byte) :
  base64.b64decode (base64.b64encode data) = Ok data.
Proof.
  unfold base64.b64decode, base64.b64encode, base64.a2b_base64.
  rewrite list_ascii_of_string_of_list_ascii, b2a_loop_ascii.
  now rewrite a2b_loop_b2a.
Qed.

(** ** [SaltedSha] written out and read back *)

Lemma sha1_length (msg : list byte) : length (sha1.sha1 msg) = 20%nat.
Proof.
  unfold sha1.sha1.
  destruct (sha1.blocks _ _ _) as [[[[a b] c] d] e].
  rewrite !length_app, !length_be_bytes. reflexivity.
Qed.

(** X21. Reading the string form of a SaltedSha back gives the first 20
    bytes of digest and salt as the digest and the rest as the salt: the
    same SaltedSha when its digest has 20 bytes, as that of every
    [from_secret] has.  So a SaltedSha made from a secret, written out
    and read back, is the same and accepts that secret, whatever the
    salt. *)
Theorem SaltedSha_round_trip (ss : SaltedSha) (urandom4 : list byte) (secret : string) :
  SaltedSha_init (SshaStr (SaltedSha_str ss))
  = Ok (mkSaltedSha (firstn 20 (digest ss ++ salt ss)) (skipn 20 (digest ss ++ salt ss)))
  /\ (length (digest ss) = 20%nat ->
        SaltedSha_init (SshaStr (SaltedSha_str ss)) = Ok ss)
  /\ exists s,
       from_secret urandom4 secret = Ok s
       /\ length (digest s) = 20%nat /\ salt s = urandom4
       /\ check_secret s secret = true
       /\ SaltedSha_init (SshaStr (SaltedSha_str s)) = Ok s.
Proof.
  assert (forall s : SaltedSha,
            SaltedSha_init (SshaStr (SaltedSha_str s))
            = Ok (mkSaltedSha (firstn 20 (digest s ++ salt s))
                              (skipn 20 (digest s ++ salt s)))) as Hparse.
  { intros s. unfold SaltedSha_init, SaltedSha_str.
    rewrite str_take_app, str_drop_app, bool_decide_true by reflexivity.
    now rewrite b64decode_b64encode. }
  assert (forall s : SaltedSha, length (digest s) = 20%nat ->
            SaltedSha_init (SshaStr (SaltedSha_str s)) = Ok s) as Hsame.
  { intros [d sl] Hlen. rewrite Hparse. cbn [digest salt] in *.
    rewrite firstn_app, skipn_app, Hlen, Nat.sub_diag.
    rewrite <- Hlen at 1 2. rewrite firstn_all, skipn_all. cbn.
    now rewrite app_nil_r. }
  split; [apply Hparse|]. split; [apply Hsame|].
  exists (mkSaltedSha (sha1.sha1 (bytes_of_str secret ++ urandom4)) urandom4).
  split; [reflexivity|]. split; [apply sha1_length|]. split; [reflexivity|].
  split; [unfold check_secret; now rewrite bool_decide_true|].
  apply Hsame, sha1_length.
Qed.

(** ** When [resolve_cake_stack] succeeds *)

(** X22. [resolve_cake_stack] returns a chain exactly when the cakes
    reached in at most 10 lookups end at an immutable cake and no cake
    is among them twice; the chain is then these cakes.  An immutable
    cake resolves to itself without a lookup, and a lookup that raises on
    the first cake makes the resolution raise the same error. *)
Theorem resolve_cake_stack_succeeds_iff {St : Type}
    (lookup : Cake -> St -> result Cake * St) (cake : Cake) (st : St) :
  (forall chain,
     (resolve_cake_stack lookup cake st).1 = Ok chain
     <-> chain = chase lookup 10 cake st /\ NoDup chain
         /\ exists front last, chain = front ++ [last] /\ is_immutable last = true)
  /\ (is_immutable cake = true -> resolve_cake_stack lookup cake st = (Ok [cake], st))
  /\ (forall e, is_immutable cake = false -> (lookup cake st).1 = Raise e ->
        resolve_cake_stack lookup cake st = (Raise e, (lookup cake st).2)).
Proof.
  unfold resolve_cake_stack. split; [|split].
  - intros chain. split.
    + intros Hres.
      destruct (resolve_loop_ok lookup cake [] st chain) as (Hc & Hnd & _ & front & last & Hch & Hl & _);
        [constructor|constructor|simpl; lia|exact Hres|].
      simpl in Hc, Hch. split; [exact Hc|]. split; [exact Hnd|].
      exists front, last. split; [now rewrite Hc|exact Hl].
    + intros (-> & Hnd & front & last & Hch & Hlast).
      rewrite (resolve_loop_complete lookup cake [] st front last);
        simpl; try lia; try done; now rewrite <- Hch.
  - intros Him. rewrite resolve_cake_stack_loop_eq. now rewrite Him.
  - intros e Hmut He. rewrite resolve_cake_stack_loop_eq. rewrite Hmut. simpl.
    destruct (lookup cake st) as [[next|e'] st']; simpl in *; [discriminate|].
    now injection He as ->.
Qed.

(** ** The Cake and the address of a content *)

(** X23. The Cake of a content is immutable, satisfies the length rule
    of the constructor, and its [digest()] is the SHA-256 of the content,
    inlined or not.  For a content of more than 32 bytes the address of
    the Cake is the address of the Hasher fed with the content.  Another
    content with the same Cake has the same role and the same SHA-256,
    and is the same content when it is inlined. *)
Theorem content_cake_address (b : list byte) (r : CakeRole) :
  exists c,
    from_bytes b r = Ok c
    /\ Cake_wf c /\ is_immutable c = true
    /\ Cake_digest c = hashlib.sha256 b
    /\ ((32 < length b)%nat ->
          ContentAddress_init (OfCake c)
          = ContentAddress_init (OfHasher (Hasher_init (Some b)))
          /\ exists ca, ContentAddress_init (OfCake c) = Ok ca
                        /\ hash_bytes ca = hashlib.sha256 b)
    /\ (forall b' r', from_bytes b' r' = Ok c ->
          r' = r /\ hashlib.sha256 b' = hashlib.sha256 b
          /\ ((length b <= 32)%nat -> b' = b)).
Proof.
  pose proof (from_bytes_spec b r) as Hc.
  destruct (from_bytes b r) as [c|e] eqn:E; [|discriminate]. exists c.
  pose proof (from_bytes_digest b r c E) as Hd.
  split; [reflexivity|]. injection Hc as Hc. unfold inline_max_bytes in Hc.
  split; [|split; [|split; [exact Hd|split]]].
  - rewrite Hc. case_bool_decide; intros Hdata; [discriminate|]. apply sha256_length.
  - rewrite Hc. now case_bool_decide.
  - intros Hlen. rewrite bool_decide_false in Hc by lia. subst c.
    destruct (shard_num_32 (hashlib.sha256 b) (sha256_length b)) as (n & Hn & _).
    unfold ContentAddress_init, Cake_hash_bytes, Hasher_digest, Hasher_init,
      Hasher_update. cbn [type _data app].
    change (is_resolved SHA256) with true. cbn. rewrite Hn. cbn.
    split; [reflexivity|]. eexists. split; [reflexivity|reflexivity].
  - intros b' r' E'. pose proof (from_bytes_digest b' r' c E') as Hd'.
    rewrite from_bytes_spec in E'. injection E' as Hc'. unfold inline_max_bytes in Hc'.
    split; [|split; [congruence|]].
    + rewrite Hc in Hc'. repeat case_bool_decide; congruence.
    + intros Hlen. rewrite bool_decide_true in Hc by exact Hlen.
      rewrite Hc in Hc'. case_bool_decide; congruence.
Qed.

(** ** Names and joined paths *)

Lemma no_slash_cons (c : ascii) (s : string) :
  has_slash (String c s) = false -> c <> "/"%char /\ has_slash s = false.
Proof.
  unfold has_slash. cbn. rewrite !bool_decide_eq_false, not_elem_of_cons.
  intros [Hc Hs]. split; [congruence|exact Hs].
Qed.

Lemma append_tail_inj (a b r1 r2 : string) :
  has_slash a = false -> has_slash b = false ->
  (r1 = EmptyString \/ exists r, r1 = String "/" r) ->
  (r2 = EmptyString \/ exists r, r2 = String "/" r) ->
  (a +:+ r1 = b +:+ r2)%string -> a = b /\ r1 = r2.
Proof.
  revert b. induction a as [|c a IH]; intros [|d b] Ha Hb H1 H2 Heq.
  - done.
  - apply no_slash_cons in Hb as [Hd _]. change (r1 = String d (b +:+ r2)) in Heq.
    destruct H1 as [->|[r ->]]; [discriminate|]. congruence.
  - apply no_slash_cons in Ha as [Hc _]. change (String c (a +:+ r1) = r2) in Heq.
    destruct H2 as [->|[r ->]]; [discriminate|]. congruence.
  - change (String c (a +:+ r1) = String d (b +:+ r2)) in Heq.
    injection Heq as -> Heq.
    apply no_slash_cons in Ha as [_ Ha]. apply no_slash_cons in Hb as [_ Hb].
    destruct (IH b Ha Hb H1 H2 Heq) as [-> ->]. done.
Qed.

Lemma concat_cons_tail (x : string) (l : list string) :
  exists tail,
    String.concat "/" (x :: l) = (x +:+ tail)%string
    /\ (l = [] -> tail = EmptyString)
    /\ (l <> [] -> tail = String "/" (String.concat "/" l)).
Proof.
  destruct l as [|y l].
  - exists EmptyString. split; [|done].
    change (x = x +:+ EmptyString). induction x as [|c x IH]; [done|].
    change (String c x = String c (x +:+ EmptyString)). now rewrite <- IH.
  - eexists. split; [reflexivity|]. done.
Qed.

Lemma concat_slash_inj (l1 l2 : list string) :
  Forall (fun n => has_slash n = false) l1 ->
  Forall (fun n => has_slash n = false) l2 ->
  l1 <> [] -> l2 <> [] ->
  String.concat "/" l1 = String.concat "/" l2 -> l1 = l2.
Proof.
  revert l2. induction l1 as [|x l1 IH]; intros [|y l2] H1 H2 Hn1 Hn2 Heq; try done.
  apply Forall_cons in H1 as [Hx H1]. apply Forall_cons in H2 as [Hy H2].
  destruct (concat_cons_tail x l1) as (t1 & E1 & Ht1 & Ht1').
  destruct (concat_cons_tail y l2) as (t2 & E2 & Ht2 & Ht2').
  rewrite E1, E2 in Heq.
  destruct (append_tail_inj x y t1 t2 Hx Hy) as [-> Ht]; trivial.
  { destruct l1; [left; now apply Ht1|right; eexists; now apply Ht1']. }
  { destruct l2; [left; now apply Ht2|right; eexists; now apply Ht2']. }
  f_equal. destruct l1 as [|x1 l1], l2 as [|y1 l2]; [done| | |].
  - rewrite (Ht1 eq_refl), Ht2' in Ht by done. discriminate.
  - rewrite (Ht2 eq_refl), Ht1' in Ht by done. discriminate.
  - rewrite Ht1', Ht2' in Ht by done. injection Ht as Ht.
    now apply IH.
Qed.

(** X24. [check_bookmark_name] accepts a name exactly when it has no
    slash and is not reserved, and raises a ValueError otherwise.  Paths
    made of accepted names are told apart by [path_join]: two such paths,
    neither empty, with the same joined text have the same names. *)
Theorem path_join_of_checked_names (name : string) (p1 p2 : CakePath) :
  (check_bookmark_name name = Ok tt
   <-> has_slash name = false /\ name ∉ RESERVED_NAMES)
  /\ (check_bookmark_name name <> Ok tt -> check_bookmark_name name = Raise ValueError)
  /\ (Forall (fun n => check_bookmark_name n = Ok tt) (path p1) ->
      Forall (fun n => check_bookmark_name n = Ok tt) (path p2) ->
      path p1 <> [] -> path p2 <> [] ->
      path_join p1 = path_join p2 -> path p1 = path p2).
Proof.
  assert (forall n, check_bookmark_name n = Ok tt
                    <-> has_slash n = false /\ n ∉ RESERVED_NAMES) as Hcheck.
  { intros n. unfold check_bookmark_name.
    destruct (has_slash n); [split; [discriminate|now intros [? _]]|].
    case_bool_decide; split; try done. now intros [_ ?]. }
  split; [apply Hcheck|]. split.
  - unfold check_bookmark_name. destruct (has_slash name); [done|].
    now case_bool_decide.
  - intros H1 H2 Hn1 Hn2. unfold path_join.
    apply concat_slash_inj; trivial;
      (eapply Forall_impl; [eassumption|]); intros n Hn; now apply Hcheck in Hn.
Qed.

(** ** [transform_portal], twice *)

(** X25. On a portal that satisfies the length rule, [transform_portal]
    keeps the data and replaces the type and the role that are given.
    Transforming the result again is transforming the portal once, the
    later arguments winning, as long as the type in between is a portal
    type; when it is not, the second call raises: what was turned into a
    Cake of another kind cannot be turned back. *)
Theorem transform_portal_twice (c : Cake) (r1 r2 : option CakeRole)
    (t1 t2 : option CakeType) :
  Cake_wf c -> is_portal (type c) = true ->
  exists c1,
    transform_portal c r1 t1 = Ok c1
    /\ _data c1 = _data c /\ type c1 = default (type c) t1
    /\ role c1 = default (role c) r1 /\ Cake_wf c1
    /\ (is_portal (type c1) = true ->
          transform_portal c1 r2 t2
          = transform_portal c (from_option Some r1 r2) (from_option Some t1 t2))
    /\ (is_portal (type c1) = false ->
          transform_portal c1 r2 t2 = Raise AssertionError).
Proof.
  intros Hwf Hp. rewrite (transform_portal_spec c r1 t1 Hwf Hp).
  eexists. split; [reflexivity|]. cbn [_data type role].
  assert (Cake_wf (mkCake (_data c) (default (type c) t1) (default (role c) r1))) as Hwf1.
  { intros _. apply Hwf. now apply portal_has_no_data. }
  split; [done|]. split; [done|]. split; [done|]. split; [exact Hwf1|]. split.
  - intros Hp1. rewrite (transform_portal_spec _ r2 t2 Hwf1 Hp1).
    rewrite (transform_portal_spec c _ _ Hwf Hp). cbn [_data type role].
    now destruct r1, r2, t1, t2.
  - intros Hp1. now apply transform_portal_not_portal.
Qed.

Lemma transform_portal_twice_witness :
  exists c1,
    transform_portal portal_a None (Some SHA256) = Ok c1
    /\ _data c1 = _data portal_a /\ type c1 = default (type portal_a) (Some SHA256)
    /\ role c1 = default (role portal_a) None /\ Cake_wf c1
    /\ (is_portal (type c1) = true ->
          transform_portal c1 None (Some PORTAL)
          = transform_portal portal_a (from_option Some None None)
              (from_option Some (Some SHA256) (Some PORTAL)))
    /\ (is_portal (type c1) = false ->
          transform_portal c1 None (Some PORTAL) = Raise AssertionError).
Proof.
  apply (transform_portal_twice portal_a None None (Some SHA256) (Some PORTAL)).
  - intros _. reflexivity.
  - reflexivity.
Defined.

(** ** [CakeRack.parse] of a pair *)

Lemma zip_ensure_keys (names : list pystr) (cakes : list cake_like)
    (items : list (pystr * option Cake)) :
  zip_ensure Ok ensure_it_or_none names cakes = Ok items ->
  items.*1 = take (length cakes) names.
Proof.
  revert cakes items. induction names as [|n names IH]; intros [|c cakes] items; cbn;
    try (now intros [= <-]).
  intros H. apply bind_ok_inv in H as (v & _ & H).
  apply bind_ok_inv in H as (rest & Hrest & [= <-]). cbn. f_equal. now apply IH.
Qed.

Lemma zip_ensure_more (names : list pystr) (cakes more : list cake_like) :
  (length names <= length cakes)%nat ->
  zip_ensure Ok ensure_it_or_none names (cakes ++ more)
  = zip_ensure Ok ensure_it_or_none names cakes.
Proof.
  revert cakes. induction names as [|n names IH]; intros [|c cakes] Hlen; cbn in *;
    try lia; try done.
  now rewrite IH by lia.
Qed.

Lemma store_update_keeps (items : list (pystr * option Cake))
    (m : gmap pystr (option Cake)) (k : pystr) :
  is_Some (m !! k) -> is_Some (store_update m items !! k).
Proof.
  unfold store_update. revert m. induction items as [|[k' v] items IH]; intros m Hk; [done|].
  cbn. apply IH. destruct (decide (k' = k)) as [->|Hne].
  - rewrite lookup_insert_eq. eauto.
  - now rewrite lookup_insert_ne.
Qed.

(** X26. [parse] of a pair of lists only adds to a rack: a name that is
    not among the names paired with a cake keeps its value, and no name
    of the rack is lost.  Names and cakes are paired up to the shorter
    list: cakes beyond the last name are not looked at, so they change
    nothing, not even when they are no Cakes at all. *)
Theorem parse_pair_updates (r r' : CakeRack) (names : list pystr)
    (cakes : list cake_like) :
  parse r (ParsePair names cakes) = Ok r' ->
  (forall k, k ∉ take (length cakes) names -> store r' !! k = store r !! k)
  /\ (forall k, is_Some (store r !! k) -> is_Some (store r' !! k))
  /\ (forall more, (length names <= length cakes)%nat ->
        parse r (ParsePair names (cakes ++ more)) = Ok r').
Proof.
  unfold parse. cbn [_clear_cached store _cake _content _size _in_bytes _defined].
  intros H. apply bind_ok_inv in H as (items & Hitems & [= <-]). cbn [store].
  split; [|split].
  - intros k Hk. apply store_update_notin.
    now rewrite (zip_ensure_keys names cakes items Hitems).
  - intros k. apply store_update_keeps.
  - intros more Hlen. now rewrite zip_ensure_more, Hitems.
Qed.

Lemma parse_pair_updates_witness :
  (forall k, k ∉ take (length [NoCake; CakeStr (py "?")]) [py "a"] ->
     store (rack_of [(py "a", None)]) !! k
     = store (rack_of []) !! k)
  /\ (forall k, is_Some (store (rack_of []) !! k) ->
        is_Some (store (rack_of [(py "a", None)]) !! k))
  /\ (forall more, (length [py "a"] <= length [NoCake; CakeStr (py "?")])%nat ->
        parse (rack_of []) (ParsePair [py "a"] ([NoCake; CakeStr (py "?")] ++ more))
        = Ok (rack_of [(py "a", None)])).
Proof.
  apply (parse_pair_updates (rack_of []) (rack_of [(py "a", None)])
           [py "a"] [NoCake; CakeStr (py "?")]).
  vm_compute. reflexivity.
Defined.
